(** * Crossword solver: constraint propagation and backtracking search

    A shallow embedding of [CrosswordCreator] (src/generate.py): the domain
    store, node consistency, [revise], [ac3], the assignment validator, the
    two search heuristics and [backtrack]/[solve], followed by the theorems
    that settle the specification's claims about them.

    Python sets and dicts are [gset] and [gmap]; a loop over one of them runs
    over [elements] or [map_to_list], and the proofs use of that order only
    that it lists each member once. A method is a computation in the monad
    [M], which threads the one domain store of [self] and records the Python
    exception, if any, that ended the call. *)

From Stdlib Require Import String Ascii.
From stdpp Require Import gmap strings list fin_maps fin_sets sorting.

Set Default Proof Using "Type".
Local Open Scope string_scope.
Local Open Scope nat_scope.

(** ** The puzzle model *)

Inductive Direction := ACROSS | DOWN.

(** A slot of the grid: [Variable(i, j, direction, length)]. Two slots are
    equal iff the four fields agree. *)
Record Var := mkVar {
  var_i : nat;
  var_j : nat;
  var_direction : Direction;
  var_length : nat
}.

#[global] Instance Direction_eq_dec : EqDecision Direction.
Proof. solve_decision. Defined.

#[global] Instance Var_eq_dec : EqDecision Var.
Proof. solve_decision. Defined.

Definition Var_to_tuple (v : Var) : nat * nat * bool * nat :=
  (var_i v, var_j v,
   match var_direction v with ACROSS => true | DOWN => false end,
   var_length v).

Definition Var_of_tuple (t : nat * nat * bool * nat) : Var :=
  let '(a, b, d, n) := t in mkVar a b (if d then ACROSS else DOWN) n.

#[global] Instance Var_countable : Countable Var.
Proof.
  refine (inj_countable' Var_to_tuple Var_of_tuple _).
  intros [a b [] n]; reflexivity.
Defined.

(** Modelled from the spec: the Puzzle Model (module [crossword], imported by
    generate.py but not part of the sources). It exposes the set of slots,
    the vocabulary and the overlap lookup: [overlaps x y] is [None] when the
    two slots share no cell, or [Some (i_x, i_y)] when character [i_x] of
    [x]'s word must equal character [i_y] of [y]'s word. *)
Record Crossword := mkCrossword {
  variables : gset Var;
  words : gset string;
  overlaps : Var → Var → option (nat * nat)
}.

(** Modelled from the spec: [neighbors var] is the set of slots overlapping
    [var], derived from the overlap relation. *)
Definition neighbors (cw : Crossword) (var : Var) : gset Var :=
  filter (λ v, v ≠ var ∧ is_Some (overlaps cw v var)) (variables cw).

(** The contract of the Puzzle Model: the overlap relation is symmetric with
    swapped indices, and its indices are offsets inside the two slots. *)
Definition overlaps_symmetric (cw : Crossword) : Prop :=
  ∀ x y i_x i_y, x ∈ variables cw → y ∈ variables cw →
    overlaps cw x y = Some (i_x, i_y) → overlaps cw y x = Some (i_y, i_x).

Definition overlaps_in_range (cw : Crossword) : Prop :=
  ∀ x y i_x i_y, x ∈ variables cw → y ∈ variables cw →
    overlaps cw x y = Some (i_x, i_y) → i_x < var_length x ∧ i_y < var_length y.

Definition well_formed (cw : Crossword) : Prop :=
  overlaps_symmetric cw ∧ overlaps_in_range cw.

(** ** The domain store and the monad of the solver's methods *)

(** [self.domains]: a dict from slots to sets of candidate words. *)
Abbreviation Domains := (gmap Var (gset string)).

(** An assignment: a dict from slots to words. *)
Abbreviation Assignment := (gmap Var string).

Abbreviation Arc := (Var * Var)%type.

Inductive exn := IndexError | KeyError | TypeError.

(** What a call produces: a value, a Python exception, or (for the loops
    that are run on a fuel budget) exhaustion of the budget. *)
Inductive result (A : Type) :=
  | Ok (a : A)
  | Raise (e : exn)
  | OutOfFuel.
Arguments Ok {A} a.
Arguments Raise {A} e.
Arguments OutOfFuel {A}.

(** A method reads and mutates [self.domains]; the store is kept as it is
    at the moment an exception is raised. *)
Definition M (A : Type) : Type := Domains → Domains * result A.

Definition ret {A} (a : A) : M A := λ D, (D, Ok a).

Definition bind {A B} (m : M A) (k : A → M B) : M B :=
  λ D, match m D with
       | (D', Ok a) => k a D'
       | (D', Raise e) => (D', Raise e)
       | (D', OutOfFuel) => (D', OutOfFuel)
       end.

Definition lift {A} (r : result A) : M A := λ D, (D, r).

Notation "x <-- m ;; k" := (bind m (λ x, k))
  (at level 100, m at next level, right associativity).

(** [self.domains[v]] *)
Definition get_domain (v : Var) : M (gset string) :=
  λ D, match D !! v with
       | Some ws => (D, Ok ws)
       | None => (D, Raise KeyError)
       end.

(** [self.domains[v].remove(word)]; at both call sites [word] was read from a
    copy of that very set and is removed at most once, so the [KeyError] of
    [set.remove] cannot arise. *)
Definition remove_word (v : Var) (word : string) : M unit :=
  λ D, (alter (λ ws, ws ∖ {[word]}) v D, Ok tt).

(** The keys of [self.domains], in iteration order. *)
Definition domain_keys (D : Domains) : list Var := (map_to_list D).*1.

(** [word[k]] for a non-negative offset [k]. *)
Definition char_at (word : string) (k : nat) : result ascii :=
  match String.get k word with
  | Some c => Ok c
  | None => Raise IndexError
  end.

Section Creator.

Context (cw : Crossword).

(** [__init__]: every slot starts with its own copy of the vocabulary. *)
Definition init_domains : Domains := gset_to_gmap (words cw) (variables cw).

(** ** Node consistency *)

Fixpoint node_loop (v : Var) (all_words : list string) : M unit :=
  match all_words with
  | [] => ret tt
  | word :: rest =>
      if decide (String.length word ≠ var_length v)
      then (_ <-- remove_word v word ;; node_loop v rest)
      else node_loop v rest
  end.

Fixpoint node_vars (vs : list Var) : M unit :=
  match vs with
  | [] => ret tt
  | v :: rest =>
      all_words <-- get_domain v ;;
      _ <-- node_loop v (elements all_words) ;;
      node_vars rest
  end.

Definition enforce_node_consistency : M unit :=
  λ D, node_vars (domain_keys D) D.

(** ** Arc consistency *)

(** The inner loop of [revise]: is there a [word_y] with
    [word_x[i_x] == word_y[i_y]]? *)
Fixpoint find_match (word_x : string) (i_x i_y : nat) (ws : list string)
  : result bool :=
  match ws with
  | [] => Ok false
  | word_y :: rest =>
      match char_at word_x i_x with
      | Ok c_x =>
          match char_at word_y i_y with
          | Ok c_y =>
              if decide (c_x = c_y) then Ok true
              else find_match word_x i_x i_y rest
          | Raise e => Raise e
          | OutOfFuel => OutOfFuel
          end
      | Raise e => Raise e
      | OutOfFuel => OutOfFuel
      end
  end.

(** The outer loop of [revise], over the copy [all_words_x]. *)
Fixpoint revise_loop (x y : Var) (i_x i_y : nat) (all_words_x : list string)
    (flag : bool) : M bool :=
  match all_words_x with
  | [] => ret flag
  | word_x :: rest =>
      dy <-- get_domain y ;;
      found <-- lift (find_match word_x i_x i_y (elements dy)) ;;
      if found then revise_loop x y i_x i_y rest flag
      else (_ <-- remove_word x word_x ;; revise_loop x y i_x i_y rest true)
  end.

Definition revise (x y : Var) : M bool :=
  match overlaps cw x y with
  | None => ret false
  | Some (i_x, i_y) =>
      dx <-- get_domain x ;;
      flag <-- revise_loop x y i_x i_y (elements dx) false ;;
      ret (if flag then true else false)
  end.

(** The default arc set of [ac3]: every ordered pair of distinct slots. *)
Definition all_arcs (D : Domains) : gset Arc :=
  list_to_set (x ← domain_keys D; y ← domain_keys D;
               if decide (x ≠ y) then [(x, y)] else []).

(** [{(y, x) for y in self.domains if x != y}] *)
Definition arcs_into (x : Var) (D : Domains) : gset Arc :=
  list_to_set ((λ y, (y, x)) <$> filter (λ y, x ≠ y) (domain_keys D)).

(** The [while] loop of [ac3]. [arcs.pop()] takes the first arc of the set's
    iteration order. *)
Fixpoint ac3_loop (fuel : nat) (arcs : gset Arc) : M bool :=
  match elements arcs with
  | [] => ret true
  | (x, y) :: _ =>
      match fuel with
      | 0 => lift OutOfFuel
      | S fuel' =>
          let arcs := arcs ∖ {[(x, y)]} in
          revised <-- revise x y ;;
          if revised then
            dx <-- get_domain x ;;
            if decide (size dx = 0) then ret false
            else (λ D, ac3_loop fuel' (arcs_into x D ∪ arcs) D)
          else ac3_loop fuel' arcs
      end
  end.

(** The candidate words left in the whole store, each with its slot. *)
Definition store_pairs (D : Domains) : gset (Var * string) :=
  list_to_set (p ← map_to_list D; pair p.1 <$> elements p.2).

(** A budget that the loop of [ac3] never exhausts: an iteration either drops
    one arc, or removes a word and adds at most one arc per slot. *)
Definition ac3_fuel (arcs : gset Arc) (D : Domains) : nat :=
  size arcs + size (store_pairs D) * S (size D).

Definition ac3 (arcs : option (gset Arc)) : M bool :=
  λ D, let arcs := match arcs with
                   | None => all_arcs D
                   | Some arcs => arcs
                   end in
       ac3_loop (ac3_fuel arcs D) arcs D.

(** ** The assignment validator *)

Definition assignment_complete (assignment : Assignment) : M bool :=
  λ D, (D, Ok (if decide (size assignment = size D) then true else false)).

(** [itertools.combinations(l, 2)] *)
Fixpoint combinations2 {A} (l : list A) : list (A * A) :=
  match l with
  | [] => []
  | a :: rest => (pair a <$> rest) ++ combinations2 rest
  end.

Fixpoint check_lengths (items : list (Var * string)) : bool :=
  match items with
  | [] => true
  | (v, word) :: rest =>
      if decide (String.length word ≠ var_length v) then false
      else check_lengths rest
  end.

Definition lookup_word (assignment : Assignment) (v : Var) : result string :=
  match assignment !! v with
  | Some word => Ok word
  | None => Raise KeyError
  end.

Fixpoint check_overlaps (assignment : Assignment) (pairs : list (Var * Var))
  : result bool :=
  match pairs with
  | [] => Ok true
  | (x, y) :: rest =>
      match overlaps cw x y with
      | None => check_overlaps assignment rest
      | Some (i_x, i_y) =>
          match lookup_word assignment x with
          | Ok word_x =>
            match char_at word_x i_x with
            | Ok c_x =>
              match lookup_word assignment y with
              | Ok word_y =>
                match char_at word_y i_y with
                | Ok c_y =>
                    if decide (c_x ≠ c_y) then Ok false
                    else check_overlaps assignment rest
                | Raise e => Raise e
                | OutOfFuel => OutOfFuel
                end
              | Raise e => Raise e
              | OutOfFuel => OutOfFuel
              end
            | Raise e => Raise e
            | OutOfFuel => OutOfFuel
            end
          | Raise e => Raise e
          | OutOfFuel => OutOfFuel
          end
      end
  end.

Definition consistent (assignment : Assignment) : M bool :=
  let items := map_to_list assignment in
  if decide (size (list_to_set items.*2 : gset string) ≠ size assignment)
  then ret false
  else if check_lengths items then lift (check_overlaps assignment (combinations2 items.*1))
  else ret false.

(** ** Search heuristics *)

(** [sorted(l, key=key)]: a stable sort, ascending in [key]. *)
Fixpoint insert_by {A K} (le : K → K → bool) (key : A → K) (a : A) (l : list A)
  : list A :=
  match l with
  | [] => [a]
  | b :: rest =>
      if le (key a) (key b) then a :: b :: rest
      else b :: insert_by le key a rest
  end.

Definition sorted_by {A K} (le : K → K → bool) (key : A → K) (l : list A)
  : list A :=
  foldr (insert_by le key) [] l.

(** The order of Python tuples [(a, b)] of integers. *)
Definition pair_le (p q : nat * nat) : bool :=
  (p.1 <? q.1) || ((p.1 =? q.1) && (p.2 <=? q.2)).

(** The innermost loop of [order_domain_values]. *)
Fixpoint count_word (word_var : string) (i_var i_neighbor : nat)
    (ws : list string) (remove_count : nat) : result nat :=
  match ws with
  | [] => Ok remove_count
  | word_neighbor :: rest =>
      match char_at word_var i_var with
      | Ok c_var =>
          match char_at word_neighbor i_neighbor with
          | Ok c_neighbor =>
              count_word word_var i_var i_neighbor rest
                (if decide (c_var ≠ c_neighbor) then remove_count + 1
                 else remove_count)
          | Raise e => Raise e
          | OutOfFuel => OutOfFuel
          end
      | Raise e => Raise e
      | OutOfFuel => OutOfFuel
      end
  end.

Fixpoint count_neighbors (D : Domains) (assignment : Assignment) (var : Var)
    (word_var : string) (ns : list Var) (remove_count : nat) : result nat :=
  match ns with
  | [] => Ok remove_count
  | neighbor :: rest =>
      if decide (neighbor ∈ dom assignment)
      then count_neighbors D assignment var word_var rest remove_count
      else
        match overlaps cw var neighbor with
        | None => Raise TypeError
        | Some (i_var, i_neighbor) =>
            match D !! neighbor with
            | None => Raise KeyError
            | Some dn =>
                match count_word word_var i_var i_neighbor (elements dn)
                        remove_count with
                | Ok n => count_neighbors D assignment var word_var rest n
                | Raise e => Raise e
                | OutOfFuel => OutOfFuel
                end
            end
        end
  end.

(** The loop that fills the dict [rule_out], kept as its list of items. *)
Fixpoint rule_out_loop (D : Domains) (assignment : Assignment) (var : Var)
    (ws : list string) : result (list (string * nat)) :=
  match ws with
  | [] => Ok []
  | word_var :: rest =>
      match count_neighbors D assignment var word_var
              (elements (neighbors cw var)) 0 with
      | Ok n =>
          match rule_out_loop D assignment var rest with
          | Ok items => Ok ((word_var, n) :: items)
          | Raise e => Raise e
          | OutOfFuel => OutOfFuel
          end
      | Raise e => Raise e
      | OutOfFuel => OutOfFuel
      end
  end.

Definition order_domain_values (var : Var) (assignment : Assignment)
  : M (list string) :=
  dv <-- get_domain var ;;
  λ D, match rule_out_loop D assignment var (elements dv) with
       | Ok rule_out => (D, Ok (sorted_by Nat.leb snd rule_out).*1)
       | Raise e => (D, Raise e)
       | OutOfFuel => (D, OutOfFuel)
       end.

(** The sort key of [select_unassigned_variable]; it is only applied to keys
    of the store. *)
Definition select_key (D : Domains) (x : Var) : nat * nat :=
  (size (D !!! x), size (neighbors cw x)).

Definition select_unassigned_variable (assignment : Assignment) : M Var :=
  λ D, let unassigned_variables := dom D ∖ dom assignment in
       match sorted_by pair_le (select_key D) (elements unassigned_variables) with
       | var :: _ => (D, Ok var)
       | [] => (D, Raise IndexError)
       end.

(** ** Backtracking search *)

(** The arcs passed to [ac3] inside the search: those between slots that the
    extended assignment leaves unassigned. *)
Definition unassigned_arcs (new_assignment : Assignment) (D : Domains)
  : gset Arc :=
  list_to_set (x ← domain_keys D; y ← domain_keys D;
               if decide (x ≠ y ∧ (x ∉ dom new_assignment) ∧ (y ∉ dom new_assignment))
               then [(x, y)] else []).

(** The [for word in ...] loop of [backtrack]; [recurse] is the recursive
    call [self.backtrack]. *)
Fixpoint backtrack_loop (recurse : Assignment → M (option Assignment))
    (assignment : Assignment) (var : Var) (values : list string)
  : M (option Assignment) :=
  match values with
  | [] => ret None
  | word :: rest =>
      let new_assignment := <[var := word]> assignment in
      ok <-- consistent new_assignment ;;
      if ok then
        (_ <-- (λ D, ac3 (Some (unassigned_arcs new_assignment D)) D) ;;
         result <-- recurse new_assignment ;;
         match result with
         | Some _ => ret result
         | None => backtrack_loop recurse assignment var rest
         end)
      else backtrack_loop recurse assignment var rest
  end.

(** [fuel] bounds the depth of the recursion, which adds one slot to the
    assignment per level. *)
Fixpoint backtrack (fuel : nat) (assignment : Assignment)
  : M (option Assignment) :=
  match fuel with
  | 0 => lift OutOfFuel
  | S fuel' =>
      complete <-- assignment_complete assignment ;;
      if complete then ret (Some assignment)
      else
        (var <-- select_unassigned_variable assignment ;;
         values <-- order_domain_values var assignment ;;
         backtrack_loop (backtrack fuel') assignment var values)
  end.

Definition solve : M (option Assignment) :=
  _ <-- enforce_node_consistency ;;
  _ <-- ac3 None ;;
  (λ D, backtrack (S (size D)) ∅ D).

(** [CrosswordCreator(crossword).solve()] *)
Definition run_solve : Domains * result (option Assignment) :=
  solve init_domains.

End Creator.

(** The object [self]: the puzzle it was built from and its domain store. A
    method reads both fields and writes the store only. *)
Record CrosswordCreator := mkCreator {
  crossword : Crossword;
  domains : Domains
}.

Definition call {A} (method : Crossword → M A) (self : CrosswordCreator)
  : CrosswordCreator * result A :=
  let '(D', r) := method (crossword self) (domains self) in
  (mkCreator (crossword self) D', r).

(** ** The letter grid *)

(** [letters]: a list of rows, each a list of cells holding [None] or a
    character. *)
Abbreviation Grid := (list (list (option ascii))).

(** The cell of the [k]-th letter of a slot: [k] rows down for a [DOWN] slot,
    [k] columns right for an [ACROSS] one. *)
Definition cell_of (variable : Var) (k : nat) : nat * nat :=
  (var_i variable + match var_direction variable with DOWN => k | ACROSS => 0 end,
   var_j variable + match var_direction variable with ACROSS => k | DOWN => 0 end).

(** [letters[i][j] = c]: both subscripts must be inside the list. Every row
    is a list of its own, so the write shows in row [i] only. *)
Definition set_cell (letters : Grid) (i j : nat) (c : ascii) : result Grid :=
  match letters !! i with
  | None => Raise IndexError
  | Some row =>
      if decide (j < length row) then Ok (<[i := <[j := Some c]> row]> letters)
      else Raise IndexError
  end.

(** [for k in range(len(word))]: the loop over the letters of one word. *)
Fixpoint write_word (variable : Var) (word : string) (ks : list nat)
    (letters : Grid) : result Grid :=
  match ks with
  | [] => Ok letters
  | k :: rest =>
      let '(i, j) := cell_of variable k in
      match char_at word k with
      | Ok c =>
          match set_cell letters i j c with
          | Ok letters' => write_word variable word rest letters'
          | Raise e => Raise e
          | OutOfFuel => OutOfFuel
          end
      | Raise e => Raise e
      | OutOfFuel => OutOfFuel
      end
  end.

(** [for variable, word in assignment.items()] *)
Fixpoint write_items (items : list (Var * string)) (letters : Grid)
  : result Grid :=
  match items with
  | [] => Ok letters
  | (variable, word) :: rest =>
      match write_word variable word (seq 0 (String.length word)) letters with
      | Ok letters' => write_items rest letters'
      | Raise e => Raise e
      | OutOfFuel => OutOfFuel
      end
  end.

(** [letter_grid], for a puzzle of the given [height] and [width]. *)
Definition letter_grid (height width : nat) (assignment : Assignment)
  : result Grid :=
  write_items (map_to_list assignment) (replicate height (replicate width None)).

(** * Specification *)

(** ** Overlaps and stores *)

(** [wx[i_x] == wy[i_y]], both characters being there. *)
Definition agree (i_x i_y : nat) (wx wy : string) : Prop :=
  ∃ c, String.get i_x wx = Some c ∧ String.get i_y wy = Some c.

#[global] Instance agree_dec i_x i_y wx wy : Decision (agree i_x i_y wx wy).
Proof.
  unfold agree.
  destruct (String.get i_x wx) as [c|] eqn:Hx;
    [|right; intros (c & ? & ?); congruence].
  destruct (String.get i_y wy) as [c'|] eqn:Hy;
    [|right; intros (? & ? & ?); congruence].
  destruct (decide (c = c')) as [->|Hne].
  - left. by exists c'.
  - right. intros (? & ? & ?). congruence.
Defined.

(** [wx] has a compatible word in [dy]. *)
Definition supported (i_x i_y : nat) (dy : gset string) (wx : string) : Prop :=
  set_Exists (agree i_x i_y wx) dy.

#[global] Instance supported_dec i_x i_y dy wx : Decision (supported i_x i_y dy wx).
Proof. unfold supported. apply _. Defined.

(** Every word of the store is long enough for the overlap offsets of its
    slot, so that no [word[k]] of [revise] raises [IndexError]. *)
Definition indexable (cw : Crossword) (D : Domains) : Prop :=
  ∀ x y i_x i_y dx dy, overlaps cw x y = Some (i_x, i_y) →
    D !! x = Some dx → D !! y = Some dy →
    (∀ w, w ∈ dx → i_x < String.length w) ∧
    (∀ w, w ∈ dy → i_y < String.length w).

(** The invariant that node consistency establishes. *)
Definition node_consistent (D : Domains) : Prop :=
  ∀ v dv w, D !! v = Some dv → w ∈ dv → String.length w = var_length v.

(** No domain of [D'] has a word that [D] does not have. *)
Definition shrinks (D' D : Domains) : Prop :=
  dom D' = dom D ∧
  ∀ v dv', D' !! v = Some dv' → ∃ dv, D !! v = Some dv ∧ dv' ⊆ dv.

(** A family [S] of candidate words, one set per slot, in which every word
    has a compatible word across every overlap of the slots [V]. *)
Definition arc_closed (cw : Crossword) (V : gset Var)
    (S : Var → string → Prop) : Prop :=
  ∀ x y i_x i_y wx, x ∈ V → y ∈ V → x ≠ y →
    overlaps cw x y = Some (i_x, i_y) → S x wx →
    ∃ wy, S y wy ∧ agree i_x i_y wx wy.

(** The words of [S] are all in the store. *)
Definition within (S : Var → string → Prop) (D : Domains) : Prop :=
  ∀ v w, S v w → ∃ dv, D !! v = Some dv ∧ w ∈ dv.

(** The arc [(x, y)] needs no revision: the inner loop of [revise] finds a
    match for every word of [domain(x)]. *)
Definition arc_consistent (cw : Crossword) (D : Domains) (x y : Var) : Prop :=
  ∀ i_x i_y dx dy wx, overlaps cw x y = Some (i_x, i_y) →
    D !! x = Some dx → D !! y = Some dy → wx ∈ dx →
    find_match wx i_x i_y (elements dy) = Ok true.

(** The arc set a call of [ac3] starts from is made of arcs of the store. *)
Definition arcs_of_store (arcs : option (gset Arc)) (D : Domains) : Prop :=
  ∀ A, arcs = Some A → A ⊆ all_arcs D.

(** ** Assignments and solutions *)

(** Consistency of an assignment in the words of the specification: (a) the
    assigned words are pairwise distinct, (b) each has the length of its
    slot, (c) across every overlap of two assigned slots the words agree. *)
Definition consistent_spec (cw : Crossword) (a : Assignment) : Prop :=
  (∀ x y wx wy, x ≠ y → a !! x = Some wx → a !! y = Some wy → wx ≠ wy) ∧
  (∀ x wx, a !! x = Some wx → String.length wx = var_length x) ∧
  (∀ x y wx wy i_x i_y, x ≠ y → a !! x = Some wx → a !! y = Some wy →
     overlaps cw x y = Some (i_x, i_y) → agree i_x i_y wx wy).

(** A solution of the puzzle: a complete, consistent assignment of words of
    the vocabulary. *)
Definition solution (cw : Crossword) (s : Assignment) : Prop :=
  dom s = variables cw ∧
  (∀ v w, s !! v = Some w → w ∈ words cw) ∧
  consistent_spec cw s.

(** The words that occur in some solution, slot by slot. *)
Definition in_solution (cw : Crossword) (v : Var) (w : string) : Prop :=
  ∃ s, solution cw s ∧ s !! v = Some w.

(** What holds of the store from node consistency on: its keys are the
    slots, its words are words of the vocabulary of the right length, and it
    has lost no word of any solution. *)
Definition store_inv (cw : Crossword) (D : Domains) : Prop :=
  dom D = variables cw ∧
  node_consistent D ∧
  (∀ v dv w, D !! v = Some dv → w ∈ dv → w ∈ words cw) ∧
  within (in_solution cw) D.

(** The unary constraint of a slot. *)
Definition right_length (v : Var) (w : string) : Prop :=
  String.length w = var_length v.

#[global] Instance right_length_dec v w : Decision (right_length v w).
Proof. unfold right_length. apply _. Defined.

(** What a call of [backtrack] on the assignment [a] must produce: a solution,
    or [None] when no solution extends [a]; the store keeps its invariant. *)
Definition search_result (cw : Crossword) (a : Assignment)
    (out : Domains * result (option Assignment)) : Prop :=
  ∃ D' res, out = (D', Ok res) ∧ store_inv cw D' ∧
    match res with
    | Some s => solution cw s
    | None => ∀ s, solution cw s → ¬ a ⊆ s
    end.

(** The assignments the search works on. *)
Definition partial_solution (cw : Crossword) (a : Assignment) : Prop :=
  dom a ⊆ variables cw ∧
  (∀ v w, a !! v = Some w → w ∈ words cw) ∧
  consistent_spec cw a.

(** ** Example puzzles *)

(** An overlap lookup given by its table. *)
Definition overlaps_of (table : list (Arc * (nat * nat))) (x y : Var)
  : option (nat * nat) :=
  (list_to_map table : gmap Arc (nat * nat)) !! (x, y).

(** Two crossing slots: the second letter of [across3] is the first letter
    of [down3]. *)
Definition across3 : Var := mkVar 0 0 ACROSS 3.

Definition down3 : Var := mkVar 0 1 DOWN 3.

Definition cross_overlaps : Var → Var → option (nat * nat) :=
  overlaps_of [((across3, down3), (1, 0)); ((down3, across3), (0, 1))].

Definition cross_puzzle : Crossword :=
  mkCrossword {[across3; down3]} {["CAT"; "ATE"; "DOG"; "AT"]} cross_overlaps.

(** Its store once node consistency has run, and then arc consistency. *)
Definition cross_store : Domains :=
  (enforce_node_consistency (init_domains cross_puzzle)).1.

Definition cross_fixpoint : Domains := (ac3 cross_puzzle None cross_store).1.

Definition cross_solution : Assignment :=
  {[across3 := "CAT"; down3 := "ATE"]}.

(** The same grid with a vocabulary that has no compatible pair. *)
Definition cross_unsat : Crossword :=
  mkCrossword {[across3; down3]} {["CAT"; "DOG"]} cross_overlaps.

(** Two slots that do not meet, with one word and with two. *)
Definition row0 : Var := mkVar 0 0 ACROSS 3.

Definition row2 : Var := mkVar 2 0 ACROSS 3.

Definition rows_one_word : Crossword :=
  mkCrossword {[row0; row2]} {["CAT"]} (λ _ _, None).

Definition rows_two_words : Crossword :=
  mkCrossword {[row0; row2]} {["CAT"; "DOG"]} (λ _ _, None).

Definition rows_solution : Assignment := {[row0 := "CAT"; row2 := "DOG"]}.

(** One slot across the top, crossed by a slot at each end; every word
    starts and ends with the same letter, so that propagation removes
    nothing. *)
Definition top : Var := mkVar 0 0 ACROSS 3.

Definition left_down : Var := mkVar 0 0 DOWN 3.

Definition right_down : Var := mkVar 0 2 DOWN 3.

Definition gate_puzzle : Crossword :=
  mkCrossword {[top; left_down; right_down]} {["TOT"; "TAT"; "TIT"]}
    (overlaps_of [((top, left_down), (0, 0)); ((left_down, top), (0, 0));
                  ((top, right_down), (2, 0)); ((right_down, top), (0, 2))]).

(** The store of [gate_puzzle] when [solve] enters [backtrack]. *)
Definition gate_store : Domains :=
  (bind enforce_node_consistency (λ _, ac3 gate_puzzle None)
     (init_domains gate_puzzle)).1.

(** A puzzle with the single slot [row0], and an assignment of another
    slot. *)
Definition one_slot : Crossword := mkCrossword {[row0]} {["CAT"]} (λ _ _, None).

Definition stray_assignment : Assignment := {[row2 := "CAT"]}.

(** ** Checking the contract of a puzzle by evaluation *)

(** [overlaps x y] and [overlaps y x] carry swapped offsets, inside the two
    slots. *)
Definition overlap_ok (cw : Crossword) (x y : Var) : bool :=
  match overlaps cw x y with
  | None => true
  | Some (i_x, i_y) =>
      bool_decide (overlaps cw y x = Some (i_y, i_x))
      && (i_x <? var_length x) && (i_y <? var_length y)
  end.

(** The contract [well_formed], checked on every pair of slots. *)
Definition well_formed_b (cw : Crossword) : bool :=
  forallb (λ x, forallb (overlap_ok cw x) (elements (variables cw)))
    (elements (variables cw)).

(** ** Grids *)

(** What [letters[i][j]] reads: [None] outside the grid. *)
Definition grid_get (letters : Grid) (i j : nat) : option (option ascii) :=
  letters !! i ≫= λ row, row !! j.

(** The letters an assignment puts on the grid, each with its cell. *)
Definition written_by (variable : Var) (word : string)
  : list ((nat * nat) * ascii) :=
  k ← seq 0 (String.length word);
  match String.get k word with
  | Some c => [(cell_of variable k, c)]
  | None => []
  end.

Definition written (assignment : Assignment) : list ((nat * nat) * ascii) :=
  p ← map_to_list assignment; written_by p.1 p.2.

(** The assignment puts the letter [c] on the cell [(i, j)]. *)
Definition writes (assignment : Assignment) (i j : nat) (c : ascii) : Prop :=
  ∃ variable word k,
    assignment !! variable = Some word ∧ String.get k word = Some c ∧
    cell_of variable k = (i, j).

(** A list of writes [letters[i][j] = c], done in order. *)
Fixpoint write_all (ws : list ((nat * nat) * ascii)) (letters : Grid)
  : result Grid :=
  match ws with
  | [] => Ok letters
  | ((i, j), c) :: rest =>
      match set_cell letters i j c with
      | Ok letters' => write_all rest letters'
      | Raise e => Raise e
      | OutOfFuel => OutOfFuel
      end
  end.

(** The overlap table knows every cell two slots share. *)
Definition overlaps_cover (cw : Crossword) : Prop :=
  ∀ x y k l, x ∈ variables cw → y ∈ variables cw → x ≠ y →
    k < var_length x → l < var_length y → cell_of x k = cell_of y l →
    overlaps cw x y = Some (k, l).

(** The grid has [height] rows of [width] cells. *)
Definition grid_shape (height width : nat) (letters : Grid) : Prop :=
  length letters = height ∧ ∀ row, row ∈ letters → length row = width.
(** The letters of [cross_solution] on its 3 by 3 grid. *)
Definition cross_letters : Grid :=
  [[Some "C"%char; Some "A"%char; Some "T"%char];
   [None; Some "T"%char; None];
   [None; Some "E"%char; None]].

(** The crossing grid with a one-letter word in the vocabulary. *)
Definition short_puzzle : Crossword :=
  mkCrossword {[across3; down3]} {["CAT"; "ATE"; "A"]} cross_overlaps.

(** A store in which [down3] has no word left. *)
Definition empty_down_store : Domains :=
  {[across3 := {["CAT"; "DOG"]}; down3 := ∅]}.

(** ** The least-constraining-value count *)

(** The words of [dn] that [word_var] rules out across the overlap. *)
Definition conflicts (i_var i_neighbor : nat) (word_var : string)
    (dn : gset string) : nat :=
  size (filter (λ w, ¬ agree i_var i_neighbor word_var w) dn).

(** What [word_var] rules out in the domain of one neighbor. *)
Definition neighbor_conflicts (cw : Crossword) (D : Domains) (var : Var)
    (word_var : string) (neighbor : Var) : nat :=
  match overlaps cw var neighbor with
  | Some (i_var, i_neighbor) =>
      conflicts i_var i_neighbor word_var (D !!! neighbor)
  | None => 0
  end.

(** What [word_var] rules out in the domains of the unassigned neighbors of
    [var], all together. *)
Definition ruled_out (cw : Crossword) (D : Domains) (assignment : Assignment)
    (var : Var) (word_var : string) : nat :=
  sum_list (neighbor_conflicts cw D var word_var
              <$> filter (λ n, n ∉ dom assignment) (elements (neighbors cw var))).
(** ** The search on any puzzle *)

(** What a run of the search from the assignment [a] and the store [D]
    yields, whether the puzzle keeps its contract or not. *)
Definition run_ok (cw : Crossword) (a : Assignment) (D : Domains)
    (out : Domains * result (option Assignment)) : Prop :=
  shrinks out.1 D ∧
  ∀ s, out.2 = Ok (Some s) →
    a ⊆ s ∧ dom s ⊆ dom a ∪ dom D ∧ size s = size D ∧
    (s = a ∨ consistent cw s D = (D, Ok true)) ∧
    (∀ v w, s !! v = Some w →
       a !! v = Some w ∨ ∃ d, D !! v = Some d ∧ w ∈ d).

(** A puzzle without slots. *)
Definition no_slots : Crossword := mkCrossword ∅ {["CAT"; "DOG"]} (λ _ _, None).


(** The first word of [cross_solution] alone. *)
Definition cat_across : Assignment := {[across3 := "CAT"]}.

(** An assignment with more keys than [cross_store] has slots. *)
Definition crowded_assignment : Assignment :=
  {[across3 := "CAT"; down3 := "ATE"; row2 := "DOG"]}.

(** * Properties *)

Ltac unfold_M :=
  unfold bind, ret, lift, get_domain, remove_word in *.

(** ** Strings and small list facts *)

Lemma string_get_lt (w : string) (k : nat) :
  k < String.length w → ∃ c, String.get k w = Some c.
Proof.
  revert k. induction w as [|a w IH]; intros k Hk; simpl in *; [lia|].
  destruct k as [|k]; [by eexists|]. apply IH. lia.
Qed.

Lemma char_at_lt (w : string) (k : nat) :
  k < String.length w → ∃ c, char_at w k = Ok c.
Proof.
  intros [c Hc]%string_get_lt. exists c. unfold char_at. by rewrite Hc.
Qed.

Lemma size_list_to_set_le `{Countable A} (l : list A) :
  size (list_to_set l : gset A) ≤ length l.
Proof.
  induction l as [|a l IH].
  - by rewrite list_to_set_nil, size_empty.
  - rewrite list_to_set_cons. cbn [length].
    etrans; [apply Nat.eq_le_incl, size_union_alt|].
    rewrite size_singleton.
    assert (size (list_to_set l ∖ {[a]} : gset A) ≤ size (list_to_set l : gset A)).
    { apply subseteq_size. set_solver. }
    lia.
Qed.

(** ** Stores that lose words *)

Lemma shrinks_refl D : shrinks D D.
Proof. split; [done|]. intros v dv Hv. by exists dv. Qed.

Lemma shrinks_trans D1 D2 D3 : shrinks D1 D2 → shrinks D2 D3 → shrinks D1 D3.
Proof.
  intros [Hd1 H1] [Hd2 H2]. split; [congruence|].
  intros v dv1 Hv. destruct (H1 _ _ Hv) as (dv2 & Hv2 & ?).
  destruct (H2 _ _ Hv2) as (dv3 & Hv3 & ?). exists dv3. split; [done|set_solver].
Qed.

Lemma shrinks_insert D x dx dx' :
  D !! x = Some dx → dx' ⊆ dx → shrinks (<[x := dx']> D) D.
Proof.
  intros Hx Hsub. split.
  - rewrite dom_insert_L. apply elem_of_dom_2 in Hx. set_solver.
  - intros v dv'. destruct (decide (x = v)) as [<-|Hne].
    + rewrite lookup_insert_eq. intros [= <-]. by exists dx.
    + rewrite lookup_insert_ne by done. intros Hv. by exists dv'.
Qed.

Lemma indexable_shrinks cw D D' : shrinks D' D → indexable cw D → indexable cw D'.
Proof.
  intros [_ Hsub] Hidx x y i_x i_y dx dy Ho Hdx Hdy.
  destruct (Hsub _ _ Hdx) as (dx0 & Hdx0 & ?).
  destruct (Hsub _ _ Hdy) as (dy0 & Hdy0 & ?).
  destruct (Hidx _ _ _ _ _ _ Ho Hdx0 Hdy0) as [Hx Hy].
  split; intros w Hw; [apply Hx|apply Hy]; set_solver.
Qed.

Lemma node_consistent_shrinks D D' :
  shrinks D' D → node_consistent D → node_consistent D'.
Proof.
  intros [_ Hsub] Hnc v dv w Hv Hw. destruct (Hsub _ _ Hv) as (dv0 & Hv0 & ?).
  eapply Hnc; [done|set_solver].
Qed.

Section Creator_facts.

Context (cw : Crossword).

(** *** The inner loop of [revise] *)

Lemma find_match_true wx i_x i_y ws :
  find_match wx i_x i_y ws = Ok true → ∃ wy, wy ∈ ws ∧ agree i_x i_y wx wy.
Proof.
  induction ws as [|wy ws IH]; simpl; [done|].
  unfold char_at.
  destruct (String.get i_x wx) as [c|] eqn:Hx; [|done].
  destruct (String.get i_y wy) as [c'|] eqn:Hy; [|done].
  case_decide as Hc.
  - intros _. exists wy. split; [left|]. exists c. by subst.
  - intros (wy' & ? & ?)%IH. exists wy'. split; [by right|done].
Qed.

Lemma find_match_false wx i_x i_y ws :
  find_match wx i_x i_y ws = Ok false → ∀ wy, wy ∈ ws → ¬ agree i_x i_y wx wy.
Proof.
  induction ws as [|wy ws IH]; simpl; [by intros _ ? ?%elem_of_nil|].
  unfold char_at.
  destruct (String.get i_x wx) as [c|] eqn:Hx; [|done].
  destruct (String.get i_y wy) as [c'|] eqn:Hy; [|done].
  case_decide as Hc; [done|].
  intros Hf wy' [->|Hin]%elem_of_cons; [|by apply IH].
  intros (c0 & ? & ?). congruence.
Qed.

Lemma find_match_defined wx i_x i_y ws :
  (ws ≠ [] → i_x < String.length wx) →
  (∀ wy, wy ∈ ws → i_y < String.length wy) →
  ∃ b, find_match wx i_x i_y ws = Ok b.
Proof.
  intros Hx. induction ws as [|wy ws IH]; intros Hy; simpl; [by eexists|].
  destruct (char_at_lt wx i_x) as [c ->]; [by apply Hx|].
  destruct (char_at_lt wy i_y) as [c' ->]; [apply Hy; left|].
  case_decide; [by eexists|].
  apply IH; [intros _; by apply Hx|]. intros. apply Hy. by right.
Qed.

Lemma find_match_indexable D x y i_x i_y dx dy wx :
  indexable cw D → overlaps cw x y = Some (i_x, i_y) →
  D !! x = Some dx → D !! y = Some dy → wx ∈ dx →
  find_match wx i_x i_y (elements dy)
  = Ok (bool_decide (supported i_x i_y dy wx)).
Proof.
  intros Hidx Ho Hdx Hdy Hwx.
  destruct (Hidx _ _ _ _ _ _ Ho Hdx Hdy) as [Hx Hy].
  destruct (find_match_defined wx i_x i_y (elements dy)) as [b Hb].
  { intros _. by apply Hx. }
  { intros wy Hwy. apply Hy. by apply elem_of_elements. }
  rewrite Hb. f_equal. destruct b.
  - apply find_match_true in Hb as (wy & Hwy & Hag).
    symmetry. apply bool_decide_eq_true. exists wy.
    split; [by apply elem_of_elements|done].
  - symmetry. apply bool_decide_eq_false. intros (wy & Hwy & Hag).
    eapply find_match_false; [done| |done]. by apply elem_of_elements.
Qed.

(** *** [revise] *)

Lemma alter_difference_empty (x : Var) (D : Domains) :
  alter (λ ws, ws ∖ (∅ : gset string)) x D = D.
Proof.
  apply map_eq. intros v. rewrite lookup_alter. case_decide; [|done].
  subst. destruct (D !! v) as [dv|]; [|done]. cbn. f_equal. set_solver.
Qed.

Lemma alter_difference_twice (x : Var) (R1 R2 : gset string) (D : Domains) :
  alter (λ ws, ws ∖ R2) x (alter (λ ws, ws ∖ R1) x D)
  = alter (λ ws, ws ∖ (R1 ∪ R2)) x D.
Proof.
  apply map_eq. intros v. destruct (decide (x = v)) as [<-|Hne].
  - rewrite !lookup_alter_eq. destruct (D !! x) as [dv|]; [|done].
    cbn. f_equal. set_solver.
  - by rewrite !lookup_alter_ne.
Qed.

End Creator_facts.

Section Revise_facts.

Context (cw : Crossword).

(** What the outer loop of [revise] does to the store, [x] and [y] being
    different slots: it removes from [domain(x)] a set [R] of words of the
    list that found no match, and reports whether it removed any. *)
Lemma revise_loop_spec x y i_x i_y dy l :
  x ≠ y →
  ∀ flag D D' r,
    D !! y = Some dy →
    revise_loop x y i_x i_y l flag D = (D', r) →
    ∃ R : gset string,
      D' = alter (λ ws, ws ∖ R) x D ∧
      R ⊆ list_to_set l ∧
      (∀ w, w ∈ R → find_match w i_x i_y (elements dy) = Ok false) ∧
      r ≠ OutOfFuel ∧
      (∀ b, r = Ok b →
         b = flag || bool_decide (R ≠ ∅) ∧
         ∀ w, w ∈ l → w ∉ R → find_match w i_x i_y (elements dy) = Ok true) ∧
      ((∀ w, w ∈ l → ∃ b, find_match w i_x i_y (elements dy) = Ok b) →
       ∃ b, r = Ok b).
Proof.
  intros Hxy. induction l as [|w l IH]; intros flag D D' r Hdy Hrun.
  - cbn in Hrun. unfold_M. injection Hrun as <- <-. exists ∅.
    rewrite alter_difference_empty. split_and!; try done.
    + intros b [= <-]. split; [|by intros ? ?%elem_of_nil].
      rewrite bool_decide_eq_false_2 by (by intros []).
      by rewrite orb_false_r.
    + by eexists.
  - cbn [revise_loop] in Hrun. unfold bind at 1 in Hrun.
    unfold get_domain in Hrun. rewrite Hdy in Hrun.
    unfold bind at 1, lift in Hrun.
    destruct (find_match w i_x i_y (elements dy)) as [[]|e|] eqn:Hfm.
    + (* a match: [w] stays *)
      destruct (IH _ _ _ _ Hdy Hrun) as (R & -> & HR & Hfalse & Hfuel & Hok & Hdef).
      exists R. split_and!; try done.
      * clear -HR. set_solver.
      * intros b Hb. destruct (Hok _ Hb) as [-> Hk]. split; [done|].
        intros w' [->|Hin]%elem_of_cons HwR; [done|]. by apply Hk.
      * intros Hall. apply Hdef. intros w' Hw'. apply Hall. by right.
    + (* no match: [w] is removed *)
      unfold bind at 1, remove_word in Hrun.
      assert (alter (λ ws, ws ∖ {[w]}) x D !! y = Some dy) as Hdy'.
      { by rewrite lookup_alter_ne. }
      destruct (IH _ _ _ _ Hdy' Hrun) as (R & -> & HR & Hfalse & Hfuel & Hok & Hdef).
      exists ({[w]} ∪ R). rewrite alter_difference_twice.
      split_and!; try done.
      * clear -HR. set_solver.
      * intros w' [->%elem_of_singleton|Hin]%elem_of_union; [done|by apply Hfalse].
      * intros b Hb. destruct (Hok _ Hb) as [-> Hk]. split.
        { cbn. rewrite (bool_decide_eq_true_2 ({[w]} ∪ R ≠ ∅));
            [by rewrite orb_true_r|].
          apply (non_empty_inhabited_L w). clear. set_solver. }
        intros w' [->|Hin]%elem_of_cons HwR; [clear -HwR; set_solver|].
        apply Hk; [done|clear -HwR; set_solver].
      * intros Hall. apply Hdef. intros w' Hw'. apply Hall. by right.
    + (* [word[k]] raised *)
      injection Hrun as <- <-. exists ∅. rewrite alter_difference_empty.
      split_and!; try done.
      intros Hall. destruct (Hall w) as [b Hb]; [left|congruence].
    + injection Hrun as <- <-. exfalso.
      clear -Hfm. induction (elements dy) as [|wy ws IHws]; [done|].
      cbn in Hfm. unfold char_at in Hfm.
      destruct (String.get i_x w); [|done].
      destruct (String.get i_y wy); [|done]. by case_decide.
Qed.

(** A run of [revise x y] on two different slots of the store. *)
Lemma revise_spec x y i_x i_y dx dy D D' r :
  x ≠ y → overlaps cw x y = Some (i_x, i_y) →
  D !! x = Some dx → D !! y = Some dy →
  revise cw x y D = (D', r) →
  ∃ R : gset string,
    D' = <[x := dx ∖ R]> D ∧
    R ⊆ dx ∧
    (∀ w, w ∈ R → find_match w i_x i_y (elements dy) = Ok false) ∧
    r ≠ OutOfFuel ∧
    (∀ b, r = Ok b →
       b = bool_decide (R ≠ ∅) ∧
       ∀ w, w ∈ dx → w ∉ R → find_match w i_x i_y (elements dy) = Ok true) ∧
    ((∀ w, w ∈ dx → ∃ b, find_match w i_x i_y (elements dy) = Ok b) →
     ∃ b, r = Ok b).
Proof.
  intros Hxy Ho Hdx Hdy Hrun. unfold revise in Hrun. rewrite Ho in Hrun.
  unfold bind at 1, get_domain in Hrun. rewrite Hdx in Hrun.
  unfold bind at 1 in Hrun.
  destruct (revise_loop x y i_x i_y (elements dx) false D) as [D1 r1] eqn:Hloop.
  destruct (revise_loop_spec _ _ _ _ _ _ Hxy _ _ _ _ Hdy Hloop)
    as (R & -> & HR & Hfalse & Hfuel & Hok & Hdef).
  assert (alter (λ ws, ws ∖ R) x D = <[x := dx ∖ R]> D) as Halter.
  { apply map_eq. intros v. destruct (decide (x = v)) as [<-|Hne].
    - by rewrite lookup_alter_eq, lookup_insert_eq, Hdx.
    - by rewrite lookup_alter_ne, lookup_insert_ne. }
  rewrite Halter in Hrun.
  exists R. split_and!.
  - destruct r1; by injection Hrun as <- <-.
  - intros w Hw. apply HR in Hw. clear -Hw. set_solver.
  - done.
  - destruct r1; by injection Hrun as <- <-.
  - intros b Hb. destruct r1 as [b1| |]; injection Hrun as <- <-; [|done..].
    destruct (Hok b1 eq_refl) as [-> Hk]. cbn in Hb. injection Hb as <-.
    split; [by destruct (bool_decide (R ≠ ∅))|].
    intros w Hw. apply Hk. by apply elem_of_elements.
  - intros Hall. destruct Hdef as [b1 ->].
    { intros w Hw%elem_of_elements. by apply Hall. }
    injection Hrun as <- <-. by eexists.
Qed.

(** With no overlap, [revise] returns at once. *)
Lemma revise_no_overlap x y D :
  overlaps cw x y = None → revise cw x y D = (D, Ok false).
Proof. intros Ho. unfold revise. by rewrite Ho. Qed.

End Revise_facts.

Section Revise_claims.

Context (cw : Crossword).

Lemma revise_loop_frame x y i_x i_y l z :
  z ≠ x → ∀ flag D, (revise_loop x y i_x i_y l flag D).1 !! z = D !! z.
Proof.
  intros Hz. induction l as [|w l IH]; intros flag D; [done|].
  cbn [revise_loop]. unfold bind at 1, get_domain.
  destruct (D !! y) as [dy|]; [|done].
  unfold bind at 1, lift.
  destruct (find_match w i_x i_y (elements dy)) as [[]|e|]; [|..|done|done].
  - apply IH.
  - unfold bind at 1, remove_word. rewrite IH. by apply lookup_alter_ne.
Qed.

Lemma revise_keeps_other_domains x y z D :
  z ≠ x → (revise cw x y D).1 !! z = D !! z.
Proof.
  intros Hz. unfold revise. destruct (overlaps cw x y) as [[i_x i_y]|]; [|done].
  unfold bind at 1, get_domain. destruct (D !! x) as [dx|]; [|done].
  unfold bind at 1.
  pose proof (revise_loop_frame x y i_x i_y (elements dx) z Hz false D) as Hl.
  destruct (revise_loop x y i_x i_y (elements dx) false D) as [D1 [b| |]]; done.
Qed.

End Revise_claims.

(** C4. [revise(x, y)] on two different slots of the store: without an
    overlap it changes nothing and returns [False]; with the overlap
    [(i_x, i_y)] it leaves in [domain(x)] exactly the words that have a
    compatible word in [domain(y)], and it returns [True] iff a word was
    removed. The store is one on which [word[k]] is defined, as it is once
    node consistency has run. *)
Theorem revise_correct (cw : Crossword) (D : Domains) (x y : Var)
    (dx dy : gset string) :
  x ≠ y → D !! x = Some dx → D !! y = Some dy → indexable cw D →
  match overlaps cw x y with
  | None => revise cw x y D = (D, Ok false)
  | Some (i_x, i_y) =>
      ∃ dx' b,
        revise cw x y D = (<[x := dx']> D, Ok b) ∧
        (∀ wx, wx ∈ dx' ↔
           wx ∈ dx ∧ ∃ wy, wy ∈ dy ∧ agree i_x i_y wx wy) ∧
        (b = true ↔ ∃ wx, wx ∈ dx ∧ wx ∉ dx')
  end.
Proof.
  intros Hxy Hdx Hdy Hidx.
  destruct (overlaps cw x y) as [[i_x i_y]|] eqn:Ho;
    [|by apply revise_no_overlap].
  destruct (revise cw x y D) as [D' r] eqn:Hrun.
  destruct (revise_spec cw _ _ _ _ _ _ _ _ _ Hxy Ho Hdx Hdy Hrun)
    as (R & -> & HR & Hfalse & _ & Hok & Hdef).
  assert (∀ w, w ∈ dx → find_match w i_x i_y (elements dy)
                        = Ok (bool_decide (supported i_x i_y dy w))) as Hfm.
  { intros w Hw. by eapply find_match_indexable. }
  destruct Hdef as [b ->].
  { intros w Hw. rewrite Hfm by done. by eexists. }
  destruct (Hok b eq_refl) as [-> Htrue].
  exists (dx ∖ R), (bool_decide (R ≠ ∅)). split; [done|].
  assert (∀ w, w ∈ R → ¬ supported i_x i_y dy w) as HRno.
  { intros w Hw. specialize (Hfalse _ Hw). rewrite Hfm in Hfalse by auto.
    injection Hfalse as Hf. by apply bool_decide_eq_false in Hf. }
  assert (∀ w, w ∈ dx → w ∉ R → supported i_x i_y dy w) as HRyes.
  { intros w Hw HwR. specialize (Htrue _ Hw HwR). rewrite Hfm in Htrue by auto.
    injection Htrue as Hf. by apply bool_decide_eq_true in Hf. }
  split.
  - intros wx. rewrite elem_of_difference. split.
    + intros [Hin HnR]. split; [done|]. by apply HRyes.
    + intros [Hin Hs]. split; [done|]. intros HinR. by apply (HRno wx).
  - rewrite bool_decide_eq_true. split.
    + intros [w Hw]%set_choose_L. exists w. split; [by apply HR|].
      rewrite elem_of_difference. tauto.
    + intros (w & Hw & Hn) ->. apply Hn. rewrite elem_of_difference.
      split; [done|]. apply not_elem_of_empty.
Qed.

(** C10. A call [self.revise(x, y)] writes [domain(x)] at most: the domain of
    every other slot is what it was, and so are the puzzle's overlap relation
    and neighbor sets. This holds whatever the call produces. *)
Theorem revise_frame (self : CrosswordCreator) (x y z : Var) :
  z ≠ x →
  let self' := (call (λ cw, revise cw x y) self).1 in
  domains self' !! z = domains self !! z ∧
  overlaps (crossword self') = overlaps (crossword self) ∧
  neighbors (crossword self') = neighbors (crossword self).
Proof.
  intros Hz. unfold call.
  pose proof (revise_keeps_other_domains (crossword self) x y z (domains self) Hz) as Hf.
  destruct (revise (crossword self) x y (domains self)) as [D' r]. done.
Qed.

(** ** Arcs and the size of the store *)

Lemma elem_of_domain_keys (D : Domains) v : v ∈ domain_keys D ↔ v ∈ dom D.
Proof.
  unfold domain_keys. rewrite elem_of_dom, list_elem_of_fmap. split.
  - intros ([v' dv] & -> & Hin%elem_of_map_to_list). by eexists.
  - intros [dv Hdv]. exists (v, dv). split; [done|]. by apply elem_of_map_to_list.
Qed.

Lemma elem_of_all_arcs (D : Domains) x y :
  (x, y) ∈ all_arcs D ↔ x ∈ dom D ∧ y ∈ dom D ∧ x ≠ y.
Proof.
  unfold all_arcs. rewrite elem_of_list_to_set, list_elem_of_bind.
  setoid_rewrite list_elem_of_bind. setoid_rewrite elem_of_domain_keys. split.
  - intros (x' & (y' & Hin & Hy) & Hx). case_decide; [|by apply elem_of_nil in Hin].
    apply list_elem_of_singleton in Hin as [= -> ->]. done.
  - intros (Hx & Hy & Hne). exists x. split; [|done]. exists y. split; [|done].
    rewrite decide_True by done. by apply list_elem_of_singleton.
Qed.

Lemma elem_of_arcs_into (D : Domains) x a b :
  (a, b) ∈ arcs_into x D ↔ b = x ∧ a ∈ dom D ∧ x ≠ a.
Proof.
  unfold arcs_into. rewrite elem_of_list_to_set, list_elem_of_fmap.
  setoid_rewrite list_elem_of_filter. setoid_rewrite elem_of_domain_keys. split.
  - intros (a' & [= -> ->] & Hne & Hin). done.
  - intros (-> & Hin & Hne). by exists a.
Qed.

Lemma size_arcs_into (D : Domains) x : size (arcs_into x D) ≤ size D.
Proof.
  unfold arcs_into. etrans; [apply size_list_to_set_le|].
  rewrite length_fmap. etrans; [apply length_filter|].
  unfold domain_keys. by rewrite length_fmap, length_map_to_list.
Qed.

Lemma all_arcs_dom (D D' : Domains) : dom D' = dom D → all_arcs D' = all_arcs D.
Proof.
  intros Hd. apply set_eq. intros [x y]. by rewrite !elem_of_all_arcs, Hd.
Qed.

Lemma elem_of_store_pairs (D : Domains) v w :
  (v, w) ∈ store_pairs D ↔ ∃ dv, D !! v = Some dv ∧ w ∈ dv.
Proof.
  unfold store_pairs. rewrite elem_of_list_to_set, list_elem_of_bind. split.
  - intros ([v' dv] & Hin & Hm%elem_of_map_to_list). cbn in Hin.
    apply list_elem_of_fmap in Hin as (w' & [= -> ->] & Hw%elem_of_elements).
    by exists dv.
  - intros (dv & Hdv & Hw). exists (v, dv). split; [|by apply elem_of_map_to_list].
    cbn. apply list_elem_of_fmap. exists w. split; [done|by apply elem_of_elements].
Qed.

Lemma store_pairs_shrinks (D D' : Domains) :
  shrinks D' D → store_pairs D' ⊆ store_pairs D.
Proof.
  intros [_ Hsub] [v w]. rewrite !elem_of_store_pairs.
  intros (dv' & Hdv' & Hw). destruct (Hsub _ _ Hdv') as (dv & Hdv & Hs).
  exists dv. split; [done|]. by apply Hs.
Qed.

Lemma store_pairs_remove (D : Domains) x dx R :
  D !! x = Some dx → R ⊆ dx → R ≠ ∅ →
  size (store_pairs (<[x := dx ∖ R]> D)) < size (store_pairs D).
Proof.
  intros Hdx HR Hne. apply subset_size.
  apply set_choose_L in Hne as [w Hw]. split.
  - apply store_pairs_shrinks. apply (shrinks_insert _ _ dx); [done|].
    clear. set_solver.
  - intros Hsub. specialize (Hsub (x, w)).
    rewrite !elem_of_store_pairs in Hsub. destruct Hsub as (dv & Hdv & Hin).
    { exists dx. split; [done|]. by apply HR. }
    rewrite lookup_insert_eq in Hdv. injection Hdv as <-.
    apply elem_of_difference in Hin as [_ Hn]. done.
Qed.

Lemma size_insert_same (D : Domains) x dx dx' :
  D !! x = Some dx → size (<[x := dx']> D) = size D.
Proof.
  intros Hdx. rewrite <-!(size_dom (D:=gset Var)), dom_insert_L.
  f_equal. apply elem_of_dom_2 in Hdx. clear -Hdx. set_solver.
Qed.

Lemma shrinks_size (D D' : Domains) : shrinks D' D → size D' = size D.
Proof. intros [Hd _]. by rewrite <-!(size_dom (D:=gset Var)), Hd. Qed.

Section AC3_facts.

Context (cw : Crossword).

(** A run of [revise] on an arc of the store: [R] is the set of words it
    removed from [domain(x)]. *)
Lemma revise_arc D x y D1 r :
  (x, y) ∈ all_arcs D → revise cw x y D = (D1, r) →
  ∃ dx dy R,
    D !! x = Some dx ∧ D !! y = Some dy ∧ R ⊆ dx ∧
    D1 = <[x := dx ∖ R]> D ∧
    r ≠ OutOfFuel ∧
    (∀ b, r = Ok b → b = bool_decide (R ≠ ∅)) ∧
    (∀ w, w ∈ R → ∃ i_x i_y, overlaps cw x y = Some (i_x, i_y) ∧
                   find_match w i_x i_y (elements dy) = Ok false) ∧
    (∀ b i_x i_y w, r = Ok b → overlaps cw x y = Some (i_x, i_y) →
       w ∈ dx → w ∉ R → find_match w i_x i_y (elements dy) = Ok true) ∧
    ((∀ i_x i_y w, overlaps cw x y = Some (i_x, i_y) → w ∈ dx →
        ∃ b, find_match w i_x i_y (elements dy) = Ok b) →
     ∃ b, r = Ok b).
Proof.
  intros (Hx & Hy & Hxy)%elem_of_all_arcs Hrun.
  apply elem_of_dom in Hx as [dx Hdx]. apply elem_of_dom in Hy as [dy Hdy].
  exists dx, dy.
  destruct (overlaps cw x y) as [[i_x i_y]|] eqn:Ho.
  - destruct (revise_spec cw _ _ _ _ _ _ _ _ _ Hxy Ho Hdx Hdy Hrun)
      as (R & -> & HR & Hfalse & Hfuel & Hok & Hdef).
    exists R. split_and!; try done.
    + intros b Hb. by destruct (Hok _ Hb).
    + intros w Hw. exists i_x, i_y. split; [done|]. by apply Hfalse.
    + intros b i_x' i_y' w Hb [= <- <-]. destruct (Hok _ Hb) as [_ Hk]. apply Hk.
    + intros Hall. apply Hdef. intros w Hw. by apply Hall.
  - rewrite revise_no_overlap in Hrun by done. injection Hrun as <- <-.
    exists ∅. split_and!; try done.
    + rewrite difference_empty_L. by rewrite insert_id.
    + intros b [= <-]. symmetry. apply bool_decide_eq_false. by intros [].
    + by eexists.
Qed.

(** The first arc of a set's iteration order is in the set. *)
Lemma elements_head_in (arcs : gset Arc) a rest :
  elements arcs = a :: rest → a ∈ arcs.
Proof. intros He. apply elem_of_elements. rewrite He. left. Qed.

(** An invariant rule for the loop of [ac3]: [I] holds of the pending arcs
    and the store before every iteration, [Q] of the store and the outcome
    when the loop is left. *)
Lemma ac3_loop_rule (I : gset Arc → Domains → Prop)
    (Q : Domains → result bool → Prop) :
  (∀ D, I ∅ D → Q D (Ok true)) →
  (∀ arcs D x y D1 r,
     I arcs D → (x, y) ∈ arcs → revise cw x y D = (D1, r) →
     match r with
     | Ok true =>
         match D1 !! x with
         | Some dx =>
             if decide (size dx = 0) then Q D1 (Ok false)
             else I (arcs_into x D1 ∪ arcs ∖ {[(x, y)]}) D1
         | None => Q D1 (Raise KeyError)
         end
     | Ok false => I (arcs ∖ {[(x, y)]}) D1
     | Raise e => Q D1 (Raise e)
     | OutOfFuel => True
     end) →
  ∀ fuel arcs D D' r,
    I arcs D → ac3_loop cw fuel arcs D = (D', r) → r ≠ OutOfFuel → Q D' r.
Proof.
  intros Hexit Hstep. induction fuel as [|fuel IH]; intros arcs D D' r HI Hrun Hr.
  - cbn in Hrun. destruct (elements arcs) as [|[x y] rest] eqn:He.
    + apply elements_empty_iff, leibniz_equiv in He. subst arcs.
      injection Hrun as <- <-. by apply Hexit.
    + injection Hrun as <- <-. done.
  - cbn [ac3_loop] in Hrun. destruct (elements arcs) as [|[x y] rest] eqn:He.
    + apply elements_empty_iff, leibniz_equiv in He. subst arcs.
      injection Hrun as <- <-. by apply Hexit.
    + apply elements_head_in in He. unfold bind at 1 in Hrun.
      destruct (revise cw x y D) as [D1 r1] eqn:Hrev.
      specialize (Hstep _ _ _ _ _ _ HI He Hrev).
      destruct r1 as [[]|e|].
      * unfold bind at 1, get_domain in Hrun.
        destruct (D1 !! x) as [dx|]; [|by injection Hrun as <- <-].
        case_decide; [by injection Hrun as <- <-|].
        eapply IH; [exact Hstep|exact Hrun|done].
      * eapply IH; [exact Hstep|exact Hrun|done].
      * by injection Hrun as <- <-.
      * by injection Hrun as <- <-.
Qed.

(** The budget [ac3_fuel] is enough. *)
Lemma ac3_loop_terminates fuel :
  ∀ arcs D, arcs ⊆ all_arcs D → ac3_fuel arcs D ≤ fuel →
            (ac3_loop cw fuel arcs D).2 ≠ OutOfFuel.
Proof.
  unfold ac3_fuel.
  induction fuel as [|fuel IH]; intros arcs D Harcs Hfuel;
    cbn [ac3_loop]; destruct (elements arcs) as [|[x y] rest] eqn:He; try done.
  - apply elements_head_in in He.
    assert (size arcs ≠ 0); [|lia].
    intros Hs%size_empty_inv%leibniz_equiv. subst arcs. by apply elem_of_empty in He.
  - apply elements_head_in in He. unfold bind at 1.
    destruct (revise cw x y D) as [D1 r1] eqn:Hrev.
    destruct (revise_arc _ _ _ _ _ (Harcs _ He) Hrev)
      as (dx & dy & R & Hdx & Hdy & HR & -> & Hfuel1 & Hb & _).
    assert (shrinks (<[x := dx ∖ R]> D) D) as Hsh.
    { apply (shrinks_insert _ _ dx); [done|]. clear. set_solver. }
    assert (size (arcs ∖ {[(x, y)]}) + 1 = size arcs) as Hsz.
    { rewrite size_difference by (clear -He; set_solver).
      rewrite size_singleton.
      assert (size arcs ≠ 0); [|lia].
      intros Hs%size_empty_inv%leibniz_equiv. subst arcs.
      by apply elem_of_empty in He. }
    destruct r1 as [[]|e|]; [| |done|done].
    + (* a word was removed *)
      unfold bind at 1, get_domain. rewrite lookup_insert_eq.
      destruct (decide (size (dx ∖ R) = 0)); [done|].
      assert (R ≠ ∅) as HRne.
      { specialize (Hb _ eq_refl). symmetry in Hb.
        by apply bool_decide_eq_true in Hb. }
      pose proof (store_pairs_remove D x dx R Hdx HR HRne) as Hlt.
      pose proof (size_arcs_into (<[x := dx ∖ R]> D) x) as Hinto.
      rewrite (size_insert_same _ _ dx) in Hinto by done.
      apply IH.
      * rewrite (all_arcs_dom _ _ (proj1 Hsh)).
        intros [a b] [Hin|Hin]%elem_of_union.
        -- apply elem_of_arcs_into in Hin as (-> & Ha & Hne).
           rewrite (proj1 Hsh) in Ha.
           apply elem_of_all_arcs. split_and!; [done| |done].
           by eapply elem_of_dom_2.
        -- apply Harcs. clear -Hin. set_solver.
      * rewrite (size_insert_same _ _ dx) by done.
        pose proof (size_union_alt (arcs_into x (<[x := dx ∖ R]> D))
                      (arcs ∖ {[(x, y)]})) as Hu.
        assert (size ((arcs ∖ {[(x, y)]}) ∖ arcs_into x (<[x := dx ∖ R]> D))
                ≤ size (arcs ∖ {[(x, y)]})) as Hd.
        { apply subseteq_size. clear. set_solver. }
        nia.
    + (* nothing was removed *)
      apply IH.
      * rewrite (all_arcs_dom _ _ (proj1 Hsh)).
        intros a Hin. apply Harcs. clear -Hin. set_solver.
      * rewrite (shrinks_size _ _ Hsh).
        pose proof (subseteq_size _ _ (store_pairs_shrinks _ _ Hsh)). nia.
Qed.

End AC3_facts.

Section AC3_claims.

Context (cw : Crossword).

Lemma next_arcs_subset (D : Domains) (x y : Var) (dx dx' : gset string)
    (arcs : gset Arc) :
  D !! x = Some dx → arcs ⊆ all_arcs D →
  arcs_into x (<[x := dx']> D) ∪ arcs ∖ {[(x, y)]} ⊆ all_arcs (<[x := dx']> D).
Proof.
  intros Hdx Harcs.
  assert (dom (<[x := dx']> D) = dom D) as Hd.
  { rewrite dom_insert_L. apply elem_of_dom_2 in Hdx. clear -Hdx. set_solver. }
  rewrite (all_arcs_dom _ _ Hd).
  intros [a b] [Hin|Hin]%elem_of_union.
  - apply elem_of_arcs_into in Hin as (-> & Ha & Hne). rewrite Hd in Ha.
    apply elem_of_all_arcs. split_and!; [done| |done]. by eapply elem_of_dom_2.
  - apply Harcs. clear -Hin. set_solver.
Qed.

Lemma rest_arcs_subset (D : Domains) (x : Var) (dx dx' : gset string) (a : Arc)
    (arcs : gset Arc) :
  D !! x = Some dx → arcs ⊆ all_arcs D →
  arcs ∖ {[a]} ⊆ all_arcs (<[x := dx']> D).
Proof.
  intros Hdx Harcs.
  assert (dom (<[x := dx']> D) = dom D) as Hd.
  { rewrite dom_insert_L. apply elem_of_dom_2 in Hdx. clear -Hdx. set_solver. }
  rewrite (all_arcs_dom _ _ Hd). intros b Hin. apply Harcs. clear -Hin. set_solver.
Qed.

Lemma within_insert S (D : Domains) (x : Var) (dx R : gset string) :
  D !! x = Some dx → within S D → (∀ w, w ∈ R → ¬ S x w) →
  within S (<[x := dx ∖ R]> D).
Proof.
  intros Hdx HS HR v w Hvw. destruct (HS _ _ Hvw) as (dv & Hdv & Hw).
  destruct (decide (x = v)) as [<-|Hne].
  - rewrite lookup_insert_eq. eexists. split; [done|].
    assert (dv = dx) as -> by congruence.
    apply elem_of_difference. split; [done|]. intros HwR. by apply (HR w).
  - rewrite lookup_insert_ne by done. by exists dv.
Qed.

(** The loop of [ac3]: it takes words away only, keeps every word of an
    arc-closed family and reports [False] only with an empty domain; on a
    store where [word[k]] is defined it ends without an exception. *)
Lemma ac3_loop_inv (D0 : Domains) (S : Var → string → Prop) (fuel : nat)
    (arcs : gset Arc) (D D' : Domains) (r : result bool) :
  arc_closed cw (dom D0) S →
  arcs ⊆ all_arcs D → shrinks D D0 → within S D →
  ac3_loop cw fuel arcs D = (D', r) → r ≠ OutOfFuel →
  shrinks D' D0 ∧ within S D' ∧
  (r = Ok false → ∃ v, D' !! v = Some ∅) ∧
  (indexable cw D0 → ∃ b, r = Ok b).
Proof.
  intros Hclosed Harcs Hsh HS Hrun Hr.
  refine (ac3_loop_rule cw
    (λ arcs D, arcs ⊆ all_arcs D ∧ shrinks D D0 ∧ within S D)
    (λ D' r, shrinks D' D0 ∧ within S D' ∧
             (r = Ok false → ∃ v, D' !! v = Some ∅) ∧
             (indexable cw D0 → ∃ b, r = Ok b))
    _ _ fuel arcs D D' r _ Hrun Hr); [| |done].
  - intros D1 (_ & ? & ?). split_and!; [done..|]. by exists true.
  - clear dependent arcs D D' r.
    intros arcs D x y D1 r (Harcs & Hsh & HS) Hin Hrev.
    destruct (revise_arc cw _ _ _ _ _ (Harcs _ Hin) Hrev)
      as (dx & dy & R & Hdx & Hdy & HR & -> & Hfuel & Hb & Hfalse & _ & Hdef).
    assert (shrinks (<[x := dx ∖ R]> D) D) as Hsh1.
    { apply (shrinks_insert _ _ dx); [done|]. clear. set_solver. }
    assert (shrinks (<[x := dx ∖ R]> D) D0) as Hsh0 by by eapply shrinks_trans.
    assert (within S (<[x := dx ∖ R]> D)) as HS1.
    { apply within_insert; [done..|]. intros w Hw HSw.
      destruct (Hfalse _ Hw) as (i_x & i_y & Ho & Hfm).
      destruct (proj1 (elem_of_all_arcs _ _ _) (Harcs _ Hin)) as (Hx & Hy & Hxy).
      rewrite (proj1 Hsh) in Hx, Hy.
      destruct (Hclosed _ _ _ _ _ Hx Hy Hxy Ho HSw) as (wy & HSy & Hag).
      destruct (HS _ _ HSy) as (dy' & Hdy' & Hwy).
      assert (dy' = dy) as -> by congruence.
      eapply find_match_false; [done| |done]. by apply elem_of_elements. }
    destruct r as [[]|e|]; [| | |done].
    + rewrite lookup_insert_eq. destruct (decide (size (dx ∖ R) = 0)) as [Hz|Hz].
      * split_and!; [done..| |by eexists]. intros _.
        exists x. rewrite lookup_insert_eq.
        by apply size_empty_inv, leibniz_equiv in Hz as ->.
      * split_and!; [|done..]. by eapply next_arcs_subset.
    + split_and!; [|done..]. by eapply rest_arcs_subset.
    + split_and!; [done..|]. intros Hidx. apply Hdef.
      intros i_x i_y w Ho Hw.
      erewrite (find_match_indexable cw D) by
        (done || by apply (indexable_shrinks _ D0)).
      by eexists.
Qed.

Lemma ac3_inv (S : Var → string → Prop) (arcs : option (gset Arc))
    (D : Domains) :
  arcs_of_store arcs D → arc_closed cw (dom D) S → within S D →
  ∃ D' r, ac3 cw arcs D = (D', r) ∧ r ≠ OutOfFuel ∧
          shrinks D' D ∧ within S D' ∧
          (r = Ok false → ∃ v, D' !! v = Some ∅) ∧
          (indexable cw D → ∃ b, r = Ok b).
Proof.
  intros Harcs Hclosed HS. unfold ac3.
  set (A := match arcs with None => all_arcs D | Some A => A end).
  assert (A ⊆ all_arcs D) as HA.
  { subst A. destruct arcs as [A|]; [by apply Harcs|done]. }
  destruct (ac3_loop cw (ac3_fuel A D) A D) as [D' r] eqn:Hrun.
  pose proof (ac3_loop_terminates cw (ac3_fuel A D) A D HA (le_n _)) as Hr.
  rewrite Hrun in Hr.
  destruct (ac3_loop_inv D S _ _ _ _ _ Hclosed HA (shrinks_refl D) HS Hrun Hr)
    as (Hsh & HS' & Hf & Hok).
  by exists D', r.
Qed.

End AC3_claims.

(** C5. A call of [ac3], with the default arc set or with any set of arcs of
    the store, ends. No domain has a word it did not have before, and if the
    call returns [False] some domain is empty. On a store where [word[k]] is
    defined, as it is once node consistency has run, the call returns a
    value, and that value is [True] if no domain is empty. *)
Theorem ac3_correct (cw : Crossword) (D : Domains) (arcs : option (gset Arc)) :
  arcs_of_store arcs D →
  ∃ D' r,
    ac3 cw arcs D = (D', r) ∧ r ≠ OutOfFuel ∧
    (dom D' = dom D ∧
     ∀ v dv', D' !! v = Some dv' → ∃ dv, D !! v = Some dv ∧ dv' ⊆ dv) ∧
    (r = Ok false → ∃ v, D' !! v = Some ∅) ∧
    (indexable cw D →
     ∃ b, r = Ok b ∧ ((∀ v, D' !! v ≠ Some ∅) → b = true)).
Proof.
  intros Harcs.
  destruct (ac3_inv cw (λ _ _, False) arcs D Harcs)
    as (D' & r & Hrun & Hfuel & [Hd Hsub] & _ & Hfalse & Hok).
  { by intros x y i_x i_y wx _ _ _ _ []. }
  { by intros v w []. }
  exists D', r. split_and!; [done..|].
  intros Hidx. destruct (Hok Hidx) as [b ->]. exists b. split; [done|].
  intros Hne. destruct b; [done|]. destruct Hfalse as [v Hv]; [done|].
  by destruct (Hne v).
Qed.

Section AC3_fixpoint.

Context (cw : Crossword).

Lemma size_pos_elem `{Countable A} (X : gset A) (a : A) : a ∈ X → size X ≠ 0.
Proof.
  intros Ha Hs%size_empty_inv%leibniz_equiv. subst X. by apply elem_of_empty in Ha.
Qed.

(** When the loop of [ac3] returns [True], every arc of the store is
    consistent: the arcs that are not pending are consistent throughout. *)
Lemma ac3_loop_fixpoint (fuel : nat) (arcs : gset Arc) (D D' : Domains) :
  arcs ⊆ all_arcs D →
  (∀ x y, (x, y) ∈ all_arcs D → (x, y) ∉ arcs → arc_consistent cw D x y) →
  ac3_loop cw fuel arcs D = (D', Ok true) →
  ∀ x y, (x, y) ∈ all_arcs D' → arc_consistent cw D' x y.
Proof.
  intros Harcs Hcons Hrun.
  refine (ac3_loop_rule cw
    (λ arcs D, arcs ⊆ all_arcs D ∧
               ∀ x y, (x, y) ∈ all_arcs D → (x, y) ∉ arcs → arc_consistent cw D x y)
    (λ D' r, r = Ok true → ∀ x y, (x, y) ∈ all_arcs D' → arc_consistent cw D' x y)
    _ _ fuel arcs D D' (Ok true) _ Hrun _ eq_refl); [| |done|done].
  - intros D1 [_ H1] _ x y Hxy. apply H1; [done|]. apply not_elem_of_empty.
  - clear dependent arcs D D'.
    intros arcs D x y D1 r [Harcs Hcons] Hin Hrev.
    destruct (revise_arc cw _ _ _ _ _ (Harcs _ Hin) Hrev)
      as (dx & dy & R & Hdx & Hdy & HR & -> & Hfuel & Hb & Hfalse & Htrue & _).
    destruct (proj1 (elem_of_all_arcs _ _ _) (Harcs _ Hin)) as (Hx & Hy & Hxy).
    assert (dom (<[x := dx ∖ R]> D) = dom D) as Hd.
    { rewrite dom_insert_L. clear -Hx. set_solver. }
    destruct r as [[]|e|]; [| |done|done].
    + rewrite lookup_insert_eq. destruct (decide (size (dx ∖ R) = 0)); [done|].
      split; [by eapply next_arcs_subset|].
      intros a b Hab Hnot. rewrite (all_arcs_dom _ _ Hd) in Hab.
      destruct (proj1 (elem_of_all_arcs _ _ _) Hab) as (Ha & Hb' & Hne).
      assert (b ≠ x) as Hbx.
      { intros ->. apply Hnot, elem_of_union_l, elem_of_arcs_into.
        by rewrite Hd. }
      intros i_x i_y da db wx Ho Hda Hdb Hwx.
      rewrite lookup_insert_ne in Hdb by done.
      destruct (decide ((a, b) = (x, y))) as [[= -> ->]|Hneq].
      * rewrite lookup_insert_eq in Hda. injection Hda as <-.
        assert (db = dy) as -> by congruence.
        apply elem_of_difference in Hwx as [Hwx HwR]. by eapply Htrue.
      * assert ((a, b) ∉ arcs) as Hnin.
        { intros Hin'. apply Hnot, elem_of_union_r, elem_of_difference.
          split; [done|]. by intros ?%elem_of_singleton. }
        destruct (decide (a = x)) as [->|Hax].
        -- rewrite lookup_insert_eq in Hda. injection Hda as <-.
           apply elem_of_difference in Hwx as [Hwx _].
           by eapply (Hcons x b Hab Hnin).
        -- rewrite lookup_insert_ne in Hda by done.
           by eapply (Hcons a b Hab Hnin).
    + assert (R = ∅) as ->.
      { specialize (Hb _ eq_refl). symmetry in Hb.
        apply bool_decide_eq_false in Hb. by apply dec_stable in Hb. }
      rewrite difference_empty_L, insert_id by done.
      rewrite difference_empty_L, insert_id in Hrev by done.
      split; [intros a Ha; apply Harcs; clear -Ha; set_solver|].
      intros a b Hab Hnot.
      destruct (decide ((a, b) = (x, y))) as [[= -> ->]|Hneq].
      * intros i_x i_y da db wx Ho Hda Hdb Hwx.
        assert (da = dx) as -> by congruence.
        assert (db = dy) as -> by congruence.
        eapply Htrue; [done..|]. apply not_elem_of_empty.
      * apply Hcons; [done|]. intros Hin'. apply Hnot, elem_of_difference.
        split; [done|]. by intros ?%elem_of_singleton.
Qed.

(** On a store whose pending arcs are all consistent the loop changes
    nothing and returns [True]. *)
Lemma ac3_loop_stable (fuel : nat) :
  ∀ (arcs : gset Arc) (D : Domains),
    arcs ⊆ all_arcs D →
    (∀ x y, (x, y) ∈ arcs → arc_consistent cw D x y) →
    size arcs ≤ fuel →
    ac3_loop cw fuel arcs D = (D, Ok true).
Proof.
  induction fuel as [|fuel IH]; intros arcs D Harcs Hcons Hsize;
    cbn [ac3_loop]; destruct (elements arcs) as [|[x y] rest] eqn:He; try done.
  - apply elements_head_in, size_pos_elem in He. lia.
  - apply elements_head_in in He. unfold bind at 1.
    destruct (revise cw x y D) as [D1 r] eqn:Hrev.
    destruct (revise_arc cw _ _ _ _ _ (Harcs _ He) Hrev)
      as (dx & dy & R & Hdx & Hdy & HR & -> & Hfuel & Hb & Hfalse & _ & Hdef).
    assert (R = ∅) as ->.
    { apply set_eq. intros w. split; [|by intros ?%elem_of_empty].
      intros Hw. destruct (Hfalse _ Hw) as (i_x & i_y & Ho & Hfm).
      rewrite (Hcons x y He i_x i_y dx dy w Ho Hdx Hdy (HR _ Hw)) in Hfm. done. }
    destruct Hdef as [b ->].
    { intros i_x i_y w Ho Hw. exists true. by eapply (Hcons x y He). }
    rewrite (Hb b eq_refl).
    rewrite bool_decide_eq_false_2 by (by intros []).
    rewrite difference_empty_L, insert_id by done.
    apply IH.
    + intros a Ha. apply Harcs. clear -Ha. set_solver.
    + intros a c Hac. apply Hcons. clear -Hac. set_solver.
    + pose proof (size_pos_elem _ _ He).
      rewrite size_difference, size_singleton by (clear -He; set_solver). lia.
Qed.

End AC3_fixpoint.

(** C6. Arc consistency is idempotent at its fixpoint: when [ac3], called
    with the default arc set, returns [True] and leaves the store [D1], a
    second call from [D1] returns [True] and leaves [D1] as it is. *)
Theorem ac3_idempotent (cw : Crossword) (D D1 : Domains) :
  ac3 cw None D = (D1, Ok true) →
  ac3 cw None D1 = (D1, Ok true).
Proof.
  unfold ac3. intros Hrun.
  apply ac3_loop_stable; [done| |unfold ac3_fuel; lia].
  intros x y Hxy.
  eapply (ac3_loop_fixpoint cw _ (all_arcs D) D D1); [done| |done|done].
  intros a b Hab Hnot. done.
Qed.

(** ** The assignment validator *)

Lemma agree_swap i_x i_y wx wy : agree i_x i_y wx wy → agree i_y i_x wy wx.
Proof. intros (c & ? & ?). by exists c. Qed.

Lemma size_list_to_set_NoDup `{Countable A} (l : list A) :
  size (list_to_set l : gset A) = length l ↔ NoDup l.
Proof.
  split; [|apply size_list_to_set].
  induction l as [|a l IH]; [constructor|].
  rewrite list_to_set_cons. cbn [length]. intros Hs.
  pose proof (size_list_to_set_le l) as Hle.
  destruct (decide (a ∈ l)) as [Hin|Hnin].
  - exfalso. assert ({[a]} ∪ list_to_set l = (list_to_set l : gset A)) as Heq.
    { apply (elem_of_list_to_set (C:=gset A)) in Hin. clear -Hin. set_solver. }
    rewrite Heq in Hs. lia.
  - constructor; [done|]. apply IH.
    rewrite size_union, size_singleton in Hs; [lia|].
    apply disjoint_singleton_l. by rewrite elem_of_list_to_set.
Qed.

Lemma NoDup_fmap_inj_on {A B} (f : A → B) (l : list A) :
  NoDup (f <$> l) → ∀ x y, x ∈ l → y ∈ l → f x = f y → x = y.
Proof.
  induction l as [|a l IH]; [by intros _ ? ? ?%elem_of_nil|].
  rewrite fmap_cons, NoDup_cons. intros [Hnin Hnd] x y.
  intros [->|Hx]%elem_of_cons [->|Hy]%elem_of_cons Hf; [done| | |by apply IH].
  - destruct Hnin. rewrite Hf. by apply list_elem_of_fmap_2.
  - destruct Hnin. rewrite <-Hf. by apply list_elem_of_fmap_2.
Qed.

(** The first test of [consistent]: as many distinct words as entries. *)
Lemma distinct_values_iff (a : Assignment) :
  size (list_to_set (map_to_list a).*2 : gset string) = size a ↔
  ∀ x y wx wy, x ≠ y → a !! x = Some wx → a !! y = Some wy → wx ≠ wy.
Proof.
  rewrite <-(length_map_to_list a), <-(length_fmap snd (map_to_list a)).
  rewrite size_list_to_set_NoDup. split.
  - intros Hnd x y wx wy Hxy Hx%elem_of_map_to_list Hy%elem_of_map_to_list ->.
    apply Hxy. by injection (NoDup_fmap_inj_on _ _ Hnd _ _ Hx Hy eq_refl).
  - intros Hdist. apply NoDup_fmap_2_strong; [|apply NoDup_map_to_list].
    intros [x wx] [y wy] Hx%elem_of_map_to_list Hy%elem_of_map_to_list Heq.
    cbn in Heq. subst wy. destruct (decide (x = y)) as [->|Hne]; [done|].
    by destruct (Hdist x y wx wx Hne).
Qed.

Lemma check_lengths_iff (items : list (Var * string)) :
  check_lengths items = true ↔
  ∀ v w, (v, w) ∈ items → String.length w = var_length v.
Proof.
  induction items as [|[v w] items IH]; cbn [check_lengths].
  - split; [by intros _ ? ? ?%elem_of_nil|done].
  - case_decide as Hl.
    + split; [done|]. intros Hall. destruct Hl. apply Hall. left.
    + rewrite IH. split.
      * intros Hall v' w' [[= -> ->]|Hin]%elem_of_cons; [|by apply Hall].
        done.
      * intros Hall v' w' Hin. apply Hall. by right.
Qed.

Lemma elem_of_combinations2 {A} (l : list A) x y :
  (x, y) ∈ combinations2 l → x ∈ l ∧ y ∈ l.
Proof.
  induction l as [|a l IH]; cbn [combinations2]; [by intros ?%elem_of_nil|].
  intros [Hin|Hin]%elem_of_app.
  - apply list_elem_of_fmap in Hin as (y' & [= -> ->] & Hy).
    split; [left|by right].
  - destruct (IH Hin). split; by right.
Qed.

Lemma combinations2_NoDup_ne {A} (l : list A) x y :
  NoDup l → (x, y) ∈ combinations2 l → x ≠ y.
Proof.
  induction l as [|a l IH]; cbn [combinations2]; [by intros _ ?%elem_of_nil|].
  rewrite NoDup_cons. intros [Hnin Hnd] [Hin|Hin]%elem_of_app.
  - apply list_elem_of_fmap in Hin as (y' & [= -> ->] & Hy). by intros ->.
  - by apply IH.
Qed.

Lemma combinations2_total {A} (l : list A) x y :
  x ∈ l → y ∈ l → x ≠ y → (x, y) ∈ combinations2 l ∨ (y, x) ∈ combinations2 l.
Proof.
  induction l as [|a l IH]; [by intros ?%elem_of_nil|].
  cbn [combinations2]. setoid_rewrite elem_of_app.
  intros [->|Hx]%elem_of_cons [->|Hy]%elem_of_cons Hne; [done| | |].
  - left. left. by apply list_elem_of_fmap_2.
  - right. left. by apply list_elem_of_fmap_2.
  - destruct (IH Hx Hy Hne); [left|right]; by right.
Qed.

Section Validator.

Context (cw : Crossword).

(** The loop over the pairs of assigned slots, when every word has the
    length of its slot and the offsets are inside the slots. *)
Lemma check_overlaps_spec (a : Assignment) (pairs : list (Var * Var)) :
  overlaps_in_range cw →
  (∀ x wx, a !! x = Some wx → String.length wx = var_length x) →
  (∀ x y, (x, y) ∈ pairs →
          x ∈ variables cw ∧ y ∈ variables cw ∧ x ∈ dom a ∧ y ∈ dom a) →
  ∃ b, check_overlaps cw a pairs = Ok b ∧
       (b = true ↔
        ∀ x y wx wy i_x i_y, (x, y) ∈ pairs →
          a !! x = Some wx → a !! y = Some wy →
          overlaps cw x y = Some (i_x, i_y) → agree i_x i_y wx wy).
Proof.
  intros Hrange Hlen. induction pairs as [|[x y] pairs IH]; intros Hpairs.
  - exists true. split; [done|]. split; [|done].
    by intros _ ? ? ? ? ? ? ?%elem_of_nil.
  - destruct IH as (b & Hb & Hiff).
    { intros x' y' Hin. apply Hpairs. by right. }
    destruct (Hpairs x y) as (Hx & Hy & [wx Hwx]%elem_of_dom & [wy Hwy]%elem_of_dom);
      [left|].
    cbn [check_overlaps].
    destruct (overlaps cw x y) as [[i_x i_y]|] eqn:Ho.
    + destruct (Hrange _ _ _ _ Hx Hy Ho) as [Hix Hiy].
      unfold lookup_word. rewrite Hwx, Hwy. unfold char_at.
      destruct (string_get_lt wx i_x) as [c_x Hcx]; [by rewrite (Hlen _ _ Hwx)|].
      destruct (string_get_lt wy i_y) as [c_y Hcy]; [by rewrite (Hlen _ _ Hwy)|].
      rewrite Hcx, Hcy. case_decide as Hc.
      * exists false. split; [done|]. split; [done|]. intros Hall.
        destruct (Hall x y wx wy i_x i_y) as (c & Hc1 & Hc2); [left|done..|].
        congruence.
      * subst c_y.
        exists b. split; [done|]. rewrite Hiff. split.
        -- intros Hall x' y' wx' wy' i_x' i_y' [[= -> ->]|Hin]%elem_of_cons;
             [|by apply Hall].
           intros ? ? ?. simplify_eq. by exists c_x.
        -- intros Hall x' y' wx' wy' i_x' i_y' Hin. apply Hall. by right.
    + exists b. split; [done|]. rewrite Hiff. split.
      * intros Hall x' y' wx' wy' i_x' i_y' [[= -> ->]|Hin]%elem_of_cons;
          [|by apply Hall].
        intros ? ? ?. congruence.
      * intros Hall x' y' wx' wy' i_x' i_y' Hin. apply Hall. by right.
Qed.

Lemma consistent_spec_iff (a : Assignment) (D : Domains) :
  well_formed cw → dom a ⊆ variables cw →
  ∃ b, consistent cw a D = (D, Ok b) ∧ (b = true ↔ consistent_spec cw a).
Proof.
  intros [Hsym Hrange] Hdom. unfold consistent, consistent_spec.
  case_decide as Hsize.
  { exists false. split; [done|]. split; [done|]. intros (Hdist & _).
    by apply distinct_values_iff in Hdist. }
  pose proof (proj1 (distinct_values_iff a) Hsize) as Hdist.
  destruct (check_lengths (map_to_list a)) eqn:Hlen.
  - pose proof (proj1 (check_lengths_iff _) Hlen) as Hlen'.
    assert (∀ x wx, a !! x = Some wx → String.length wx = var_length x) as Hl.
    { intros x wx Hx. apply Hlen'. by apply elem_of_map_to_list. }
    assert (∀ x, x ∈ (map_to_list a).*1 ↔ x ∈ dom a) as Hkeys.
    { intros x. rewrite elem_of_dom, list_elem_of_fmap. split.
      - intros ([x' w] & -> & Hin%elem_of_map_to_list). by eexists.
      - intros [w Hw]. exists (x, w). by rewrite elem_of_map_to_list. }
    destruct (check_overlaps_spec a (combinations2 (map_to_list a).*1) Hrange Hl)
      as (b & Hb & Hiff).
    { intros x y [Hx Hy]%elem_of_combinations2. rewrite Hkeys in Hx, Hy.
      split_and!; [by apply Hdom|by apply Hdom|done..]. }
    exists b. unfold lift. rewrite Hb. split; [done|]. rewrite Hiff. split.
    + intros Hall. split_and!; [done..|].
      intros x y wx wy i_x i_y Hne Hx Hy Ho.
      assert (x ∈ dom a) as Hxd by by eapply elem_of_dom_2.
      assert (y ∈ dom a) as Hyd by by eapply elem_of_dom_2.
      destruct (combinations2_total (map_to_list a).*1 x y) as [Hin|Hin];
        [by apply Hkeys|by apply Hkeys|done| |].
      * by eapply Hall.
      * apply agree_swap. eapply Hall; [done..|].
        apply Hsym; [by apply Hdom|by apply Hdom|done].
    + intros (_ & _ & Hagree) x y wx wy i_x i_y Hin Hx Hy Ho.
      eapply Hagree; [|done..].
      eapply combinations2_NoDup_ne; [|done]. apply NoDup_fst_map_to_list.
  - exists false. split; [done|]. split; [done|]. intros (_ & Hl & _).
    assert (check_lengths (map_to_list a) = true); [|congruence].
    apply check_lengths_iff. intros v w Hin%elem_of_map_to_list. by apply Hl.
Qed.

End Validator.

(** C7. On a well-formed puzzle, for every assignment of slots of the puzzle,
    partial or complete, [consistent] returns [True] iff the assigned words
    are pairwise distinct, each has the length of its slot, and the words of
    any two assigned slots agree at their overlap; the call leaves [self]
    (the domains and the puzzle) as it was. *)
Theorem consistent_correct (self : CrosswordCreator) (a : Assignment) :
  well_formed (crossword self) → dom a ⊆ variables (crossword self) →
  ∃ b, call (λ cw, consistent cw a) self = (self, Ok b) ∧
       (b = true ↔ consistent_spec (crossword self) a).
Proof.
  intros Hwf Hdom. destruct self as [cw D]. cbn in *.
  destruct (consistent_spec_iff cw a D Hwf Hdom) as (b & Hrun & Hiff).
  exists b. unfold call. cbn. by rewrite Hrun.
Qed.

(** ** Completeness of an assignment *)

Lemma assignment_complete_keys (a : Assignment) (D : Domains) :
  dom a ⊆ dom D →
  ∃ b, assignment_complete a D = (D, Ok b) ∧ (b = true ↔ dom a = dom D).
Proof.
  intros Hsub. unfold assignment_complete.
  rewrite <-!(size_dom (D:=gset Var)).
  case_decide as Hs.
  - exists true. split; [done|]. split; [|done]. intros _.
    apply set_subseteq_size_eq; [done|lia].
  - exists false. split; [done|]. split; [done|]. intros Heq.
    by rewrite Heq in Hs.
Qed.

(** ** The heuristics *)

Lemma insert_by_perm {A K} (le : K → K → bool) (key : A → K) (a : A) (l : list A) :
  insert_by le key a l ≡ₚ a :: l.
Proof.
  induction l as [|b l IH]; cbn [insert_by]; [done|].
  destruct (le (key a) (key b)); [done|].
  rewrite IH. apply Permutation_swap.
Qed.

Lemma sorted_by_perm {A K} (le : K → K → bool) (key : A → K) (l : list A) :
  sorted_by le key l ≡ₚ l.
Proof.
  unfold sorted_by. induction l as [|a l IH]; cbn [foldr]; [done|].
  by rewrite insert_by_perm, IH.
Qed.

Section Heuristics.

Context (cw : Crossword).

(** With a slot left to assign, [select_unassigned_variable] returns one. *)
Lemma select_unassigned_variable_spec (a : Assignment) (D : Domains) :
  dom D ∖ dom a ≠ ∅ →
  ∃ var, select_unassigned_variable cw a D = (D, Ok var) ∧
         var ∈ dom D ∧ var ∉ dom a.
Proof.
  intros Hne. unfold select_unassigned_variable.
  pose proof (sorted_by_perm pair_le (select_key cw D)
                (elements (dom D ∖ dom a))) as Hperm.
  destruct (sorted_by pair_le (select_key cw D) (elements (dom D ∖ dom a)))
    as [|var rest].
  - apply Permutation_nil_l in Hperm. symmetry in Hperm.
    by apply elements_empty_iff, leibniz_equiv in Hperm.
  - exists var. split; [done|].
    assert (var ∈ elements (dom D ∖ dom a)) as Hin.
    { rewrite <-Hperm. left. }
    apply elem_of_elements, elem_of_difference in Hin. done.
Qed.

Lemma elem_of_neighbors (var v : Var) :
  v ∈ neighbors cw var ↔
  v ∈ variables cw ∧ v ≠ var ∧ is_Some (overlaps cw v var).
Proof. unfold neighbors. rewrite elem_of_filter. tauto. Qed.

Lemma count_word_defined word_var i_var i_neighbor ws :
  i_var < String.length word_var →
  (∀ w, w ∈ ws → i_neighbor < String.length w) →
  ∀ remove_count, ∃ n,
    count_word word_var i_var i_neighbor ws remove_count = Ok n.
Proof.
  intros Hvar. induction ws as [|w ws IH]; intros Hws remove_count;
    cbn [count_word]; [by eexists|].
  destruct (char_at_lt word_var i_var Hvar) as [c ->].
  destruct (char_at_lt w i_neighbor) as [c' ->]; [apply Hws; left|].
  apply IH. intros w' Hw'. apply Hws. by right.
Qed.

Lemma count_neighbors_defined (D : Domains) (a : Assignment) var word_var ns :
  (∀ n, n ∈ ns → n ∉ dom a →
     ∃ i_var i_n dn, overlaps cw var n = Some (i_var, i_n) ∧
       D !! n = Some dn ∧ i_var < String.length word_var ∧
       ∀ w, w ∈ dn → i_n < String.length w) →
  ∀ remove_count, ∃ k,
    count_neighbors cw D a var word_var ns remove_count = Ok k.
Proof.
  induction ns as [|n ns IH]; intros Hns remove_count;
    cbn [count_neighbors]; [by eexists|].
  assert (∀ n', n' ∈ ns → n' ∉ dom a →
     ∃ i_var i_n dn, overlaps cw var n' = Some (i_var, i_n) ∧
       D !! n' = Some dn ∧ i_var < String.length word_var ∧
       ∀ w, w ∈ dn → i_n < String.length w) as Hns'.
  { intros n' Hn'. apply Hns. by right. }
  case_decide as Hn; [by apply IH|].
  destruct (Hns n) as (i_var & i_n & dn & -> & -> & Hvar & Hdn); [left|done|].
  destruct (count_word_defined word_var i_var i_n (elements dn) Hvar)
    with (remove_count := remove_count) as [k ->].
  { intros w Hw%elem_of_elements. by apply Hdn. }
  by apply IH.
Qed.

Lemma rule_out_loop_defined (D : Domains) (a : Assignment) var ws :
  (∀ w, w ∈ ws → ∃ k,
     count_neighbors cw D a var w (elements (neighbors cw var)) 0 = Ok k) →
  ∃ items, rule_out_loop cw D a var ws = Ok items ∧ items.*1 = ws.
Proof.
  induction ws as [|w ws IH]; intros Hws; cbn [rule_out_loop]; [by eexists|].
  destruct (Hws w) as [k ->]; [left|].
  destruct IH as (items & -> & Hitems).
  { intros w' Hw'. apply Hws. by right. }
  eexists. split; [done|]. cbn. by rewrite Hitems.
Qed.

(** On a node-consistent store of a well-formed puzzle,
    [order_domain_values] returns the words of [domain(var)], in some
    order. *)
Lemma order_domain_values_spec (a : Assignment) (D : Domains) var dv :
  well_formed cw → dom D = variables cw → node_consistent D →
  D !! var = Some dv →
  ∃ values, order_domain_values cw var a D = (D, Ok values) ∧
            values ≡ₚ elements dv.
Proof.
  intros [Hsym Hrange] Hdom Hnc Hdv.
  assert (var ∈ variables cw) as Hvar.
  { rewrite <-Hdom. by eapply elem_of_dom_2. }
  unfold order_domain_values. unfold bind at 1, get_domain. rewrite Hdv.
  destruct (rule_out_loop_defined D a var (elements dv)) as (items & -> & Hitems).
  { intros w Hw%elem_of_elements. apply count_neighbors_defined.
    intros n (Hn & Hne & [[i_n i_var] Ho])%elem_of_elements%elem_of_neighbors _.
    assert (is_Some (D !! n)) as [dn Hdn].
    { apply elem_of_dom. by rewrite Hdom. }
    pose proof (Hsym _ _ _ _ Hn Hvar Ho) as Ho'.
    destruct (Hrange _ _ _ _ Hvar Hn Ho') as [Hiv Hin].
    exists i_var, i_n, dn. split_and!; [done..| |].
    - by rewrite (Hnc _ _ _ Hdv Hw).
    - intros w' Hw'. by rewrite (Hnc _ _ _ Hdn Hw'). }
  eexists. split; [done|].
  rewrite <-Hitems. apply fmap_Permutation, sorted_by_perm.
Qed.

End Heuristics.

Lemma sorted_by_head_min {A K} (le : K → K → bool) (key : A → K) (l : list A) :
  (∀ p q, le p q = false → le q p = true) →
  (∀ p q r, le p q = true → le q r = true → le p r = true) →
  ∀ h t, sorted_by le key l = h :: t →
         ∀ x, x ∈ l → le (key h) (key x) = true.
Proof.
  intros Htotal Htrans. unfold sorted_by.
  assert (∀ p, le p p = true) as Hrefl.
  { intros p. destruct (le p p) eqn:E; [done|]. pose proof (Htotal _ _ E). congruence. }
  induction l as [|a l IH]; intros h t Hs x Hx; [by apply elem_of_nil in Hx|].
  cbn [foldr] in Hs.
  destruct (foldr (insert_by le key) [] l) as [|b rest] eqn:Hl.
  - cbn in Hs. injection Hs as <- <-.
    assert (l = []) as ->.
    { apply Permutation_nil_r. rewrite <-Hl. symmetry. apply sorted_by_perm. }
    apply list_elem_of_singleton in Hx as ->. apply Hrefl.
  - cbn [insert_by] in Hs. destruct (le (key a) (key b)) eqn:Hab.
    + injection Hs as <- <-. apply elem_of_cons in Hx as [->|Hx].
      * apply Hrefl.
      * eapply Htrans; [done|]. by eapply IH.
    + injection Hs as <- <-. apply elem_of_cons in Hx as [->|Hx].
      * by apply Htotal.
      * by eapply IH.
Qed.

Lemma pair_le_spec (p q : nat * nat) :
  pair_le p q = true ↔ p.1 < q.1 ∨ (p.1 = q.1 ∧ p.2 ≤ q.2).
Proof.
  unfold pair_le.
  rewrite orb_true_iff, andb_true_iff, Nat.ltb_lt, Nat.eqb_eq, Nat.leb_le. done.
Qed.

(** What [select_unassigned_variable] returns: an unassigned slot with the
    fewest remaining words and, among those, with the fewest neighbors. *)
Lemma select_unassigned_variable_minimal (cw : Crossword) (a : Assignment)
    (D : Domains) (var : Var) :
  select_unassigned_variable cw a D = (D, Ok var) →
  var ∈ dom D ∧ (var ∉ dom a) ∧
  ∀ x, x ∈ dom D → x ∉ dom a →
    size (D !!! var) < size (D !!! x) ∨
    (size (D !!! var) = size (D !!! x) ∧
     size (neighbors cw var) ≤ size (neighbors cw x)).
Proof.
  unfold select_unassigned_variable.
  destruct (sorted_by pair_le (select_key cw D) (elements (dom D ∖ dom a)))
    as [|h t] eqn:Hs; [done|].
  intros [= ->].
  assert (var ∈ dom D ∖ dom a) as [Hin Hnot]%elem_of_difference.
  { apply elem_of_elements. rewrite <-(sorted_by_perm pair_le (select_key cw D)).
    rewrite Hs. left. }
  split_and!; [done..|]. intros x Hx Hxa.
  apply (pair_le_spec (select_key cw D var) (select_key cw D x)).
  eapply sorted_by_head_min; [| |done|].
  - intros p q Hpq. apply pair_le_spec.
    destruct (pair_le p q) eqn:E; [done|].
    assert (¬ (p.1 < q.1 ∨ p.1 = q.1 ∧ p.2 ≤ q.2)) by (rewrite <-pair_le_spec; congruence).
    lia.
  - intros p q r Hpq%pair_le_spec Hqr%pair_le_spec. apply pair_le_spec. lia.
  - apply elem_of_elements, elem_of_difference. done.
Qed.

(** ** Solutions and the invariant of the search *)

Lemma node_consistent_indexable (cw : Crossword) (D : Domains) :
  overlaps_in_range cw → dom D ⊆ variables cw → node_consistent D →
  indexable cw D.
Proof.
  intros Hrange Hdom Hnc x y i_x i_y dx dy Ho Hdx Hdy.
  assert (x ∈ variables cw) as Hx by (apply Hdom; by eapply elem_of_dom_2).
  assert (y ∈ variables cw) as Hy by (apply Hdom; by eapply elem_of_dom_2).
  destruct (Hrange _ _ _ _ Hx Hy Ho) as [Hix Hiy].
  split; intros w Hw.
  - by rewrite (Hnc _ _ _ Hdx Hw).
  - by rewrite (Hnc _ _ _ Hdy Hw).
Qed.

Lemma consistent_spec_subseteq (cw : Crossword) (a s : Assignment) :
  a ⊆ s → consistent_spec cw s → consistent_spec cw a.
Proof.
  intros Hsub (Hd & Hl & Ho). split_and!.
  - intros x y wx wy Hne Hx Hy.
    eapply Hd; [done|by eapply lookup_weaken..].
  - intros x wx Hx. eapply Hl. by eapply lookup_weaken.
  - intros x y wx wy i_x i_y Hne Hx Hy Hov.
    eapply Ho; [done|by eapply lookup_weaken..|done].
Qed.

Lemma in_solution_closed (cw : Crossword) (V : gset Var) :
  V ⊆ variables cw → arc_closed cw V (in_solution cw).
Proof.
  intros HV x y i_x i_y wx Hx Hy Hne Ho (s & Hs & Hsx).
  pose proof Hs as (Hdom & _ & _ & _ & Hagree).
  assert (is_Some (s !! y)) as [wy Hsy].
  { apply elem_of_dom. rewrite Hdom. by apply HV. }
  exists wy. split; [by exists s|]. by eapply Hagree.
Qed.

(** *** Node consistency *)

Lemma node_loop_spec (v : Var) (l : list string) (D : Domains) :
  node_loop v l D =
  (alter (λ ws, ws ∖ list_to_set (filter (λ w, String.length w ≠ var_length v) l))
         v D, Ok tt).
Proof.
  revert D. induction l as [|w l IH]; intros D; cbn [node_loop].
  - unfold ret. by rewrite filter_nil, list_to_set_nil, alter_difference_empty.
  - rewrite filter_cons. destruct (decide (String.length w ≠ var_length v)).
    + unfold bind, remove_word. rewrite IH, alter_difference_twice.
      by rewrite list_to_set_cons.
    + apply IH.
Qed.

Lemma node_vars_spec (vs : list Var) :
  ∀ D : Domains, (∀ v, v ∈ vs → v ∈ dom D) →
    ∃ D', node_vars vs D = (D', Ok tt) ∧ dom D' = dom D ∧
      ∀ v dv, D !! v = Some dv →
        D' !! v = Some (if decide (v ∈ vs) then filter (right_length v) dv else dv).
Proof.
  induction vs as [|v vs IH]; intros D Hvs.
  - exists D. split_and!; [done..|]. intros v dv Hv.
    rewrite decide_False; [done|]. apply not_elem_of_nil.
  - cbn [node_vars]. unfold bind at 1, get_domain.
    assert (is_Some (D !! v)) as [dv Hdv] by (apply elem_of_dom, Hvs; left).
    rewrite Hdv.
    unfold bind at 1. rewrite node_loop_spec.
    set (D1 := alter _ v D).
    assert (D1 !! v = Some (filter (right_length v) dv)) as HD1v.
    { subst D1. rewrite lookup_alter_eq, Hdv. cbn. f_equal.
      apply set_eq. intros w.
      rewrite elem_of_difference, elem_of_list_to_set, list_elem_of_filter,
        elem_of_elements, elem_of_filter.
      unfold right_length. split; [|tauto].
      intros [Hw Hn]. split; [|done].
      destruct (decide (String.length w = var_length v)); [done|]. tauto. }
    assert (dom D1 = dom D) as HD1d.
    { subst D1. apply set_eq. intros u.
      by rewrite !elem_of_dom, lookup_alter_is_Some. }
    destruct (IH D1) as (D' & -> & Hd' & Hl').
    { intros u Hu. rewrite HD1d. apply Hvs. by right. }
    exists D'. split_and!; [done|congruence|].
    intros u du Hu. destruct (decide (u = v)) as [->|Hne].
    + rewrite (Hl' _ _ HD1v).
      destruct (decide (v ∈ v :: vs)) as [_|Hn]; [|destruct Hn; left].
      assert (du = dv) as -> by congruence. f_equal.
      destruct (decide (v ∈ vs)); [|done].
      apply set_eq. intros w. rewrite !elem_of_filter. tauto.
    + assert (D1 !! u = Some du) as HD1u.
      { subst D1. by rewrite lookup_alter_ne. }
      rewrite (Hl' _ _ HD1u). f_equal.
      destruct (decide (u ∈ vs)) as [Hin|Hnin];
        destruct (decide (u ∈ v :: vs)) as [Hin'|Hnin']; try done.
      * destruct Hnin'. by right.
      * by apply elem_of_cons in Hin' as [->|?].
Qed.

Lemma enforce_node_consistency_spec (cw : Crossword) :
  ∃ D, enforce_node_consistency (init_domains cw) = (D, Ok tt) ∧ store_inv cw D.
Proof.
  unfold enforce_node_consistency.
  destruct (node_vars_spec (domain_keys (init_domains cw)) (init_domains cw))
    as (D & HD & Hdom & Hl).
  { intros v. by rewrite elem_of_domain_keys. }
  exists D. split; [done|].
  assert (dom D = variables cw) as Hd.
  { rewrite Hdom. unfold init_domains. by rewrite dom_gset_to_gmap. }
  assert (∀ v dv, D !! v = Some dv →
            v ∈ variables cw ∧ dv = filter (right_length v) (words cw)) as HDv.
  { intros v dv Hv.
    assert (v ∈ variables cw) as Hin by (rewrite <-Hd; by eapply elem_of_dom_2).
    assert (init_domains cw !! v = Some (words cw)) as H0.
    { unfold init_domains. by apply lookup_gset_to_gmap_Some. }
    specialize (Hl _ _ H0). rewrite decide_True in Hl.
    - split; [done|congruence].
    - apply elem_of_domain_keys. by eapply elem_of_dom_2. }
  split_and!; [done|..].
  - intros v dv w Hv Hw. destruct (HDv _ _ Hv) as [_ ->].
    by apply elem_of_filter in Hw as [Hw _].
  - intros v dv w Hv Hw. destruct (HDv _ _ Hv) as [_ ->].
    by apply elem_of_filter in Hw as [_ Hw].
  - intros v w (s & (Hsd & Hsw & _ & Hsl & _) & Hsv).
    assert (is_Some (D !! v)) as [dv Hv].
    { apply elem_of_dom. rewrite Hd, <-Hsd. by eapply elem_of_dom_2. }
    exists dv. split; [done|]. destruct (HDv _ _ Hv) as [_ ->].
    apply elem_of_filter. split; [by apply Hsl|by eapply Hsw].
Qed.

(** *** Arc consistency keeps the invariant *)

Lemma arcs_of_store_default (D : Domains) : arcs_of_store None D.
Proof. by intros A. Qed.

Lemma arcs_of_store_unassigned (a : Assignment) (D : Domains) :
  arcs_of_store (Some (unassigned_arcs a D)) D.
Proof.
  intros A [= <-] [x y]. unfold unassigned_arcs.
  rewrite elem_of_list_to_set, list_elem_of_bind.
  intros (x' & (y' & Hin & Hy)%list_elem_of_bind & Hx).
  case_decide as Hc; [|by apply elem_of_nil in Hin].
  apply list_elem_of_singleton in Hin as [= -> ->].
  apply elem_of_all_arcs. rewrite <-!elem_of_domain_keys. tauto.
Qed.

Lemma ac3_store_inv (cw : Crossword) (arcs : option (gset Arc)) (D : Domains) :
  overlaps_in_range cw → arcs_of_store arcs D → store_inv cw D →
  ∃ D' b, ac3 cw arcs D = (D', Ok b) ∧ store_inv cw D'.
Proof.
  intros Hrange Harcs (Hd & Hnc & Hw & HS).
  destruct (ac3_inv cw (in_solution cw) arcs D)
    as (D' & r & Hrun & _ & Hsh & HS' & _ & Hok); [done| |done|].
  { apply in_solution_closed. by rewrite Hd. }
  destruct Hok as [b ->].
  { apply node_consistent_indexable; [done| |done]. by rewrite Hd. }
  exists D', b. split; [done|]. split_and!.
  - by rewrite (proj1 Hsh).
  - by eapply node_consistent_shrinks.
  - intros v dv' w Hv Hin. destruct (proj2 Hsh _ _ Hv) as (dv & Hdv & Hsub).
    eapply Hw; [done|]. by apply Hsub.
  - done.
Qed.

(** ** The backtracking search *)

Section Backtracking.

Context (cw : Crossword) (Hwf : well_formed cw).

Lemma backtrack_loop_spec (recurse : Assignment → M (option Assignment))
    (a : Assignment) (var : Var) :
  (∀ a' D, store_inv cw D → partial_solution cw a' → size a' = S (size a) →
           search_result cw a' (recurse a' D)) →
  var ∈ variables cw → var ∉ dom a → partial_solution cw a →
  ∀ values D, store_inv cw D → (∀ w, w ∈ values → w ∈ words cw) →
    ∃ D' res, backtrack_loop cw recurse a var values D = (D', Ok res) ∧
      store_inv cw D' ∧
      match res with
      | Some s => solution cw s
      | None => ∀ s w, solution cw s → a ⊆ s → s !! var = Some w → w ∉ values
      end.
Proof using Hwf.
  intros Hrec Hvar Hfresh (Hdom & Hwords & Hcons).
  induction values as [|word rest IH]; intros D HD Hvalues.
  - exists D, None. split_and!; [done..|]. intros s w _ _ _. apply not_elem_of_nil.
  - cbn [backtrack_loop].
    assert (dom (<[var := word]> a) ⊆ variables cw) as Hdom'.
    { rewrite dom_insert_L. clear -Hvar Hdom. set_solver. }
    destruct (consistent_spec_iff cw (<[var := word]> a) D Hwf Hdom')
      as (ok & Hok & Hiff).
    unfold bind at 1. rewrite Hok.
    assert (∀ w, w ∈ rest → w ∈ words cw) as Hrest.
    { intros w Hw. apply Hvalues. by right. }
    assert (∀ s, solution cw s → a ⊆ s → s !! var = Some word →
                 <[var := word]> a ⊆ s) as Hext.
    { intros s _ Hsub Hs. by apply insert_subseteq_l. }
    destruct ok.
    + (* the extension is consistent: propagate and recurse *)
      destruct (ac3_store_inv cw (Some (unassigned_arcs (<[var := word]> a) D)) D)
        as (D1 & b & Hac3 & HD1);
        [apply Hwf|apply arcs_of_store_unassigned|done|].
      unfold bind at 1. rewrite Hac3.
      destruct (Hrec (<[var := word]> a) D1 HD1) as (D2 & res & Hrun & HD2 & Hres).
      { split_and!; [done| |by apply Hiff].
        intros v w. destruct (decide (var = v)) as [<-|Hne].
        - rewrite lookup_insert_eq. intros [= <-]. apply Hvalues. left.
        - rewrite lookup_insert_ne by done. apply Hwords. }
      { apply map_size_insert_None. by apply not_elem_of_dom. }
      unfold bind at 1. rewrite Hrun.
      destruct res as [s|].
      * exists D2, (Some s). done.
      * destruct (IH D2 HD2 Hrest) as (D' & res & Hloop & HD' & Hres').
        exists D', res. split_and!; [done..|].
        destruct res as [s|]; [done|].
        intros s w Hs Hsub Hsv [->|Hin]%elem_of_cons.
        -- by apply (Hres s Hs), Hext.
        -- by apply (Hres' s w).
    + (* the extension is inconsistent: next value *)
      destruct (IH D HD Hrest) as (D' & res & Hloop & HD' & Hres').
      exists D', res. split_and!; [done..|].
      destruct res as [s|]; [done|].
      intros s w Hs Hsub Hsv [->|Hin]%elem_of_cons.
      * assert (false = true); [|done]. apply Hiff.
        eapply consistent_spec_subseteq; [by apply Hext|]. apply Hs.
      * by apply (Hres' s w).
Qed.

Lemma backtrack_spec (fuel : nat) :
  ∀ a D, store_inv cw D → partial_solution cw a →
         size (variables cw) < fuel + size a →
         search_result cw a (backtrack cw fuel a D).
Proof using Hwf.
  induction fuel as [|fuel IH]; intros a D HD Ha Hfuel.
  - exfalso. destruct Ha as (Hdom & _).
    apply subseteq_size in Hdom. rewrite size_dom in Hdom. cbn in Hfuel. lia.
  - pose proof HD as (HdomD & Hnc & HDwords & Hsol).
    pose proof Ha as (Hdom & Hwords & Hcons).
    cbn [backtrack].
    destruct (assignment_complete_keys a D) as (complete & Hc & Hiff).
    { by rewrite HdomD. }
    unfold bind at 1. rewrite Hc. destruct complete.
    + exists D, (Some a). split_and!; [done..|].
      split_and!; [|done..]. rewrite <-HdomD. by apply Hiff.
    + destruct (select_unassigned_variable_spec cw a D) as (var & Hsel & Hvar & Hfresh).
      { intros Hempty. assert (false = true); [|done]. apply Hiff.
        apply set_eq. intros v. split; [rewrite HdomD; apply Hdom|].
        intros Hv. destruct (decide (v ∈ dom a)) as [|Hn]; [done|].
        assert (v ∈ dom D ∖ dom a) as Hin by (by apply elem_of_difference).
        rewrite Hempty in Hin. by apply elem_of_empty in Hin. }
      unfold bind at 1. rewrite Hsel.
      apply elem_of_dom in Hvar as [dv Hdv].
      destruct (order_domain_values_spec cw a D var dv Hwf HdomD Hnc Hdv)
        as (values & Hord & Hperm).
      unfold bind at 1. rewrite Hord.
      assert (var ∈ variables cw) as Hvar.
      { rewrite <-HdomD. by eapply elem_of_dom_2. }
      destruct (backtrack_loop_spec (backtrack cw fuel) a var) with (values := values) (D := D)
        as (D' & res & Hloop & HD' & Hres); [|done..| |].
      { intros a' D1 HD1 Ha' Hsize. apply IH; [done..|]. lia. }
      { intros w Hw. rewrite Hperm in Hw. apply elem_of_elements in Hw.
        by eapply HDwords. }
      exists D', res. split_and!; [done..|].
      destruct res as [s|]; [done|].
      intros s Hs Hsub.
      assert (is_Some (s !! var)) as [w Hw].
      { apply elem_of_dom. by rewrite (proj1 Hs). }
      apply (Hres s w Hs Hsub Hw).
      destruct (Hsol var w) as (dv' & Hdv' & Hin); [by exists s|].
      assert (dv' = dv) as -> by congruence.
      rewrite Hperm. by apply elem_of_elements.
Qed.

Lemma solve_spec :
  ∃ D' res, run_solve cw = (D', Ok res) ∧
    match res with
    | Some s => solution cw s
    | None => ∀ s, ¬ solution cw s
    end.
Proof using Hwf.
  unfold run_solve, solve.
  destruct (enforce_node_consistency_spec cw) as (D1 & Hnode & HD1).
  unfold bind at 1. rewrite Hnode.
  destruct (ac3_store_inv cw None D1) as (D2 & b & Hac3 & HD2);
    [apply Hwf|apply arcs_of_store_default|done|].
  unfold bind at 1. rewrite Hac3.
  destruct (backtrack_spec (S (size D2)) ∅ D2 HD2) as (D' & res & Hrun & _ & Hres).
  { split_and!.
    - rewrite dom_empty_L. apply empty_subseteq.
    - by intros v w ?%lookup_empty_Some.
    - split_and!.
      + intros x y wx wy _ Hx. by apply lookup_empty_Some in Hx.
      + intros x wx Hx. by apply lookup_empty_Some in Hx.
      + intros x y wx wy i_x i_y _ Hx. by apply lookup_empty_Some in Hx. }
  { rewrite map_size_empty, <-(size_dom (D:=gset Var)), (proj1 HD2). lia. }
  exists D', res. split; [done|]. destruct res as [s|]; [done|].
  intros s Hs. apply (Hres s Hs). apply map_empty_subseteq.
Qed.

End Backtracking.

(** ** Checking the contract of a puzzle by evaluation *)

Lemma well_formed_b_correct (cw : Crossword) :
  well_formed_b cw = true → well_formed cw.
Proof.
  unfold well_formed_b. rewrite forallb_forall. intros Hall.
  assert (∀ x y, x ∈ variables cw → y ∈ variables cw → overlap_ok cw x y = true)
    as Hok.
  { intros x y Hx%elem_of_elements%list_elem_of_In Hy%elem_of_elements%list_elem_of_In.
    specialize (Hall x Hx). rewrite forallb_forall in Hall. by apply Hall. }
  split.
  - intros x y i_x i_y Hx Hy Ho. specialize (Hok x y Hx Hy).
    unfold overlap_ok in Hok. rewrite Ho in Hok.
    apply andb_true_iff in Hok as [[Hs%bool_decide_eq_true _]%andb_true_iff _].
    done.
  - intros x y i_x i_y Hx Hy Ho. specialize (Hok x y Hx Hy).
    unfold overlap_ok in Hok. rewrite Ho in Hok.
    apply andb_true_iff in Hok as [[_ H1%Nat.ltb_lt]%andb_true_iff H2%Nat.ltb_lt].
    done.
Qed.

Lemma node_store_inv (cw : Crossword) :
  store_inv cw (enforce_node_consistency (init_domains cw)).1.
Proof. destruct (enforce_node_consistency_spec cw) as (D & -> & HD). done. Qed.

Lemma node_store_indexable (cw : Crossword) :
  overlaps_in_range cw →
  indexable cw (enforce_node_consistency (init_domains cw)).1.
Proof.
  intros Hrange. destruct (node_store_inv cw) as (Hd & Hnc & _).
  apply node_consistent_indexable; [done| |done]. by rewrite Hd.
Qed.

Lemma cross_puzzle_well_formed : well_formed cross_puzzle.
Proof. apply well_formed_b_correct. vm_compute. reflexivity. Qed.

Lemma cross_unsat_well_formed : well_formed cross_unsat.
Proof. apply well_formed_b_correct. vm_compute. reflexivity. Qed.

Lemma cross_solution_is_solution : solution cross_puzzle cross_solution.
Proof.
  split_and!.
  - vm_compute. reflexivity.
  - apply (bool_decide_unpack (map_Forall (λ _ w, w ∈ words cross_puzzle) cross_solution)).
    vm_compute. exact I.
  - destruct (consistent_spec_iff cross_puzzle cross_solution ∅) as (b & Hb & Hiff).
    + apply cross_puzzle_well_formed.
    + apply (bool_decide_unpack _). vm_compute. exact I.
    + apply Hiff. vm_compute in Hb. congruence.
Qed.

Lemma cross_unsat_no_solution : ∀ s, ¬ solution cross_unsat s.
Proof.
  intros s (Hdom & Hwords & _ & _ & Hagree).
  assert (is_Some (s !! across3)) as [wa Ha].
  { apply elem_of_dom. rewrite Hdom. vm_compute. set_solver. }
  assert (is_Some (s !! down3)) as [wd Hd].
  { apply elem_of_dom. rewrite Hdom. set_solver. }
  assert (agree 1 0 wa wd) as (c & Hc1 & Hc2).
  { by apply (Hagree across3 down3). }
  pose proof (Hwords _ _ Ha) as Hwa. pose proof (Hwords _ _ Hd) as Hwd.
  cbn in Hwa, Hwd. set_unfold.
  destruct Hwa as [->| ->]; destruct Hwd as [->| ->]; cbn in Hc1, Hc2; congruence.
Qed.

(** * The claims about [solve], the heuristics and completeness *)

(** C1. On a well-formed puzzle that has a solution, [solve] returns an
    assignment that is complete and consistent (and made of words of the
    vocabulary). The search threads one store through all its branches:
    what [ac3] removes while a value is tried stays removed when the value is
    given up. *)
Theorem solve_satisfiable (cw : Crossword) :
  well_formed cw → (∃ s, solution cw s) →
  ∃ D' a, run_solve cw = (D', Ok (Some a)) ∧
          dom a = variables cw ∧ consistent_spec cw a ∧
          (∀ v w, a !! v = Some w → w ∈ words cw).
Proof.
  intros Hwf [s Hs]. destruct (solve_spec cw Hwf) as (D' & [a|] & Hrun & Hres).
  - destruct Hres as (? & ? & ?). by exists D', a.
  - by destruct (Hres s).
Qed.

Lemma solve_satisfiable_witness :
  well_formed cross_puzzle ∧ (∃ s, solution cross_puzzle s) ∧
  ∃ D' a, run_solve cross_puzzle = (D', Ok (Some a)) ∧
          dom a = variables cross_puzzle ∧ consistent_spec cross_puzzle a ∧
          (∀ v w, a !! v = Some w → w ∈ words cross_puzzle).
Proof.
  assert (well_formed cross_puzzle) as Hwf.
  { apply well_formed_b_correct. vm_compute. reflexivity. }
  assert (∃ s, solution cross_puzzle s) as Hs.
  { exists cross_solution. apply cross_solution_is_solution. }
  split; [exact Hwf|]. split; [exact Hs|].
  exact (solve_satisfiable cross_puzzle Hwf Hs).
Defined.

(** C2. On a well-formed puzzle that has no solution, [solve] returns [None]:
    it raises nothing and it terminates, whether a domain was emptied by the
    propagation or the search ran out of values. *)
Theorem solve_unsatisfiable (cw : Crossword) :
  well_formed cw → (∀ s, ¬ solution cw s) →
  ∃ D', run_solve cw = (D', Ok None).
Proof.
  intros Hwf Hno. destruct (solve_spec cw Hwf) as (D' & [a|] & Hrun & Hres).
  - by destruct (Hno a).
  - by exists D'.
Qed.

Lemma solve_unsatisfiable_witness :
  well_formed cross_unsat ∧ (∀ s, ¬ solution cross_unsat s) ∧
  ∃ D', run_solve cross_unsat = (D', Ok None).
Proof.
  assert (well_formed cross_unsat) as Hwf.
  { apply well_formed_b_correct. vm_compute. reflexivity. }
  split; [exact Hwf|]. split; [exact cross_unsat_no_solution|].
  exact (solve_unsatisfiable cross_unsat Hwf cross_unsat_no_solution).
Defined.

(** C3. The slot [select_unassigned_variable] returns for [gate_puzzle] at
    the start of the search: the three slots tie on the number of remaining
    words, and the slot returned has fewer neighbors than [top], which has
    the highest degree. The sort is ascending in both components of its
    key. *)
Theorem select_unassigned_variable_lowest_degree :
  ∃ var,
    select_unassigned_variable gate_puzzle ∅ gate_store = (gate_store, Ok var) ∧
    size (gate_store !!! var) = size (gate_store !!! top) ∧
    size (neighbors gate_puzzle var) < size (neighbors gate_puzzle top).
Proof.
  exists right_down. split_and!.
  - vm_compute. reflexivity.
  - vm_compute. reflexivity.
  - vm_compute. lia.
Qed.

(** C8, as the code has it. When no two slots overlap and the slots can be
    given pairwise distinct words of the vocabulary, each of the length of
    its slot, [solve] returns a complete and consistent assignment. *)
Theorem solve_no_overlap (cw : Crossword) :
  (∀ x y, x ∈ variables cw → y ∈ variables cw → overlaps cw x y = None) →
  (∃ f : Assignment,
     dom f = variables cw ∧
     (∀ v w, f !! v = Some w → w ∈ words cw ∧ String.length w = var_length v) ∧
     (∀ x y wx wy, x ≠ y → f !! x = Some wx → f !! y = Some wy → wx ≠ wy)) →
  ∃ D' a, run_solve cw = (D', Ok (Some a)) ∧
          dom a = variables cw ∧ consistent_spec cw a.
Proof.
  intros Hnone (f & Hdom & Hwords & Hdist).
  assert (well_formed cw) as Hwf.
  { split; intros x y i_x i_y Hx Hy Ho; by rewrite Hnone in Ho. }
  assert (solution cw f) as Hf.
  { split_and!; [done| |].
    - intros v w Hv. by destruct (Hwords _ _ Hv).
    - split_and!; [done| |].
      + intros v w Hv. by destruct (Hwords _ _ Hv).
      + intros x y wx wy i_x i_y _ Hx Hy Ho. rewrite Hnone in Ho; [done| |].
        * rewrite <-Hdom. by eapply elem_of_dom_2.
        * rewrite <-Hdom. by eapply elem_of_dom_2. }
  destruct (solve_spec cw Hwf) as (D' & [a|] & Hrun & Hres).
  - destruct Hres as (? & ? & ?). by exists D', a.
  - by destruct (Hres f).
Qed.

Lemma rows_solution_fits :
  dom rows_solution = variables rows_two_words ∧
  (∀ v w, rows_solution !! v = Some w →
          w ∈ words rows_two_words ∧ String.length w = var_length v) ∧
  (∀ x y wx wy, x ≠ y → rows_solution !! x = Some wx →
                rows_solution !! y = Some wy → wx ≠ wy).
Proof.
  split_and!.
  - vm_compute. reflexivity.
  - apply (bool_decide_unpack
             (map_Forall (λ v w, w ∈ words rows_two_words ∧
                                 String.length w = var_length v) rows_solution)).
    vm_compute. exact I.
  - apply distinct_values_iff. vm_compute. reflexivity.
Qed.

Lemma solve_no_overlap_witness :
  (∀ x y, x ∈ variables rows_two_words → y ∈ variables rows_two_words →
          overlaps rows_two_words x y = None) ∧
  ∃ D' a, run_solve rows_two_words = (D', Ok (Some a)) ∧
          dom a = variables rows_two_words ∧ consistent_spec rows_two_words a.
Proof.
  split; [reflexivity|].
  apply solve_no_overlap; [reflexivity|].
  exists rows_solution. exact rows_solution_fits.
Defined.

(** C8, as the specification states it, fails: in [rows_one_word] no two
    slots overlap and the vocabulary has a word of the length of each slot,
    yet [solve] returns [None], because the two slots cannot both take the
    only word. *)
Lemma solve_no_overlap_counterexample :
  (∀ x y, overlaps rows_one_word x y = None) ∧
  (∀ v, v ∈ variables rows_one_word →
        ∃ w, w ∈ words rows_one_word ∧ String.length w = var_length v) ∧
  (run_solve rows_one_word).2 = Ok None.
Proof.
  split_and!.
  - reflexivity.
  - intros v Hv. exists "CAT". split; [cbn; set_solver|].
    cbn in Hv. set_unfold. by destruct Hv as [->| ->].
  - vm_compute. reflexivity.
Qed.

(** C9, as the code has it. For an assignment whose keys are slots of the
    store, [assignment_complete] returns [True] iff the assignment has an
    entry for every slot. *)
Theorem assignment_complete_correct (a : Assignment) (D : Domains) :
  dom a ⊆ dom D →
  ∃ b, assignment_complete a D = (D, Ok b) ∧ (b = true ↔ dom a = dom D).
Proof. apply assignment_complete_keys. Qed.

Lemma assignment_complete_correct_witness :
  dom cross_solution ⊆ dom cross_store ∧
  ∃ b, assignment_complete cross_solution cross_store = (cross_store, Ok b) ∧
       (b = true ↔ dom cross_solution = dom cross_store).
Proof.
  assert (dom cross_solution ⊆ dom cross_store) as Hsub.
  { apply (bool_decide_unpack _). vm_compute. exact I. }
  split; [exact Hsub|]. exact (assignment_complete_correct _ _ Hsub).
Defined.

(** C9, as the specification states it, fails: [assignment_complete] compares
    the number of entries only, so an assignment of one slot that is not in
    the puzzle passes for complete on a one-slot puzzle. *)
Lemma assignment_complete_counterexample :
  assignment_complete stray_assignment (init_domains one_slot)
  = (init_domains one_slot, Ok true) ∧
  dom stray_assignment ≠ dom (init_domains one_slot).
Proof.
  split.
  - vm_compute. reflexivity.
  - intros Heq. assert (row2 ∈ dom (init_domains one_slot)) as Hin.
    { rewrite <-Heq. unfold stray_assignment. set_solver. }
    unfold init_domains in Hin. rewrite dom_gset_to_gmap in Hin.
    cbn in Hin. set_unfold. discriminate.
Qed.

(** * The claims at concrete puzzles *)

Lemma cross_store_indexable : indexable cross_puzzle cross_store.
Proof. apply node_store_indexable, cross_puzzle_well_formed. Qed.

Lemma revise_correct_witness :
  across3 ≠ down3 ∧
  cross_store !! across3 = Some {["CAT"; "ATE"; "DOG"]} ∧
  cross_store !! down3 = Some {["CAT"; "ATE"; "DOG"]} ∧
  indexable cross_puzzle cross_store ∧
  ∃ dx' b,
    revise cross_puzzle across3 down3 cross_store
    = (<[across3 := dx']> cross_store, Ok b) ∧
    (∀ wx, wx ∈ dx' ↔
       wx ∈ ({["CAT"; "ATE"; "DOG"]} : gset string) ∧
       ∃ wy, wy ∈ ({["CAT"; "ATE"; "DOG"]} : gset string) ∧ agree 1 0 wx wy) ∧
    (b = true ↔ ∃ wx, wx ∈ ({["CAT"; "ATE"; "DOG"]} : gset string) ∧ wx ∉ dx').
Proof.
  assert (across3 ≠ down3) as Hne by discriminate.
  assert (cross_store !! across3 = Some {["CAT"; "ATE"; "DOG"]}) as Hx
    by (vm_compute; reflexivity).
  assert (cross_store !! down3 = Some {["CAT"; "ATE"; "DOG"]}) as Hy
    by (vm_compute; reflexivity).
  split_and!; [exact Hne|exact Hx|exact Hy|exact cross_store_indexable|].
  pose proof (revise_correct cross_puzzle cross_store across3 down3 _ _
                Hne Hx Hy cross_store_indexable) as H.
  assert (overlaps cross_puzzle across3 down3 = Some (1, 0)) as Ho
    by (vm_compute; reflexivity).
  rewrite Ho in H. exact H.
Defined.

Lemma ac3_correct_witness :
  arcs_of_store None cross_store ∧ indexable cross_puzzle cross_store ∧
  ∃ D' r,
    ac3 cross_puzzle None cross_store = (D', r) ∧ r ≠ OutOfFuel ∧
    (dom D' = dom cross_store ∧
     ∀ v dv', D' !! v = Some dv' →
              ∃ dv, cross_store !! v = Some dv ∧ dv' ⊆ dv) ∧
    (r = Ok false → ∃ v, D' !! v = Some ∅) ∧
    (indexable cross_puzzle cross_store →
     ∃ b, r = Ok b ∧ ((∀ v, D' !! v ≠ Some ∅) → b = true)).
Proof.
  split; [exact (arcs_of_store_default cross_store)|].
  split; [exact cross_store_indexable|].
  exact (ac3_correct cross_puzzle cross_store None
           (arcs_of_store_default cross_store)).
Defined.

Lemma ac3_idempotent_witness :
  ac3 cross_puzzle None cross_store = (cross_fixpoint, Ok true) ∧
  ac3 cross_puzzle None cross_fixpoint = (cross_fixpoint, Ok true).
Proof.
  assert (ac3 cross_puzzle None cross_store = (cross_fixpoint, Ok true)) as H
    by (vm_compute; reflexivity).
  split; [exact H|]. exact (ac3_idempotent cross_puzzle cross_store cross_fixpoint H).
Defined.

Lemma consistent_correct_witness :
  well_formed cross_puzzle ∧ dom cross_solution ⊆ variables cross_puzzle ∧
  ∃ b, call (λ cw, consistent cw cross_solution) (mkCreator cross_puzzle cross_store)
       = (mkCreator cross_puzzle cross_store, Ok b) ∧
       (b = true ↔ consistent_spec cross_puzzle cross_solution).
Proof.
  assert (dom cross_solution ⊆ variables cross_puzzle) as Hdom.
  { apply (bool_decide_unpack _). vm_compute. exact I. }
  split; [exact cross_puzzle_well_formed|]. split; [exact Hdom|].
  exact (consistent_correct (mkCreator cross_puzzle cross_store) cross_solution
           cross_puzzle_well_formed Hdom).
Defined.

Lemma revise_frame_witness :
  down3 ≠ across3 ∧
  let self := mkCreator cross_puzzle cross_store in
  let self' := (call (λ cw, revise cw across3 down3) self).1 in
  domains self' !! down3 = domains self !! down3 ∧
  overlaps (crossword self') = overlaps (crossword self) ∧
  neighbors (crossword self') = neighbors (crossword self).
Proof.
  assert (down3 ≠ across3) as Hne by discriminate.
  split; [exact Hne|].
  exact (revise_frame (mkCreator cross_puzzle cross_store) across3 down3 down3 Hne).
Defined.

(** ** The letter grid *)

Lemma elem_of_written_by (variable : Var) (word : string) i j c :
  ((i, j), c) ∈ written_by variable word ↔
  ∃ k, String.get k word = Some c ∧ cell_of variable k = (i, j).
Proof.
  unfold written_by. rewrite list_elem_of_bind. split.
  - intros (k & Hin & _). destruct (String.get k word) as [c'|] eqn:Hk;
      [|by apply elem_of_nil in Hin].
    apply list_elem_of_singleton in Hin. exists k. split; congruence.
  - intros (k & Hk & Hcell). exists k. rewrite Hk. split.
    + apply list_elem_of_singleton. congruence.
    + apply elem_of_seq. split; [lia|]. cbn.
      destruct (decide (k < String.length word)) as [|Hge]; [done|].
      exfalso. clear Hcell. revert k Hk Hge.
      induction word as [|a word IH]; intros [|k] Hk Hge; cbn in *; try done.
      * lia.
      * eapply IH; [done|lia].
Qed.

Lemma elem_of_written (a : Assignment) i j c :
  ((i, j), c) ∈ written a ↔ writes a i j c.
Proof.
  unfold written, writes. rewrite list_elem_of_bind. split.
  - intros ([v word] & Hin & Hm%elem_of_map_to_list).
    apply elem_of_written_by in Hin as (k & Hk & Hcell). by exists v, word, k.
  - intros (v & word & k & Ha & Hk & Hcell). exists (v, word).
    split; [|by apply elem_of_map_to_list].
    apply elem_of_written_by. by exists k.
Qed.

Lemma writes_written (a : Assignment) i j c :
  writes a i j c → ((i, j), c) ∈ written a.
Proof. apply elem_of_written. Qed.

Lemma written_writes (a : Assignment) i j c :
  ((i, j), c) ∈ written a → writes a i j c.
Proof. apply elem_of_written. Qed.

Lemma write_all_app ws1 ws2 (g : Grid) :
  write_all (ws1 ++ ws2) g =
  match write_all ws1 g with
  | Ok g' => write_all ws2 g'
  | Raise e => Raise e
  | OutOfFuel => OutOfFuel
  end.
Proof.
  revert g. induction ws1 as [|[[i j] c] ws1 IH]; intros g; cbn; [done|].
  destruct (set_cell g i j c); [apply IH|done..].
Qed.

Lemma write_word_write_all (variable : Var) (word : string) (n : nat) :
  ∀ (start : nat) (g : Grid),
    start + n ≤ String.length word →
    write_word variable word (seq start n) g =
    write_all (k ← seq start n;
               match String.get k word with
               | Some c => [(cell_of variable k, c)]
               | None => []
               end) g.
Proof.
  induction n as [|n IH]; intros start g Hle; cbn [seq write_word]; [done|].
  destruct (string_get_lt word start) as [c Hc]; [lia|].
  rewrite bind_cons. unfold char_at. rewrite Hc.
  destruct (cell_of variable start) as [i j]. cbn [app write_all].
  destruct (set_cell g i j c); [|done..].
  apply IH. lia.
Qed.

Lemma write_items_write_all (items : list (Var * string)) (g : Grid) :
  write_items items g = write_all (p ← items; written_by p.1 p.2) g.
Proof.
  revert g. induction items as [|[v word] items IH]; intros g; [done|].
  cbn [write_items]. rewrite bind_cons, write_all_app. cbn [fst snd].
  unfold written_by. rewrite <-write_word_write_all by lia.
  destruct (write_word v word (seq 0 (String.length word)) g); [apply IH|done..].
Qed.

Lemma letter_grid_write_all (height width : nat) (a : Assignment) :
  letter_grid height width a =
  write_all (written a) (replicate height (replicate width None)).
Proof. apply write_items_write_all. Qed.

Lemma grid_get_blank (height width i j : nat) :
  i < height → j < width →
  grid_get (replicate height (replicate width None)) i j = Some None.
Proof.
  intros Hi Hj. unfold grid_get.
  rewrite lookup_replicate_2 by done. cbn. by rewrite lookup_replicate_2.
Qed.

Lemma grid_shape_blank (height width : nat) :
  grid_shape height width (replicate height (replicate width None)).
Proof.
  split; [by rewrite length_replicate|].
  intros row [-> _]%elem_of_replicate. by rewrite length_replicate.
Qed.

Lemma grid_get_in_shape (height width : nat) (g : Grid) i j :
  grid_shape height width g → i < height → j < width →
  ∃ x, grid_get g i j = Some x.
Proof.
  intros [Hlen Hrows] Hi Hj. unfold grid_get.
  destruct (lookup_lt_is_Some_2 g i) as [row Hrow]; [lia|].
  rewrite Hrow. cbn. apply lookup_lt_is_Some_2.
  rewrite (Hrows row); [done|]. by eapply list_elem_of_lookup_2.
Qed.

(** One write inside the grid succeeds and shows in its cell only; one
    outside raises [IndexError]. *)
Lemma set_cell_inside (height width : nat) (g : Grid) i j c :
  grid_shape height width g → i < height → j < width →
  ∃ g', set_cell g i j c = Ok g' ∧ grid_shape height width g' ∧
        grid_get g' i j = Some (Some c) ∧
        ∀ i' j', (i', j') ≠ (i, j) → grid_get g' i' j' = grid_get g i' j'.
Proof.
  intros [Hlen Hrows] Hi Hj. unfold set_cell.
  destruct (lookup_lt_is_Some_2 g i) as [row Hrow]; [lia|].
  assert (length row = width) as Hw.
  { apply Hrows. by eapply list_elem_of_lookup_2. }
  rewrite Hrow. rewrite decide_True by lia.
  eexists. split; [done|]. split_and!.
  - split; [by rewrite length_insert|].
    intros row' Hin. apply list_elem_of_lookup in Hin as [i' Hi'].
    destruct (decide (i' = i)) as [->|Hne].
    + rewrite list_lookup_insert_eq in Hi' by lia. injection Hi' as <-.
      by rewrite length_insert.
    + rewrite list_lookup_insert_ne in Hi' by done.
      apply Hrows. by eapply list_elem_of_lookup_2.
  - unfold grid_get. rewrite list_lookup_insert_eq by lia. cbn.
    rewrite list_lookup_insert_eq by lia. done.
  - intros i' j' Hne. unfold grid_get.
    destruct (decide (i' = i)) as [->|Hi'].
    + rewrite list_lookup_insert_eq by lia. rewrite Hrow. cbn.
      rewrite list_lookup_insert_ne; [done|]. congruence.
    + by rewrite list_lookup_insert_ne.
Qed.

Lemma set_cell_outside (height width : nat) (g : Grid) i j c :
  grid_shape height width g → ¬ (i < height ∧ j < width) →
  set_cell g i j c = Raise IndexError.
Proof.
  intros [Hlen Hrows] Hout. unfold set_cell.
  destruct (g !! i) as [row|] eqn:Hrow; [|done].
  assert (length row = width) as Hw.
  { apply Hrows. by eapply list_elem_of_lookup_2. }
  apply lookup_lt_Some in Hrow. rewrite decide_False; [done|lia].
Qed.

(** The writes replayed on a grid: all inside the grid, they succeed, a cell
    nobody writes keeps its content and a cell somebody writes holds one of
    the letters written there. *)
Lemma write_all_inside (height width : nat) (ws : list ((nat * nat) * ascii)) :
  ∀ g : Grid,
    grid_shape height width g →
    (∀ i j c, ((i, j), c) ∈ ws → i < height ∧ j < width) →
    ∃ g', write_all ws g = Ok g' ∧ grid_shape height width g' ∧
      ∀ i j,
        ((∀ c, ((i, j), c) ∉ ws) → grid_get g' i j = grid_get g i j) ∧
        (∀ c0, ((i, j), c0) ∈ ws →
               ∃ c, ((i, j), c) ∈ ws ∧ grid_get g' i j = Some (Some c)).
Proof.
  induction ws as [|[[i0 j0] c0] ws IH]; intros g Hshape Hin.
  - exists g. split_and!; [done..|]. intros i j. split; [done|].
    by intros c ?%elem_of_nil.
  - destruct (Hin i0 j0 c0) as [Hi0 Hj0]; [left|].
    destruct (set_cell_inside height width g i0 j0 c0 Hshape Hi0 Hj0)
      as (g1 & Hset & Hshape1 & Hhere & Hother).
    destruct (IH g1 Hshape1) as (g' & Hrun & Hshape' & Hcells).
    { intros i j c Hc. apply (Hin i j c). by right. }
    exists g'. cbn [write_all]. rewrite Hset. split_and!; [done..|].
    intros i j. destruct (Hcells i j) as [Hkeep Hset'].
    split.
    + intros Hnone. rewrite Hkeep.
      * apply Hother. intros [= -> ->]. apply (Hnone c0). left.
      * intros c Hc. apply (Hnone c). by right.
    + intros c1 Hc1.
      assert ((∃ c, ((i, j), c) ∈ ws) ∨ (∀ c, ((i, j), c) ∉ ws)) as [[c Hc]|Hno].
      { destruct (decide (Exists (λ p, p.1 = (i, j)) ws)) as [He|Hn].
        - left. apply Exists_exists in He as ([[i' j'] c] & Hin' & Heq).
          cbn in Heq. injection Heq as -> ->. by exists c.
        - right. intros c Hc. apply Hn, Exists_exists. by exists ((i, j), c). }
      * destruct (Hset' c Hc) as (c' & Hc' & Hget). exists c'. split; [by right|done].
      * apply elem_of_cons in Hc1 as [[= -> -> ->]|Hc1]; [|by destruct (Hno c1)].
        exists c0. split; [left|]. by rewrite Hkeep.
Qed.

Lemma write_all_outside (height width : nat) (ws : list ((nat * nat) * ascii)) :
  ∀ g : Grid,
    grid_shape height width g →
    (∃ i j c, ((i, j), c) ∈ ws ∧ ¬ (i < height ∧ j < width)) →
    write_all ws g = Raise IndexError.
Proof.
  induction ws as [|[[i0 j0] c0] ws IH]; intros g Hshape (i & j & c & Hin & Hout).
  - by apply elem_of_nil in Hin.
  - cbn [write_all].
    destruct (decide (i0 < height ∧ j0 < width)) as [[Hi0 Hj0]|Hout0].
    + destruct (set_cell_inside height width g i0 j0 c0 Hshape Hi0 Hj0)
        as (g1 & -> & Hshape1 & _).
      apply IH; [done|]. exists i, j, c. split; [|done].
      apply elem_of_cons in Hin as [[= -> -> ->]|Hin]; [|done]. by destruct Hout.
    + by rewrite (set_cell_outside height width).
Qed.

Lemma written_inside_dec (height width : nat) (a : Assignment) :
  (∀ i j c, writes a i j c → i < height ∧ j < width) ∨
  (∃ i j c, writes a i j c ∧ ¬ (i < height ∧ j < width)).
Proof.
  destruct (decide (Forall (λ p, p.1.1 < height ∧ p.1.2 < width) (written a)))
    as [Hall|Hex].
  - left. intros i j c Hw%writes_written.
    rewrite Forall_forall in Hall. apply (Hall ((i, j), c) Hw).
  - right. apply not_Forall_Exists in Hex; [|apply _].
    apply Exists_exists in Hex as ([[i j] c] & Hin & Hout).
    exists i, j, c. split; [by apply written_writes|done].
Qed.

Lemma letter_grid_cells (height width : nat) (a : Assignment) (g : Grid) :
  letter_grid height width a = Ok g →
  grid_shape height width g ∧
  (∀ i j c, writes a i j c → i < height ∧ j < width) ∧
  ∀ i j, i < height → j < width →
    ((∀ c, ¬ writes a i j c) → grid_get g i j = Some None) ∧
    (∀ c0, writes a i j c0 →
           ∃ c, writes a i j c ∧ grid_get g i j = Some (Some c)).
Proof.
  rewrite letter_grid_write_all. intros Hrun.
  destruct (written_inside_dec height width a) as [Hin|Hout].
  - destruct (write_all_inside height width (written a) _
                (grid_shape_blank height width)) as (g' & Hrun' & Hshape & Hcells).
    { intros i j c Hw%written_writes. by apply (Hin i j c). }
    assert (g' = g) as -> by congruence.
    split_and!; [done..|]. intros i j Hi Hj. destruct (Hcells i j) as [Hkeep Hset].
    split.
    + intros Hno. rewrite Hkeep; [by apply grid_get_blank|].
      intros c Hc%written_writes. by apply (Hno c).
    + intros c0 Hc0%writes_written. destruct (Hset c0 Hc0) as (c & Hc & Hget).
      exists c. split; [by apply written_writes|done].
  - rewrite (write_all_outside height width) in Hrun;
      [done|apply grid_shape_blank|].
    destruct Hout as (i & j & c & Hw & Hout). exists i, j, c.
    split; [by apply writes_written|done].
Qed.

Lemma letter_grid_agreeing (height width : nat) (a : Assignment) (g : Grid) :
  letter_grid height width a = Ok g →
  (∀ i j c c', writes a i j c → writes a i j c' → c = c') →
  ∀ i j c, writes a i j c → grid_get g i j = Some (Some c).
Proof.
  intros Hrun Hagree i j c Hw.
  destruct (letter_grid_cells _ _ _ _ Hrun) as (_ & Hin & Hcells).
  destruct (Hin _ _ _ Hw) as [Hi Hj].
  destruct (Hcells i j Hi Hj) as [_ Hset].
  destruct (Hset c Hw) as (c' & Hw' & ->). by rewrite (Hagree i j c c').
Qed.

Lemma cell_of_inj (v : Var) (k l : nat) : cell_of v k = cell_of v l → k = l.
Proof. unfold cell_of. destruct (var_direction v); intros [= ]; lia. Qed.

Lemma string_get_Some_lt (w : string) (k : nat) (c : ascii) :
  String.get k w = Some c → k < String.length w.
Proof.
  revert k. induction w as [|a w IH]; intros [|k] Hk; cbn in *; try done; [lia|].
  apply IH in Hk. lia.
Qed.

(** X1. [letter_grid] returns a grid when every letter of every assigned word
    falls inside the [height] by [width] grid, and the grid has that many
    rows and columns. *)
Theorem letter_grid_inside (height width : nat) (a : Assignment) :
  (∀ i j c, writes a i j c → i < height ∧ j < width) →
  ∃ g, letter_grid height width a = Ok g ∧ grid_shape height width g.
Proof.
  intros Hin. rewrite letter_grid_write_all.
  destruct (write_all_inside height width (written a) _
              (grid_shape_blank height width)) as (g & Hrun & Hshape & _).
  { intros i j c Hw%written_writes. by apply (Hin i j c). }
  by exists g.
Qed.

(** X2. [letter_grid] raises [IndexError] when a letter of an assigned word
    falls outside the grid. *)
Theorem letter_grid_outside (height width : nat) (a : Assignment) :
  (∃ i j c, writes a i j c ∧ ¬ (i < height ∧ j < width)) →
  letter_grid height width a = Raise IndexError.
Proof.
  intros (i & j & c & Hw & Hout). rewrite letter_grid_write_all.
  apply (write_all_outside height width); [apply grid_shape_blank|].
  exists i, j, c. split; [by apply writes_written|done].
Qed.

(** X3. Every cell of the grid [letter_grid] returns holds a letter that some
    assigned word puts there, or [None] when no assigned word reaches it. *)
Theorem letter_grid_provenance (height width : nat) (a : Assignment) (g : Grid) :
  letter_grid height width a = Ok g →
  ∀ i j, i < height → j < width →
    (∃ c, grid_get g i j = Some (Some c) ∧ writes a i j c) ∨
    (grid_get g i j = Some None ∧ ∀ c, ¬ writes a i j c).
Proof.
  intros Hrun i j Hi Hj.
  destruct (letter_grid_cells _ _ _ _ Hrun) as (_ & _ & Hcells).
  destruct (Hcells i j Hi Hj) as [Hkeep Hset].
  destruct (decide (Exists (λ p, p.1 = (i, j)) (written a))) as [He|Hn].
  - left. apply Exists_exists in He as ([[i' j'] c0] & Hin & Heq).
    cbn in Heq. injection Heq as -> ->. apply written_writes in Hin.
    destruct (Hset c0 Hin) as (c & Hc & Hget). by exists c.
  - right. assert (∀ c, ¬ writes a i j c) as Hno.
    { intros c Hc%writes_written. apply Hn, Exists_exists. by exists ((i, j), c). }
    split; [by apply Hkeep|done].
Qed.

(** X4. When the assigned words agree wherever they share a cell, the grid
    shows every letter of every assigned word in its cell. *)
Theorem letter_grid_round_trip (height width : nat) (a : Assignment) (g : Grid) :
  letter_grid height width a = Ok g →
  (∀ i j c c', writes a i j c → writes a i j c' → c = c') →
  ∀ variable word k c,
    a !! variable = Some word → String.get k word = Some c →
    grid_get g (cell_of variable k).1 (cell_of variable k).2 = Some (Some c).
Proof.
  intros Hrun Hagree v word k c Hv Hk.
  eapply letter_grid_agreeing; [done..|].
  exists v, word, k. split_and!; [done..|]. by destruct (cell_of v k).
Qed.

(** X5. The grid of a consistent assignment shows every assigned word, when
    the overlap table knows every cell two slots share. *)
Theorem letter_grid_of_consistent (cw : Crossword) (height width : nat)
    (a : Assignment) (g : Grid) :
  overlaps_cover cw → dom a ⊆ variables cw → consistent_spec cw a →
  letter_grid height width a = Ok g →
  ∀ variable word k c,
    a !! variable = Some word → String.get k word = Some c →
    grid_get g (cell_of variable k).1 (cell_of variable k).2 = Some (Some c).
Proof.
  intros Hcover Hdom (_ & Hlen & Hagree) Hrun v word k c Hv Hk.
  eapply letter_grid_agreeing; [done| |].
  - clear v word k c Hv Hk.
    intros i j c c' (v & word & k & Hv & Hk & Hcell) (v' & word' & k' & Hv' & Hk' & Hcell').
    destruct (decide (v = v')) as [<-|Hne].
    + assert (word' = word) as -> by congruence.
      assert (k' = k) as ->; [|congruence].
      apply (cell_of_inj v). congruence.
    + assert (overlaps cw v v' = Some (k, k')) as Ho.
      { apply Hcover; [by apply Hdom; eapply elem_of_dom_2..|done| | |congruence].
        - rewrite <-(Hlen _ _ Hv). by eapply string_get_Some_lt.
        - rewrite <-(Hlen _ _ Hv'). by eapply string_get_Some_lt. }
      destruct (Hagree _ _ _ _ _ _ Hne Hv Hv' Ho) as (c0 & H1 & H2). congruence.
  - exists v, word, k. split_and!; [done..|]. by destruct (cell_of v k).
Qed.

(** *** The grid of [cross_solution] *)

Lemma writes_check (P : nat → nat → ascii → Prop) (a : Assignment) :
  Forall (λ p, P p.1.1 p.1.2 p.2) (written a) →
  ∀ i j c, writes a i j c → P i j c.
Proof.
  rewrite Forall_forall. intros Hall i j c Hw%writes_written.
  apply (Hall ((i, j), c) Hw).
Qed.

Lemma writes_agree_check (a : Assignment) :
  Forall (λ p, Forall (λ q, p.1 = q.1 → p.2 = q.2) (written a)) (written a) →
  ∀ i j c c', writes a i j c → writes a i j c' → c = c'.
Proof.
  rewrite Forall_forall. intros Hall i j c c' Hw%writes_written Hw'%writes_written.
  specialize (Hall _ Hw). rewrite Forall_forall in Hall.
  by apply (Hall _ Hw').
Qed.

Lemma cross_solution_inside :
  ∀ i j c, writes cross_solution i j c → i < 3 ∧ j < 3.
Proof.
  apply (writes_check (λ i j _, i < 3 ∧ j < 3)).
  apply (bool_decide_unpack _). vm_compute. exact I.
Qed.

Lemma cross_letters_run : letter_grid 3 3 cross_solution = Ok cross_letters.
Proof. vm_compute. reflexivity. Qed.

Lemma cross_puzzle_covered : overlaps_cover cross_puzzle.
Proof.
  intros x y k l Hx Hy Hne Hk Hl Hcell. cbn in Hx, Hy. set_unfold.
  destruct Hx as [-> | ->], Hy as [-> | ->]; try done; cbn in Hk, Hl;
    (destruct k as [|[|[|?]]]; try lia); (destruct l as [|[|[|?]]]; try lia);
    vm_compute in Hcell; try discriminate Hcell; vm_compute; reflexivity.
Qed.

Lemma letter_grid_inside_witness :
  (∀ i j c, writes cross_solution i j c → i < 3 ∧ j < 3) ∧
  ∃ g, letter_grid 3 3 cross_solution = Ok g ∧ grid_shape 3 3 g.
Proof.
  split; [exact cross_solution_inside|].
  exact (letter_grid_inside 3 3 cross_solution cross_solution_inside).
Defined.

Lemma letter_grid_outside_witness :
  (∃ i j c, writes cross_solution i j c ∧ ¬ (i < 2 ∧ j < 3)) ∧
  letter_grid 2 3 cross_solution = Raise IndexError.
Proof.
  assert (∃ i j c, writes cross_solution i j c ∧ ¬ (i < 2 ∧ j < 3)) as H.
  { exists 2, 1, "E"%char. split; [|lia].
    exists down3, "ATE", 2. split_and!; vm_compute; reflexivity. }
  split; [exact H|]. exact (letter_grid_outside 2 3 cross_solution H).
Defined.

Lemma letter_grid_provenance_witness :
  letter_grid 3 3 cross_solution = Ok cross_letters ∧
  ∀ i j, i < 3 → j < 3 →
    (∃ c, grid_get cross_letters i j = Some (Some c) ∧ writes cross_solution i j c) ∨
    (grid_get cross_letters i j = Some None ∧ ∀ c, ¬ writes cross_solution i j c).
Proof.
  split; [exact cross_letters_run|].
  exact (letter_grid_provenance 3 3 cross_solution cross_letters cross_letters_run).
Defined.

Lemma letter_grid_round_trip_witness :
  letter_grid 3 3 cross_solution = Ok cross_letters ∧
  (∀ i j c c', writes cross_solution i j c → writes cross_solution i j c' → c = c') ∧
  ∀ variable word k c,
    cross_solution !! variable = Some word → String.get k word = Some c →
    grid_get cross_letters (cell_of variable k).1 (cell_of variable k).2
    = Some (Some c).
Proof.
  assert (∀ i j c c', writes cross_solution i j c →
                      writes cross_solution i j c' → c = c') as Hagree.
  { apply writes_agree_check. apply (bool_decide_unpack _). vm_compute. exact I. }
  split; [exact cross_letters_run|]. split; [exact Hagree|].
  exact (letter_grid_round_trip 3 3 cross_solution cross_letters
           cross_letters_run Hagree).
Defined.

Lemma letter_grid_of_consistent_witness :
  overlaps_cover cross_puzzle ∧ dom cross_solution ⊆ variables cross_puzzle ∧
  consistent_spec cross_puzzle cross_solution ∧
  letter_grid 3 3 cross_solution = Ok cross_letters ∧
  ∀ variable word k c,
    cross_solution !! variable = Some word → String.get k word = Some c →
    grid_get cross_letters (cell_of variable k).1 (cell_of variable k).2
    = Some (Some c).
Proof.
  assert (dom cross_solution ⊆ variables cross_puzzle) as Hdom.
  { apply (bool_decide_unpack _). vm_compute. exact I. }
  assert (consistent_spec cross_puzzle cross_solution) as Hcons.
  { apply cross_solution_is_solution. }
  split_and!; [exact cross_puzzle_covered|exact Hdom|exact Hcons|
               exact cross_letters_run|].
  exact (letter_grid_of_consistent cross_puzzle 3 3 cross_solution cross_letters
           cross_puzzle_covered Hdom Hcons cross_letters_run).
Defined.

(** * Further properties of the code *)

(** ** Node consistency *)

(** X6. [enforce_node_consistency] raises nothing on any store; it keeps the
    keys, and leaves in each domain exactly the words that have the length
    of the slot. *)
Theorem enforce_node_consistency_filters (D : Domains) :
  ∃ D', enforce_node_consistency D = (D', Ok tt) ∧ dom D' = dom D ∧
    ∀ v dv, D !! v = Some dv →
      ∃ dv', D' !! v = Some dv' ∧
        ∀ w, w ∈ dv' ↔ w ∈ dv ∧ String.length w = var_length v.
Proof.
  unfold enforce_node_consistency.
  destruct (node_vars_spec (domain_keys D) D) as (D' & Hrun & Hdom & Hl).
  { intros v. by rewrite elem_of_domain_keys. }
  exists D'. split_and!; [done..|]. intros v dv Hv.
  exists (filter (right_length v) dv). split.
  - rewrite (Hl _ _ Hv). rewrite decide_True; [done|].
    apply elem_of_domain_keys. by eapply elem_of_dom_2.
  - intros w. rewrite elem_of_filter. unfold right_length. tauto.
Qed.

Lemma enforce_node_consistency_exact (D : Domains) :
  ∃ D', enforce_node_consistency D = (D', Ok tt) ∧
    ∀ v, D' !! v = filter (right_length v) <$> D !! v.
Proof.
  unfold enforce_node_consistency.
  destruct (node_vars_spec (domain_keys D) D) as (D' & Hrun & Hdom & Hl).
  { intros v. by rewrite elem_of_domain_keys. }
  exists D'. split; [done|]. intros v.
  destruct (D !! v) as [dv|] eqn:Hv; cbn.
  - rewrite (Hl _ _ Hv). rewrite decide_True; [done|].
    apply elem_of_domain_keys. by eapply elem_of_dom_2.
  - apply not_elem_of_dom. rewrite Hdom. by apply not_elem_of_dom.
Qed.

(** X7. Node consistency is idempotent: a second pass changes nothing. *)
Theorem enforce_node_consistency_idempotent (D D1 : Domains) :
  enforce_node_consistency D = (D1, Ok tt) →
  enforce_node_consistency D1 = (D1, Ok tt).
Proof.
  intros Hrun.
  destruct (enforce_node_consistency_exact D) as (D1' & Hrun1 & H1).
  assert (D1' = D1) as -> by congruence.
  destruct (enforce_node_consistency_exact D1) as (D2 & Hrun2 & H2).
  rewrite Hrun2. f_equal. apply map_eq. intros v. rewrite H2, H1.
  destruct (D !! v) as [dv|]; [|done]. cbn. f_equal.
  apply set_eq. intros w. rewrite !elem_of_filter. tauto.
Qed.

Lemma enforce_node_consistency_idempotent_witness :
  enforce_node_consistency (init_domains cross_puzzle) = (cross_store, Ok tt) ∧
  enforce_node_consistency cross_store = (cross_store, Ok tt).
Proof.
  assert (enforce_node_consistency (init_domains cross_puzzle)
          = (cross_store, Ok tt)) as H by (vm_compute; reflexivity).
  split; [exact H|]. exact (enforce_node_consistency_idempotent _ _ H).
Defined.

(** ** [revise] *)

Section Revise_more.

Context (cw : Crossword).

Lemma find_match_raises wx i_x i_y ws e :
  find_match wx i_x i_y ws = Raise e → e = IndexError.
Proof.
  induction ws as [|wy ws IH]; cbn; [done|]. unfold char_at.
  destruct (String.get i_x wx); [|congruence].
  destruct (String.get i_y wy); [|congruence].
  case_decide; [done|apply IH].
Qed.

Lemma find_match_short wx i_x i_y ws :
  ws ≠ [] → String.length wx ≤ i_x →
  find_match wx i_x i_y ws = Raise IndexError.
Proof.
  intros Hne Hshort. destruct ws as [|wy ws]; [done|]. cbn. unfold char_at.
  destruct (String.get i_x wx) as [c|] eqn:Hc; [|done].
  apply string_get_Some_lt in Hc. lia.
Qed.

Lemma revise_loop_short x y i_x i_y dy l w :
  x ≠ y → dy ≠ ∅ → w ∈ l → String.length w ≤ i_x →
  ∀ flag D, D !! y = Some dy →
    ∃ D', revise_loop x y i_x i_y l flag D = (D', Raise IndexError).
Proof.
  intros Hxy Hdy Hw Hshort. induction l as [|w0 l IH]; intros flag D HDy.
  { by apply elem_of_nil in Hw. }
  cbn [revise_loop]. unfold bind at 1, get_domain. rewrite HDy.
  unfold bind at 1, lift.
  destruct (find_match w0 i_x i_y (elements dy)) as [[]|e|] eqn:Hfm.
  - apply elem_of_cons in Hw as [->|Hw]; [|by apply IH].
    rewrite find_match_short in Hfm; [done| |done].
    by intros ?%elements_empty_iff%leibniz_equiv.
  - apply elem_of_cons in Hw as [->|Hw].
    + rewrite find_match_short in Hfm; [done| |done].
      by intros ?%elements_empty_iff%leibniz_equiv.
    + unfold bind at 1, remove_word. apply IH; [done|].
      by rewrite lookup_alter_ne.
  - apply find_match_raises in Hfm as ->. by eexists.
  - exfalso. clear -Hfm. induction (elements dy) as [|wy ws IHws]; [done|].
    cbn in Hfm. unfold char_at in Hfm.
    destruct (String.get i_x w0); [|done].
    destruct (String.get i_y wy); [|done]. by case_decide.
Qed.

End Revise_more.

(** X8. [revise(x, y)] raises [IndexError] when [domain(x)] has a word too
    short for the overlap offset and [domain(y)] is not empty: the store
    must have been made node-consistent first. *)
Theorem revise_index_error (cw : Crossword) (D : Domains) (x y : Var)
    (i_x i_y : nat) (dx dy : gset string) (w : string) :
  x ≠ y → overlaps cw x y = Some (i_x, i_y) →
  D !! x = Some dx → D !! y = Some dy → dy ≠ ∅ →
  w ∈ dx → String.length w ≤ i_x →
  ∃ D', revise cw x y D = (D', Raise IndexError).
Proof.
  intros Hxy Ho Hdx Hdy Hne Hw Hshort. unfold revise. rewrite Ho.
  unfold bind at 1, get_domain. rewrite Hdx. unfold bind at 1.
  destruct (revise_loop_short x y i_x i_y dy (elements dx) w Hxy Hne) with
    (flag := false) (D := D) as [D' ->]; [by apply elem_of_elements|done..|].
  by exists D'.
Qed.

Lemma revise_index_error_witness :
  across3 ≠ down3 ∧ overlaps short_puzzle across3 down3 = Some (1, 0) ∧
  init_domains short_puzzle !! across3 = Some {["CAT"; "ATE"; "A"]} ∧
  init_domains short_puzzle !! down3 = Some {["CAT"; "ATE"; "A"]} ∧
  ({["CAT"; "ATE"; "A"]} : gset string) ≠ ∅ ∧
  "A" ∈ ({["CAT"; "ATE"; "A"]} : gset string) ∧
  String.length "A" ≤ 1 ∧
  ∃ D', revise short_puzzle across3 down3 (init_domains short_puzzle)
        = (D', Raise IndexError).
Proof.
  assert (across3 ≠ down3) as Hne by discriminate.
  assert (overlaps short_puzzle across3 down3 = Some (1, 0)) as Ho
    by (vm_compute; reflexivity).
  assert (init_domains short_puzzle !! across3 = Some {["CAT"; "ATE"; "A"]}) as Hx
    by (vm_compute; reflexivity).
  assert (init_domains short_puzzle !! down3 = Some {["CAT"; "ATE"; "A"]}) as Hy
    by (vm_compute; reflexivity).
  assert (({["CAT"; "ATE"; "A"]} : gset string) ≠ ∅) as Hdy.
  { apply (non_empty_inhabited_L "A"). set_solver. }
  assert ("A" ∈ ({["CAT"; "ATE"; "A"]} : gset string)) as Hw by set_solver.
  assert (String.length "A" ≤ 1) as Hs by (cbn; lia).
  split_and!; [exact Hne|exact Ho|exact Hx|exact Hy|exact Hdy|exact Hw|exact Hs|].
  exact (revise_index_error short_puzzle (init_domains short_puzzle) across3 down3
           1 0 _ _ "A" Hne Ho Hx Hy Hdy Hw Hs).
Defined.

(** X9. [revise] is idempotent: once [revise(x, y)] has returned, a second
    call returns [False] and changes nothing. *)
Theorem revise_idempotent (cw : Crossword) (D D1 : Domains) (x y : Var) (b : bool) :
  x ≠ y → x ∈ dom D → y ∈ dom D →
  revise cw x y D = (D1, Ok b) →
  revise cw x y D1 = (D1, Ok false).
Proof.
  intros Hxy [dx Hdx]%elem_of_dom [dy Hdy]%elem_of_dom Hrun.
  destruct (overlaps cw x y) as [[i_x i_y]|] eqn:Ho.
  - destruct (revise_spec cw _ _ _ _ _ _ _ _ _ Hxy Ho Hdx Hdy Hrun)
      as (R & -> & HR & _ & _ & Hok & _).
    destruct (Hok b eq_refl) as [_ Htrue].
    assert (<[x := dx ∖ R]> D !! x = Some (dx ∖ R)) as Hdx1
      by apply lookup_insert_eq.
    assert (<[x := dx ∖ R]> D !! y = Some dy) as Hdy1
      by by rewrite lookup_insert_ne.
    destruct (revise cw x y (<[x := dx ∖ R]> D)) as [D2 r2] eqn:Hrun2.
    destruct (revise_spec cw _ _ _ _ _ _ _ _ _ Hxy Ho Hdx1 Hdy1 Hrun2)
      as (R2 & -> & HR2 & Hfalse2 & _ & Hok2 & Hdef2).
    assert (R2 = ∅) as ->.
    { apply set_eq. intros w. split; [|by intros ?%elem_of_empty].
      intros Hw. pose proof (Hfalse2 _ Hw) as Hf.
      apply HR2, elem_of_difference in Hw as [Hw HwR].
      rewrite (Htrue _ Hw HwR) in Hf. done. }
    destruct Hdef2 as [b2 ->].
    { intros w [Hw HwR]%elem_of_difference. exists true. by apply Htrue. }
    destruct (Hok2 b2 eq_refl) as [-> _].
    rewrite bool_decide_eq_false_2 by (by intros []).
    rewrite difference_empty_L, insert_insert_eq. done.
  - rewrite revise_no_overlap in Hrun by done. injection Hrun as <- <-.
    by apply revise_no_overlap.
Qed.

Lemma revise_idempotent_witness :
  across3 ≠ down3 ∧ across3 ∈ dom cross_store ∧ down3 ∈ dom cross_store ∧
  revise cross_puzzle across3 down3 cross_store
  = ((revise cross_puzzle across3 down3 cross_store).1, Ok true) ∧
  revise cross_puzzle across3 down3
    (revise cross_puzzle across3 down3 cross_store).1
  = ((revise cross_puzzle across3 down3 cross_store).1, Ok false).
Proof.
  assert (across3 ≠ down3) as Hne by discriminate.
  assert (across3 ∈ dom cross_store) as Hx.
  { apply (bool_decide_unpack _). vm_compute. exact I. }
  assert (down3 ∈ dom cross_store) as Hy.
  { apply (bool_decide_unpack _). vm_compute. exact I. }
  assert (revise cross_puzzle across3 down3 cross_store
          = ((revise cross_puzzle across3 down3 cross_store).1, Ok true)) as H
    by (vm_compute; reflexivity).
  split_and!; [exact Hne|exact Hx|exact Hy|exact H|].
  exact (revise_idempotent cross_puzzle cross_store _ across3 down3 true
           Hne Hx Hy H).
Defined.

(** X10. Against an empty [domain(y)], [revise(x, y)] removes every word of
    [domain(x)], whatever their lengths, and returns [True] iff there was
    one. *)
Theorem revise_empty_neighbor (cw : Crossword) (D : Domains) (x y : Var)
    (i_x i_y : nat) (dx : gset string) :
  x ≠ y → overlaps cw x y = Some (i_x, i_y) →
  D !! x = Some dx → D !! y = Some ∅ →
  revise cw x y D = (<[x := ∅]> D, Ok (bool_decide (dx ≠ ∅))).
Proof.
  intros Hxy Ho Hdx Hdy.
  destruct (revise cw x y D) as [D' r] eqn:Hrun.
  destruct (revise_spec cw _ _ _ _ _ _ _ _ _ Hxy Ho Hdx Hdy Hrun)
    as (R & -> & HR & _ & _ & Hok & Hdef).
  rewrite elements_empty in Hok, Hdef.
  destruct Hdef as [b ->]; [by exists false|].
  destruct (Hok b eq_refl) as [-> Htrue].
  assert (R = dx) as ->.
  { apply set_eq. intros w. split; [apply HR|]. intros Hw.
    destruct (decide (w ∈ R)) as [|Hn]; [done|].
    by specialize (Htrue w Hw Hn). }
  by rewrite difference_diag_L.
Qed.

Lemma revise_empty_neighbor_witness :
  across3 ≠ down3 ∧ overlaps cross_puzzle across3 down3 = Some (1, 0) ∧
  empty_down_store !! across3 = Some {["CAT"; "DOG"]} ∧
  empty_down_store !! down3 = Some ∅ ∧
  revise cross_puzzle across3 down3 empty_down_store
  = (<[across3 := ∅]> empty_down_store,
     Ok (bool_decide (({["CAT"; "DOG"]} : gset string) ≠ ∅))).
Proof.
  assert (across3 ≠ down3) as Hne by discriminate.
  assert (overlaps cross_puzzle across3 down3 = Some (1, 0)) as Ho
    by (vm_compute; reflexivity).
  assert (empty_down_store !! across3 = Some {["CAT"; "DOG"]}) as Hx
    by (vm_compute; reflexivity).
  assert (empty_down_store !! down3 = Some ∅) as Hy by (vm_compute; reflexivity).
  split_and!; [exact Hne|exact Ho|exact Hx|exact Hy|].
  exact (revise_empty_neighbor cross_puzzle empty_down_store across3 down3 1 0 _
           Hne Ho Hx Hy).
Defined.

(** ** [ac3] *)

Lemma ac3_fixpoint_supported (cw : Crossword) (D D1 : Domains) :
  ac3 cw None D = (D1, Ok true) →
  ∀ x y i_x i_y dx dy wx,
    x ≠ y → overlaps cw x y = Some (i_x, i_y) →
    D1 !! x = Some dx → D1 !! y = Some dy → wx ∈ dx →
    ∃ wy, wy ∈ dy ∧ agree i_x i_y wx wy.
Proof.
  unfold ac3. intros Hrun x y i_x i_y dx dy wx Hxy Ho Hdx Hdy Hwx.
  assert (arc_consistent cw D1 x y) as Hcons.
  { eapply (ac3_loop_fixpoint cw _ (all_arcs D) D D1); [done| |done|].
    - intros a b Hab Hnot. done.
    - apply elem_of_all_arcs. split_and!; [by eapply elem_of_dom_2..|done]. }
  destruct (find_match_true wx i_x i_y (elements dy)) as (wy & Hwy & Hag).
  { by eapply Hcons. }
  exists wy. split; [by apply elem_of_elements|done].
Qed.

(** X11. When [ac3], called with the default arc set, returns [True], the
    store is arc consistent: across every overlap of two slots, each word of
    one domain has a compatible word in the other. *)
Theorem ac3_arc_consistent (cw : Crossword) (D D1 : Domains) :
  ac3 cw None D = (D1, Ok true) →
  ∀ x y i_x i_y dx dy wx,
    x ≠ y → overlaps cw x y = Some (i_x, i_y) →
    D1 !! x = Some dx → D1 !! y = Some dy → wx ∈ dx →
    ∃ wy, wy ∈ dy ∧ agree i_x i_y wx wy.
Proof. apply ac3_fixpoint_supported. Qed.

Lemma cross_fixpoint_run :
  ac3 cross_puzzle None cross_store = (cross_fixpoint, Ok true).
Proof. vm_compute. reflexivity. Qed.

Lemma ac3_arc_consistent_witness :
  ac3 cross_puzzle None cross_store = (cross_fixpoint, Ok true) ∧
  ∀ x y i_x i_y dx dy wx,
    x ≠ y → overlaps cross_puzzle x y = Some (i_x, i_y) →
    cross_fixpoint !! x = Some dx → cross_fixpoint !! y = Some dy → wx ∈ dx →
    ∃ wy, wy ∈ dy ∧ agree i_x i_y wx wy.
Proof.
  split; [exact cross_fixpoint_run|].
  exact (ac3_arc_consistent cross_puzzle cross_store cross_fixpoint
           cross_fixpoint_run).
Defined.

(** X12. [ac3] never removes a word of a solution: if every word a solution
    assigns is in the store before the call, it is in the store after it,
    whatever arcs of the store the call starts from and whatever it
    produces. *)
Theorem ac3_keeps_solutions (cw : Crossword) (arcs : option (gset Arc))
    (D D' : Domains) (r : result bool) (s : Assignment) :
  arcs_of_store arcs D → dom D = variables cw → solution cw s →
  (∀ v w, s !! v = Some w → ∃ dv, D !! v = Some dv ∧ w ∈ dv) →
  ac3 cw arcs D = (D', r) →
  ∀ v w, s !! v = Some w → ∃ dv', D' !! v = Some dv' ∧ w ∈ dv'.
Proof.
  intros Harcs Hdom Hs Hin Hrun.
  destruct (ac3_inv cw (λ v w, s !! v = Some w) arcs D Harcs)
    as (D1 & r1 & Hrun1 & _ & _ & Hwithin & _); [|done|].
  - intros x y i_x i_y wx Hx Hy Hne Ho Hsx.
    destruct Hs as (Hsd & _ & _ & _ & Hagree).
    assert (is_Some (s !! y)) as [wy Hsy].
    { apply elem_of_dom. by rewrite Hsd, <-Hdom. }
    exists wy. split; [done|]. by eapply Hagree.
  - assert (D1 = D') as -> by congruence. done.
Qed.

Lemma ac3_keeps_solutions_witness :
  arcs_of_store None cross_store ∧ dom cross_store = variables cross_puzzle ∧
  solution cross_puzzle cross_solution ∧
  (∀ v w, cross_solution !! v = Some w →
          ∃ dv, cross_store !! v = Some dv ∧ w ∈ dv) ∧
  ∀ v w, cross_solution !! v = Some w →
         ∃ dv', cross_fixpoint !! v = Some dv' ∧ w ∈ dv'.
Proof.
  assert (dom cross_store = variables cross_puzzle) as Hdom
    by (vm_compute; reflexivity).
  assert (∀ v w, cross_solution !! v = Some w →
                 ∃ dv, cross_store !! v = Some dv ∧ w ∈ dv) as Hin.
  { intros v w Hv. destruct (node_store_inv cross_puzzle) as (_ & _ & _ & Hsol).
    apply Hsol. exists cross_solution. split; [apply cross_solution_is_solution|done]. }
  split_and!; [exact (arcs_of_store_default cross_store)|exact Hdom
               |exact cross_solution_is_solution|exact Hin|].
  exact (ac3_keeps_solutions cross_puzzle None cross_store cross_fixpoint (Ok true)
           cross_solution (arcs_of_store_default cross_store) Hdom
           cross_solution_is_solution Hin cross_fixpoint_run).
Defined.

Lemma ac3_supported_stable (cw : Crossword) (arcs : option (gset Arc))
    (D : Domains) :
  arcs_of_store arcs D → indexable cw D →
  (∀ x y i_x i_y dx dy wx,
     x ≠ y → overlaps cw x y = Some (i_x, i_y) →
     D !! x = Some dx → D !! y = Some dy → wx ∈ dx →
     ∃ wy, wy ∈ dy ∧ agree i_x i_y wx wy) →
  ac3 cw arcs D = (D, Ok true).
Proof.
  intros Harcs Hidx Hsup. unfold ac3.
  set (A := match arcs with None => all_arcs D | Some A => A end).
  assert (A ⊆ all_arcs D) as HA.
  { subst A. destruct arcs as [A|]; [by apply Harcs|done]. }
  apply ac3_loop_stable; [done| |unfold ac3_fuel; lia].
  intros x y (_ & _ & Hxy)%HA%elem_of_all_arcs i_x i_y dx dy wx Ho Hdx Hdy Hwx.
  erewrite find_match_indexable by done. f_equal.
  apply bool_decide_eq_true. destruct (Hsup _ _ _ _ _ _ _ Hxy Ho Hdx Hdy Hwx)
    as (wy & Hwy & Hag). by exists wy.
Qed.

(** X13. On an arc-consistent store where [word[k]] is defined, [ac3] removes
    nothing and returns [True], from the default arcs or from any arcs of
    the store. *)
Theorem ac3_stable (cw : Crossword) (arcs : option (gset Arc)) (D : Domains) :
  arcs_of_store arcs D → indexable cw D →
  (∀ x y i_x i_y dx dy wx,
     x ≠ y → overlaps cw x y = Some (i_x, i_y) →
     D !! x = Some dx → D !! y = Some dy → wx ∈ dx →
     ∃ wy, wy ∈ dy ∧ agree i_x i_y wx wy) →
  ac3 cw arcs D = (D, Ok true).
Proof. apply ac3_supported_stable. Qed.

Lemma cross_fixpoint_indexable : indexable cross_puzzle cross_fixpoint.
Proof.
  destruct (ac3_inv cross_puzzle (λ _ _, False) None cross_store)
    as (D' & r & Hrun & _ & Hsh & _).
  - apply arcs_of_store_default.
  - by intros x y i_x i_y wx _ _ _ _ [].
  - by intros v w [].
  - unfold cross_fixpoint. rewrite Hrun. cbn [fst].
    eapply indexable_shrinks; [done|apply cross_store_indexable].
Qed.

Lemma ac3_stable_witness :
  arcs_of_store (Some (unassigned_arcs ∅ cross_fixpoint)) cross_fixpoint ∧
  indexable cross_puzzle cross_fixpoint ∧
  (∀ x y i_x i_y dx dy wx,
     x ≠ y → overlaps cross_puzzle x y = Some (i_x, i_y) →
     cross_fixpoint !! x = Some dx → cross_fixpoint !! y = Some dy → wx ∈ dx →
     ∃ wy, wy ∈ dy ∧ agree i_x i_y wx wy) ∧
  ac3 cross_puzzle (Some (unassigned_arcs ∅ cross_fixpoint)) cross_fixpoint
  = (cross_fixpoint, Ok true).
Proof.
  split_and!; [exact (arcs_of_store_unassigned ∅ cross_fixpoint)
               |exact cross_fixpoint_indexable
               |exact (ac3_fixpoint_supported _ _ _ cross_fixpoint_run)|].
  exact (ac3_stable cross_puzzle _ cross_fixpoint
           (arcs_of_store_unassigned ∅ cross_fixpoint) cross_fixpoint_indexable
           (ac3_fixpoint_supported _ _ _ cross_fixpoint_run)).
Defined.

(** ** [consistent] *)

(** X14. Once [consistent] rejects an assignment, it rejects every assignment
    that extends it: the search loses nothing by dropping the branch. *)
Theorem consistent_rejects_extensions (cw : Crossword) (a a' : Assignment)
    (D : Domains) :
  well_formed cw → dom a' ⊆ variables cw → a ⊆ a' →
  consistent cw a D = (D, Ok false) →
  consistent cw a' D = (D, Ok false).
Proof.
  intros Hwf Hdom Hsub Hrun.
  assert (dom a ⊆ variables cw) as Hdoma.
  { etrans; [|done]. by apply subseteq_dom. }
  destruct (consistent_spec_iff cw a D Hwf Hdoma) as (b & Hb & Hiff).
  destruct (consistent_spec_iff cw a' D Hwf Hdom) as (b' & Hb' & Hiff').
  rewrite Hb'. destruct b'; [|done].
  assert (b = true); [|congruence].
  apply Hiff. eapply consistent_spec_subseteq; [done|]. by apply Hiff'.
Qed.

Lemma consistent_rejects_extensions_witness :
  well_formed cross_puzzle ∧
  dom (<[across3 := "DO"]> {[down3 := "ATE"]} : Assignment)
    ⊆ variables cross_puzzle ∧
  (<[across3 := "DO"]> ∅ : Assignment) ⊆ <[across3 := "DO"]> {[down3 := "ATE"]} ∧
  consistent cross_puzzle (<[across3 := "DO"]> ∅) cross_store
  = (cross_store, Ok false) ∧
  consistent cross_puzzle (<[across3 := "DO"]> {[down3 := "ATE"]}) cross_store
  = (cross_store, Ok false).
Proof.
  assert (dom (<[across3 := "DO"]> {[down3 := "ATE"]} : Assignment)
            ⊆ variables cross_puzzle) as Hdom.
  { apply (bool_decide_unpack _). vm_compute. exact I. }
  assert ((<[across3 := "DO"]> ∅ : Assignment)
            ⊆ <[across3 := "DO"]> {[down3 := "ATE"]}) as Hsub.
  { apply insert_mono, map_empty_subseteq. }
  assert (consistent cross_puzzle (<[across3 := "DO"]> ∅) cross_store
          = (cross_store, Ok false)) as Hrun by (vm_compute; reflexivity).
  split_and!; [exact cross_puzzle_well_formed|exact Hdom|exact Hsub|exact Hrun|].
  exact (consistent_rejects_extensions cross_puzzle _ _ cross_store
           cross_puzzle_well_formed Hdom Hsub Hrun).
Defined.

(** ** The heuristics *)

(** X15. [select_unassigned_variable] raises [IndexError] exactly when no
    slot of the store is left unassigned; otherwise it returns a slot, and
    in both cases it leaves the store alone. *)
Theorem select_unassigned_variable_error (cw : Crossword) (a : Assignment)
    (D : Domains) :
  (dom D ⊆ dom a → select_unassigned_variable cw a D = (D, Raise IndexError)) ∧
  (¬ dom D ⊆ dom a → ∃ var, select_unassigned_variable cw a D = (D, Ok var)).
Proof.
  split.
  - intros Hsub. unfold select_unassigned_variable.
    assert (dom D ∖ dom a = ∅) as -> by (clear -Hsub; set_solver).
    by rewrite elements_empty.
  - intros Hnot.
    destruct (select_unassigned_variable_spec cw a D) as (var & Hrun & _).
    + intros Hempty. apply Hnot. intros v Hv.
      destruct (decide (v ∈ dom a)) as [|Hn]; [done|].
      assert (v ∈ dom D ∖ dom a) as Hin by (by apply elem_of_difference).
      rewrite Hempty in Hin. by apply elem_of_empty in Hin.
    + by exists var.
Qed.

(** X16. The slot [select_unassigned_variable] returns is an unassigned slot of
    the store with the fewest candidate words; among the slots that tie on
    that count it has the fewest neighbors. *)
Theorem select_unassigned_variable_order (cw : Crossword) (a : Assignment)
    (D : Domains) (var : Var) :
  select_unassigned_variable cw a D = (D, Ok var) →
  var ∈ dom D ∧ (var ∉ dom a) ∧
  ∀ x, x ∈ dom D → x ∉ dom a →
    size (D !!! var) < size (D !!! x) ∨
    (size (D !!! var) = size (D !!! x) ∧
     size (neighbors cw var) ≤ size (neighbors cw x)).
Proof. apply select_unassigned_variable_minimal. Qed.

Lemma select_unassigned_variable_order_witness :
  select_unassigned_variable gate_puzzle ∅ gate_store = (gate_store, Ok right_down) ∧
  right_down ∈ dom gate_store ∧ (right_down ∉ dom (∅ : Assignment)) ∧
  ∀ x, x ∈ dom gate_store → x ∉ dom (∅ : Assignment) →
    size (gate_store !!! right_down) < size (gate_store !!! x) ∨
    (size (gate_store !!! right_down) = size (gate_store !!! x) ∧
     size (neighbors gate_puzzle right_down) ≤ size (neighbors gate_puzzle x)).
Proof.
  assert (select_unassigned_variable gate_puzzle ∅ gate_store
          = (gate_store, Ok right_down)) as H by (vm_compute; reflexivity).
  split; [exact H|].
  exact (select_unassigned_variable_order gate_puzzle ∅ gate_store right_down H).
Defined.

Lemma size_filter_elements `{Countable A} (P : A → Prop) `{∀ x, Decision (P x)}
    (X : gset A) :
  size (filter P X) = length (filter P (elements X)).
Proof.
  unfold size, set_size. cbn. apply Permutation_length.
  apply NoDup_Permutation.
  - apply NoDup_elements.
  - apply NoDup_filter, NoDup_elements.
  - intros x. by rewrite elem_of_elements, elem_of_filter, list_elem_of_filter,
      elem_of_elements.
Qed.

Lemma insert_by_sorted {A} (key : A → nat) (a : A) (l : list A) :
  StronglySorted (λ x y, key x ≤ key y) l →
  StronglySorted (λ x y, key x ≤ key y) (insert_by Nat.leb key a l).
Proof.
  induction 1 as [|b l Hs IH Hb]; cbn [insert_by]; [by repeat constructor|].
  destruct (key a <=? key b) eqn:Hab.
  - apply Nat.leb_le in Hab. constructor; [by constructor|].
    constructor; [done|]. eapply Forall_impl; [done|]. intros c Hc. cbn in *. lia.
  - apply Nat.leb_gt in Hab. constructor; [done|].
    rewrite insert_by_perm. constructor; [lia|done].
Qed.

Lemma sorted_by_sorted {A} (key : A → nat) (l : list A) :
  StronglySorted (λ x y, key x ≤ key y) (sorted_by Nat.leb key l).
Proof.
  unfold sorted_by. induction l as [|a l IH]; cbn [foldr]; [constructor|].
  by apply insert_by_sorted.
Qed.

Lemma StronglySorted_keys {A} (f : A → nat) (l : list (A * nat)) :
  Forall (λ p, p.2 = f p.1) l →
  StronglySorted (λ p q, p.2 ≤ q.2) l →
  StronglySorted (λ x y, f x ≤ f y) l.*1.
Proof.
  intros Hf. induction 1 as [|p l Hs IH Hp]; cbn; [constructor|].
  apply Forall_cons in Hf as [Hfp Hfl].
  constructor; [by apply IH|].
  apply Forall_fmap. rewrite Forall_forall in Hp, Hfl |- *.
  intros q Hq. cbn. rewrite <-Hfp, <-(Hfl q Hq). by apply Hp.
Qed.

Section Ordering.

Context (cw : Crossword).

Lemma count_word_spec word_var i_var i_neighbor ws :
  i_var < String.length word_var →
  (∀ w, w ∈ ws → i_neighbor < String.length w) →
  ∀ remove_count,
    count_word word_var i_var i_neighbor ws remove_count
    = Ok (remove_count
          + length (filter (λ w, ¬ agree i_var i_neighbor word_var w) ws)).
Proof.
  intros Hvar. induction ws as [|w ws IH]; intros Hws remove_count;
    cbn [count_word]; [by rewrite filter_nil, Nat.add_0_r|].
  destruct (string_get_lt word_var i_var Hvar) as [c Hc].
  destruct (string_get_lt w i_neighbor) as [c' Hc']; [apply Hws; left|].
  unfold char_at. rewrite Hc, Hc'. rewrite IH by (intros; apply Hws; by right).
  f_equal. rewrite filter_cons.
  destruct (decide (c ≠ c')) as [Hne|Heq].
  - rewrite decide_True; [cbn; lia|].
    intros (c0 & H1 & H2). congruence.
  - rewrite decide_False; [done|]. intros Hn. apply Hn. exists c.
    split; [done|]. apply dec_stable in Heq. by subst.
Qed.

Lemma count_neighbors_spec (D : Domains) (a : Assignment) var word_var ns :
  (∀ n, n ∈ ns → n ∉ dom a →
     ∃ i_var i_n dn, overlaps cw var n = Some (i_var, i_n) ∧
       D !! n = Some dn ∧ i_var < String.length word_var ∧
       ∀ w, w ∈ dn → i_n < String.length w) →
  ∀ remove_count,
    count_neighbors cw D a var word_var ns remove_count
    = Ok (remove_count
          + sum_list (neighbor_conflicts cw D var word_var
                        <$> filter (λ n, n ∉ dom a) ns)).
Proof.
  induction ns as [|n ns IH]; intros Hns remove_count; cbn [count_neighbors].
  { by rewrite filter_nil, Nat.add_0_r. }
  assert (∀ n', n' ∈ ns → n' ∉ dom a →
     ∃ i_var i_n dn, overlaps cw var n' = Some (i_var, i_n) ∧
       D !! n' = Some dn ∧ i_var < String.length word_var ∧
       ∀ w, w ∈ dn → i_n < String.length w) as Hns'.
  { intros n' Hn'. apply Hns. by right. }
  rewrite filter_cons. destruct (decide (n ∈ dom a)) as [Hin|Hnin].
  - rewrite decide_False by (by intros ?). by apply IH.
  - rewrite decide_True by done.
    destruct (Hns n) as (i_var & i_n & dn & Ho & Hdn & Hvar & Hws); [left|done|].
    rewrite Ho, Hdn.
    rewrite count_word_spec; [|done|by intros w ?%elem_of_elements; apply Hws].
    rewrite IH by done. f_equal. cbn [fmap list_fmap sum_list].
    unfold neighbor_conflicts at 2. rewrite Ho.
    unfold conflicts. rewrite size_filter_elements.
    rewrite lookup_total_alt, Hdn. cbn. lia.
Qed.

Lemma rule_out_loop_spec (D : Domains) (a : Assignment) var ws :
  (∀ w, w ∈ ws →
     count_neighbors cw D a var w (elements (neighbors cw var)) 0
     = Ok (ruled_out cw D a var w)) →
  rule_out_loop cw D a var ws = Ok ((λ w, (w, ruled_out cw D a var w)) <$> ws).
Proof.
  induction ws as [|w ws IH]; intros Hws; cbn [rule_out_loop]; [done|].
  rewrite Hws by left. rewrite IH; [done|]. intros w' Hw'. apply Hws. by right.
Qed.

Lemma order_domain_values_sorted (a : Assignment) (D : Domains) var dv :
  well_formed cw → dom D = variables cw → node_consistent D →
  D !! var = Some dv →
  ∃ values, order_domain_values cw var a D = (D, Ok values) ∧
            values ≡ₚ elements dv ∧
            StronglySorted (λ w1 w2, ruled_out cw D a var w1 ≤ ruled_out cw D a var w2)
              values.
Proof.
  intros [Hsym Hrange] Hdom Hnc Hdv.
  assert (var ∈ variables cw) as Hvar.
  { rewrite <-Hdom. by eapply elem_of_dom_2. }
  unfold order_domain_values. unfold bind at 1, get_domain. rewrite Hdv.
  rewrite rule_out_loop_spec.
  - eexists. split; [done|]. split.
    + etrans; [apply fmap_Permutation, sorted_by_perm|].
      rewrite <-list_fmap_compose. by rewrite list_fmap_id.
    + apply (StronglySorted_keys (ruled_out cw D a var)).
      * rewrite (sorted_by_perm Nat.leb snd). by apply Forall_fmap, Forall_true.
      * apply sorted_by_sorted.
  - intros w Hw%elem_of_elements. unfold ruled_out.
    rewrite count_neighbors_spec; [done|].
    intros n (Hn & Hne & [[i_n i_var] Ho])%elem_of_elements%elem_of_neighbors _.
    assert (is_Some (D !! n)) as [dn Hdn].
    { apply elem_of_dom. by rewrite Hdom. }
    pose proof (Hsym _ _ _ _ Hn Hvar Ho) as Ho'.
    destruct (Hrange _ _ _ _ Hvar Hn Ho') as [Hiv Hin].
    exists i_var, i_n, dn. split_and!; [done..| |].
    + by rewrite (Hnc _ _ _ Hdv Hw).
    + intros w' Hw'. by rewrite (Hnc _ _ _ Hdn Hw').
Qed.

End Ordering.

(** X17. On a node-consistent store of a well-formed puzzle,
    [order_domain_values] returns the words of [domain(var)], each once, and
    leaves the store alone. *)
Theorem order_domain_values_permutation (cw : Crossword) (a : Assignment)
    (D : Domains) (var : Var) (dv : gset string) :
  well_formed cw → dom D = variables cw → node_consistent D →
  D !! var = Some dv →
  ∃ values, order_domain_values cw var a D = (D, Ok values) ∧
            NoDup values ∧ ∀ w, w ∈ values ↔ w ∈ dv.
Proof.
  intros Hwf Hdom Hnc Hdv.
  destruct (order_domain_values_spec cw a D var dv Hwf Hdom Hnc Hdv)
    as (values & Hrun & Hperm).
  exists values. split_and!; [done| |].
  - rewrite Hperm. apply NoDup_elements.
  - intros w. by rewrite Hperm, elem_of_elements.
Qed.

(** X18. The list [order_domain_values] returns is in least-constraining
    order: a word comes before every word that rules out more candidate
    words in the domains of the unassigned neighbors of [var]. *)
Theorem order_domain_values_least_constraining (cw : Crossword) (a : Assignment)
    (D : Domains) (var : Var) (dv : gset string) :
  well_formed cw → dom D = variables cw → node_consistent D →
  D !! var = Some dv →
  ∃ values, order_domain_values cw var a D = (D, Ok values) ∧
    StronglySorted
      (λ w1 w2, ruled_out cw D a var w1 ≤ ruled_out cw D a var w2) values.
Proof.
  intros Hwf Hdom Hnc Hdv.
  destruct (order_domain_values_sorted cw a D var dv Hwf Hdom Hnc Hdv)
    as (values & Hrun & _ & Hsorted).
  by exists values.
Qed.

Lemma cross_store_node_consistent : node_consistent cross_store.
Proof. by destruct (node_store_inv cross_puzzle) as (_ & ? & _). Qed.

Lemma cross_store_keys : dom cross_store = variables cross_puzzle.
Proof. by destruct (node_store_inv cross_puzzle) as (? & _). Qed.

Lemma cross_store_across3 : cross_store !! across3 = Some {["CAT"; "ATE"; "DOG"]}.
Proof. vm_compute. reflexivity. Qed.

Lemma order_domain_values_permutation_witness :
  well_formed cross_puzzle ∧ dom cross_store = variables cross_puzzle ∧
  node_consistent cross_store ∧
  cross_store !! across3 = Some {["CAT"; "ATE"; "DOG"]} ∧
  ∃ values, order_domain_values cross_puzzle across3 ∅ cross_store
            = (cross_store, Ok values) ∧
            NoDup values ∧
            ∀ w, w ∈ values ↔ w ∈ ({["CAT"; "ATE"; "DOG"]} : gset string).
Proof.
  split_and!; [exact cross_puzzle_well_formed|exact cross_store_keys
               |exact cross_store_node_consistent|exact cross_store_across3|].
  exact (order_domain_values_permutation cross_puzzle ∅ cross_store across3 _
           cross_puzzle_well_formed cross_store_keys cross_store_node_consistent
           cross_store_across3).
Defined.

Lemma order_domain_values_least_constraining_witness :
  well_formed cross_puzzle ∧ dom cross_store = variables cross_puzzle ∧
  node_consistent cross_store ∧
  cross_store !! across3 = Some {["CAT"; "ATE"; "DOG"]} ∧
  ∃ values, order_domain_values cross_puzzle across3 ∅ cross_store
            = (cross_store, Ok values) ∧
    StronglySorted
      (λ w1 w2, ruled_out cross_puzzle cross_store ∅ across3 w1
                ≤ ruled_out cross_puzzle cross_store ∅ across3 w2) values.
Proof.
  split_and!; [exact cross_puzzle_well_formed|exact cross_store_keys
               |exact cross_store_node_consistent|exact cross_store_across3|].
  exact (order_domain_values_least_constraining cross_puzzle ∅ cross_store across3 _
           cross_puzzle_well_formed cross_store_keys cross_store_node_consistent
           cross_store_across3).
Defined.

(** ** The search on any puzzle *)

Section Any_puzzle.

Context (cw : Crossword).

Lemma consistent_store (a : Assignment) (D D0 : Domains) (r : result bool) :
  consistent cw a D0 = (D0, r) → consistent cw a D = (D, r).
Proof.
  unfold consistent, ret, lift. intros H.
  repeat (case_decide || destruct (check_lengths _)); by injection H as <-.
Qed.

Lemma consistent_keeps_store (a : Assignment) (D : Domains) :
  (consistent cw a D).1 = D.
Proof.
  unfold consistent, ret, lift.
  repeat (case_decide || destruct (check_lengths _)); done.
Qed.

Lemma order_domain_values_keeps_store var (a : Assignment) (D : Domains) :
  (order_domain_values cw var a D).1 = D.
Proof.
  unfold order_domain_values, bind, get_domain.
  destruct (D !! var); [|done]. by destruct (rule_out_loop _ _ _ _ _).
Qed.

Lemma rule_out_loop_keys (D : Domains) (a : Assignment) var ws :
  ∀ items, rule_out_loop cw D a var ws = Ok items → items.*1 = ws.
Proof.
  induction ws as [|w ws IH]; intros items; cbn [rule_out_loop].
  { by intros [= <-]. }
  destruct (count_neighbors _ _ _ _ _ _ _); [|done..].
  destruct (rule_out_loop _ _ _ _ _) as [items'| |]; [|done..].
  intros [= <-]. cbn. f_equal. by apply IH.
Qed.

Lemma order_domain_values_words var (a : Assignment) (D : Domains) values :
  (order_domain_values cw var a D).2 = Ok values →
  ∃ dv, D !! var = Some dv ∧ values ≡ₚ elements dv.
Proof.
  unfold order_domain_values, bind, get_domain.
  destruct (D !! var) as [dv|]; [|done].
  destruct (rule_out_loop _ _ _ _ _) as [items| |] eqn:Hloop; [|done..].
  cbn. intros [= <-]. exists dv. split; [done|].
  rewrite <-(rule_out_loop_keys _ _ _ _ _ Hloop).
  apply fmap_Permutation, sorted_by_perm.
Qed.

Lemma count_word_ends word_var i_var i_neighbor ws :
  ∀ n, count_word word_var i_var i_neighbor ws n ≠ OutOfFuel.
Proof.
  induction ws as [|w ws IH]; intros n; cbn [count_word]; [done|].
  unfold char_at. destruct (String.get i_var word_var); [|done].
  destruct (String.get i_neighbor w); [|done]. apply IH.
Qed.

Lemma count_neighbors_ends (D : Domains) (a : Assignment) var word_var ns :
  ∀ n, count_neighbors cw D a var word_var ns n ≠ OutOfFuel.
Proof.
  induction ns as [|x ns IH]; intros n; cbn [count_neighbors]; [done|].
  case_decide; [apply IH|].
  destruct (overlaps cw var x) as [[i_var i_x]|]; [|done].
  destruct (D !! x) as [dn|]; [|done].
  pose proof (count_word_ends word_var i_var i_x (elements dn) n) as Hw.
  destruct (count_word _ _ _ _ _); [apply IH|done..].
Qed.

Lemma rule_out_loop_ends (D : Domains) (a : Assignment) var ws :
  rule_out_loop cw D a var ws ≠ OutOfFuel.
Proof.
  induction ws as [|w ws IH]; cbn [rule_out_loop]; [done|].
  pose proof (count_neighbors_ends D a var w (elements (neighbors cw var)) 0).
  destruct (count_neighbors _ _ _ _ _ _ _); [|done..].
  by destruct (rule_out_loop _ _ _ _ _).
Qed.

Lemma order_domain_values_ends var (a : Assignment) (D : Domains) :
  (order_domain_values cw var a D).2 ≠ OutOfFuel.
Proof.
  unfold order_domain_values, bind, get_domain.
  destruct (D !! var) as [dv|]; [|done].
  pose proof (rule_out_loop_ends D a var (elements dv)).
  by destruct (rule_out_loop _ _ _ _ _).
Qed.

Lemma consistent_ends (a : Assignment) (D : Domains) :
  (consistent cw a D).2 ≠ OutOfFuel.
Proof.
  unfold consistent, ret, lift.
  case_decide; [done|]. destruct (check_lengths _); [|done]. cbn.
  induction (combinations2 _) as [|[x y] ps IH]; cbn [check_overlaps]; [done|].
  destruct (overlaps cw x y) as [[i_x i_y]|]; [|done].
  unfold lookup_word, char_at.
  destruct (a !! x) as [wx|]; [|done]. destruct (String.get i_x wx); [|done].
  destruct (a !! y) as [wy|]; [|done]. destruct (String.get i_y wy); [|done].
  by case_decide.
Qed.

Lemma ac3_shrinks (arcs : option (gset Arc)) (D : Domains) :
  arcs_of_store arcs D →
  shrinks (ac3 cw arcs D).1 D ∧ (ac3 cw arcs D).2 ≠ OutOfFuel.
Proof.
  intros Harcs.
  destruct (ac3_inv cw (λ _ _, False) arcs D Harcs)
    as (D' & r & -> & ? & Hsh & _); [|by intros v w []|done].
  by intros x y i_x i_y wx _ _ _ _ [].
Qed.

Lemma shrinks_elem_of (D' D : Domains) v d' w :
  shrinks D' D → D' !! v = Some d' → w ∈ d' → ∃ d, D !! v = Some d ∧ w ∈ d.
Proof.
  intros [_ Hsh] Hv Hw. destruct (Hsh v d' Hv) as (d & ? & Hsub).
  exists d. split; [done|]. by apply Hsub.
Qed.

Local Ltac run_stops H :=
  cbn in H; injection H as <- <-;
  split; [first [done | apply shrinks_refl] | by intros ? [=]].

Lemma backtrack_loop_run (recurse : Assignment → M (option Assignment))
    (a : Assignment) (var : Var) (D0 : Domains) :
  (∀ a' D, run_ok cw a' D (recurse a' D)) →
  var ∉ dom a → var ∈ dom D0 →
  ∀ values D D' r, shrinks D D0 →
    (∀ w, w ∈ values → ∃ d, D0 !! var = Some d ∧ w ∈ d) →
    backtrack_loop cw recurse a var values D = (D', r) →
    shrinks D' D ∧
    ∀ s, r = Ok (Some s) →
      a ⊆ s ∧ dom s ⊆ dom a ∪ dom D0 ∧ size s = size D0 ∧
      consistent cw s D0 = (D0, Ok true) ∧
      (∀ v w, s !! v = Some w →
         a !! v = Some w ∨ ∃ d, D0 !! v = Some d ∧ w ∈ d).
Proof.
  intros Hrec Hfresh Hvar.
  induction values as [|word rest IH]; intros D D' r HD Hvalues Hrun.
  { run_stops Hrun. }
  assert (∀ w, w ∈ rest → ∃ d, D0 !! var = Some d ∧ w ∈ d) as Hrest.
  { intros w Hw. apply Hvalues. by right. }
  cbn [backtrack_loop] in Hrun. unfold bind at 1 in Hrun.
  pose proof (consistent_keeps_store (<[var := word]> a) D) as Hkeep.
  destruct (consistent cw (<[var := word]> a) D) as [D1 rc] eqn:Hcons.
  cbn in Hkeep. subst D1.
  destruct rc as [[]|e|]; [| |run_stops Hrun..].
  - unfold bind at 1 in Hrun.
    destruct (ac3_shrinks (Some (unassigned_arcs (<[var := word]> a) D)) D
                (arcs_of_store_unassigned _ _)) as [Hsh1 _].
    destruct (ac3 cw (Some (unassigned_arcs (<[var := word]> a) D)) D)
      as [D1 r1].
    cbn in Hsh1.
    destruct r1 as [b|e|]; [|run_stops Hrun..].
    unfold bind at 1 in Hrun.
    destruct (Hrec (<[var := word]> a) D1) as [Hsh2 Hres].
    destruct (recurse (<[var := word]> a) D1) as [D2 r2]. cbn in Hsh2, Hres.
    assert (shrinks D2 D) as Hsh by by eapply shrinks_trans.
    assert (shrinks D1 D0) as Hsh10 by by eapply shrinks_trans.
    destruct r2 as [[s|]|e|]; [| |run_stops Hrun..].
    + cbn in Hrun. injection Hrun as <- <-.
      split; [done|]. intros s' [= <-].
      destruct (Hres s eq_refl) as (Hsub & Hdom & Hsize & Hs & Hwords).
      split_and!.
      * etrans; [|done]. apply insert_subseteq. by apply not_elem_of_dom.
      * rewrite dom_insert_L, (proj1 Hsh10) in Hdom.
        clear -Hdom Hvar. set_solver.
      * by rewrite Hsize, (shrinks_size _ _ Hsh10).
      * destruct Hs as [->|Hs]; by eapply consistent_store.
      * intros v w Hv. destruct (Hwords v w Hv) as [Hin|(d & Hd & Hw)].
        -- apply lookup_insert_Some in Hin as [[<- <-]|[_ ?]]; [|by left].
           right. apply Hvalues. by left.
        -- right. by eapply shrinks_elem_of.
    + assert (shrinks D2 D0) as Hsh20 by by eapply shrinks_trans.
      destruct (IH D2 D' r Hsh20 Hrest Hrun) as [Hsh3 Hres3]. split; [|done].
      by eapply shrinks_trans.
  - by eapply IH.
Qed.

Lemma backtrack_run (fuel : nat) :
  ∀ a D, run_ok cw a D (backtrack cw fuel a D).
Proof.
  induction fuel as [|fuel IH]; intros a D.
  { split; [apply shrinks_refl|by intros ? [=]]. }
  destruct (backtrack cw (S fuel) a D) as [D' r] eqn:Hrun.
  cbn [backtrack] in Hrun. unfold bind at 1, assignment_complete in Hrun.
  case_decide as Hsize.
  { cbn in Hrun. injection Hrun as <- <-.
    split; [apply shrinks_refl|]. intros s [= <-].
    split_and!; [done|apply union_subseteq_l|done|by left|by left]. }
  unfold bind at 1 in Hrun.
  destruct (select_unassigned_variable cw a D) as [D0 rv] eqn:Hsel.
  assert (D0 = D) as ->.
  { unfold select_unassigned_variable in Hsel.
    by destruct (sorted_by _ _ _); injection Hsel as <-. }
  destruct rv as [var|e|]; [|run_stops Hrun..].
  destruct (select_unassigned_variable_minimal cw a D var Hsel) as (Hvar & Hfresh & _).
  unfold bind at 1 in Hrun.
  pose proof (order_domain_values_keeps_store var a D) as Hkeep.
  pose proof (order_domain_values_words var a D) as Hwords.
  destruct (order_domain_values cw var a D) as [D0 ro]. cbn in Hkeep, Hwords.
  subst D0.
  destruct ro as [values|e|]; [|run_stops Hrun..].
  destruct (Hwords values eq_refl) as (dv & Hdv & Hperm).
  destruct (backtrack_loop_run (backtrack cw fuel) a var D IH Hfresh Hvar
              values D D' r (shrinks_refl D)) as [Hsh Hres]; [|done|].
  { intros w Hw. exists dv. split; [done|].
    rewrite Hperm in Hw. by apply elem_of_elements. }
  split; [done|]. intros s Hs. destruct (Hres s Hs) as (? & ? & ? & ? & ?).
  split_and!; [done..|by right|done].
Qed.

(** The recursion of [backtrack] goes one level deeper per slot it fills,
    so a budget above the number of unfilled slots is never used up. *)
Lemma backtrack_loop_ends (recurse : Assignment → M (option Assignment))
    (a : Assignment) (var : Var) (V : gset Var) :
  (∀ a' D, run_ok cw a' D (recurse a' D)) →
  (∀ w D, dom D = V → (recurse (<[var := w]> a) D).2 ≠ OutOfFuel) →
  ∀ values D, dom D = V →
    (backtrack_loop cw recurse a var values D).2 ≠ OutOfFuel.
Proof.
  intros Hrun Hrec. induction values as [|word rest IH]; intros D HD; [done|].
  cbn [backtrack_loop]. unfold bind at 1.
  pose proof (consistent_keeps_store (<[var := word]> a) D) as Hkeep.
  pose proof (consistent_ends (<[var := word]> a) D) as Hend.
  destruct (consistent cw (<[var := word]> a) D) as [D1 rc].
  cbn in Hkeep, Hend. subst D1.
  destruct rc as [[]|e|]; [| |done..].
  - unfold bind at 1.
    destruct (ac3_shrinks (Some (unassigned_arcs (<[var := word]> a) D)) D
                (arcs_of_store_unassigned _ _)) as [[Hd1 _] Hend1].
    destruct (ac3 cw (Some (unassigned_arcs (<[var := word]> a) D)) D)
      as [D1 r1].
    cbn in Hd1, Hend1.
    destruct r1 as [b|e|]; [|done..].
    unfold bind at 1.
    destruct (Hrun (<[var := word]> a) D1) as [[Hd2 _] _].
    pose proof (Hrec word D1) as Hend2.
    destruct (recurse (<[var := word]> a) D1) as [D2 r2]. cbn in Hd2, Hend2.
    destruct r2 as [[s|]|e|]; [done| |done|].
    + apply IH. congruence.
    + exfalso. apply Hend2; congruence.
  - by apply IH.
Qed.

Lemma backtrack_ends (fuel : nat) :
  ∀ a D, dom a ⊆ dom D → size D < fuel + size a →
         (backtrack cw fuel a D).2 ≠ OutOfFuel.
Proof.
  induction fuel as [|fuel IH]; intros a D Hdom Hfuel.
  { exfalso. apply subseteq_size in Hdom. rewrite !size_dom in Hdom.
    cbn in Hfuel. lia. }
  cbn [backtrack]. unfold bind at 1, assignment_complete.
  case_decide as Hsize; [done|].
  unfold bind at 1.
  destruct (select_unassigned_variable cw a D) as [D0 rv] eqn:Hsel.
  assert (D0 = D ∧ rv ≠ OutOfFuel) as [-> Hrv].
  { unfold select_unassigned_variable in Hsel.
    by destruct (sorted_by _ _ _); injection Hsel as <- <-. }
  destruct rv as [var|e|]; [|done..].
  destruct (select_unassigned_variable_minimal cw a D var Hsel) as (Hvar & Hfresh & _).
  unfold bind at 1.
  pose proof (order_domain_values_keeps_store var a D) as Hkeep.
  pose proof (order_domain_values_ends var a D) as Hend.
  destruct (order_domain_values cw var a D) as [D0 ro]. cbn in Hkeep, Hend.
  subst D0.
  destruct ro as [values|e|]; [|done..].
  apply (backtrack_loop_ends (backtrack cw fuel) a var (dom D));
    [apply backtrack_run| |done].
  intros w D1 HD1. apply IH.
  - rewrite dom_insert_L, HD1. clear -Hdom Hvar. set_solver.
  - rewrite map_size_insert_None by (by apply not_elem_of_dom).
    rewrite <-(size_dom (D:=gset Var)), HD1, size_dom. lia.
Qed.

End Any_puzzle.

Lemma consistent_empty (cw : Crossword) (D : Domains) :
  consistent cw ∅ D = (D, Ok true).
Proof. reflexivity. Qed.

Lemma solve_run (cw : Crossword) :
  ∃ (D1 D2 : Domains) (r2 : result bool),
    store_inv cw D1 ∧ shrinks D2 D1 ∧ r2 ≠ OutOfFuel ∧
    run_solve cw =
      match r2 with
      | Ok _ => backtrack cw (S (size D2)) ∅ D2
      | Raise e => (D2, Raise e)
      | OutOfFuel => (D2, OutOfFuel)
      end.
Proof.
  unfold run_solve, solve.
  destruct (enforce_node_consistency_spec cw) as (D1 & Hnode & HD1).
  unfold bind at 1. rewrite Hnode.
  destruct (ac3_shrinks cw None D1 (arcs_of_store_default D1)) as [Hsh Hend].
  unfold bind at 1.
  destruct (ac3 cw None D1) as [D2 r2]. cbn in Hsh, Hend.
  exists D1, D2, r2. split_and!; [done..|]. by destruct r2.
Qed.

(** ** The search *)

(** X19. An assignment [backtrack] returns extends the one it was called
    with, has one entry per slot of the store and, unless it is the argument
    itself, has passed [consistent]; the store has only lost words. This
    holds on every puzzle. *)
Theorem backtrack_extends (cw : Crossword) (fuel : nat) (a s : Assignment)
    (D D' : Domains) :
  backtrack cw fuel a D = (D', Ok (Some s)) →
  a ⊆ s ∧ size s = size D' ∧ shrinks D' D ∧
  (s = a ∨ consistent cw s D' = (D', Ok true)).
Proof.
  intros Hrun. destruct (backtrack_run cw fuel a D) as [Hsh Hres].
  rewrite Hrun in Hsh, Hres. cbn in Hsh, Hres.
  destruct (Hres s eq_refl) as (Hsub & _ & Hsize & Hs & _).
  split_and!; [done| |done|].
  - by rewrite Hsize, (shrinks_size _ _ Hsh).
  - destruct Hs as [->|Hs]; [by left|right]. by eapply consistent_store.
Qed.

(** X20. Called with an assignment that has every slot of the store among
    its keys and more keys than that, [backtrack] raises [IndexError]: the
    assignment does not count as complete, and no slot is left to pick. *)
Theorem backtrack_index_error (cw : Crossword) (fuel : nat) (a : Assignment)
    (D : Domains) :
  dom D ⊆ dom a → size a ≠ size D →
  backtrack cw (S fuel) a D = (D, Raise IndexError).
Proof.
  intros Hsub Hsize. cbn [backtrack]. unfold bind at 1, assignment_complete.
  rewrite decide_False by done. unfold bind at 1, select_unassigned_variable.
  assert (dom D ∖ dom a = ∅) as -> by (clear -Hsub; set_solver).
  by rewrite elements_empty.
Qed.

(** ** The solver on any puzzle *)

(** X21. An assignment [solve] returns has passed the checks of the code on
    every puzzle, also on one whose overlaps break the contract: it has
    exactly the slots of the puzzle as keys, [consistent] accepts it, and
    each of its words is a vocabulary word of the length of its slot. *)
Theorem solve_checked (cw : Crossword) (D' : Domains) (s : Assignment) :
  run_solve cw = (D', Ok (Some s)) →
  dom s = variables cw ∧
  consistent cw s D' = (D', Ok true) ∧
  ∀ v w, s !! v = Some w → w ∈ words cw ∧ String.length w = var_length v.
Proof.
  destruct (solve_run cw) as (D1 & D2 & r2 & HD1 & Hsh & _ & ->).
  destruct HD1 as (Hdom & Hnc & Hwords & _).
  destruct r2 as [b|e|]; [|done..]. intros Hrun.
  destruct (backtrack_run cw (S (size D2)) ∅ D2) as [_ Hres].
  rewrite Hrun in Hres. cbn in Hres.
  destruct (Hres s eq_refl) as (_ & Hkeys & Hsize & Hs & Hin).
  split_and!.
  - rewrite <-Hdom, <-(proj1 Hsh). rewrite dom_empty_L, (left_id_L ∅ (∪)) in Hkeys.
    pose proof (set_subseteq_size_eq (dom s) (dom D2) Hkeys) as Heq.
    rewrite !size_dom, Hsize in Heq. apply Heq. lia.
  - destruct Hs as [->|Hs]; [apply consistent_empty|by eapply consistent_store].
  - intros v w Hv. destruct (Hin v w Hv) as [Hv0|(d & Hd & Hw)].
    { by apply lookup_empty_Some in Hv0. }
    destruct (shrinks_elem_of _ _ _ _ _ Hsh Hd Hw) as (d1 & Hd1 & Hw1).
    split; [by eapply Hwords|by eapply Hnc].
Qed.

(** X22. Whatever [solve] does, it leaves a store with the slots of the
    puzzle as keys, in which every candidate word is a vocabulary word of
    the length of its slot: words are removed, never added. *)
Theorem solve_store (cw : Crossword) :
  dom (run_solve cw).1 = variables cw ∧
  ∀ v d w, (run_solve cw).1 !! v = Some d → w ∈ d →
           w ∈ words cw ∧ String.length w = var_length v.
Proof.
  destruct (solve_run cw) as (D1 & D2 & r2 & HD1 & Hsh & _ & ->).
  destruct HD1 as (Hdom & Hnc & Hwords & _).
  assert (shrinks (match r2 with
                   | Ok _ => backtrack cw (S (size D2)) ∅ D2
                   | Raise e => (D2, Raise e)
                   | OutOfFuel => (D2, OutOfFuel)
                   end).1 D1) as Hsh'.
  { destruct r2; [|done..]. eapply shrinks_trans; [|done].
    apply (backtrack_run cw (S (size D2)) ∅ D2). }
  split; [by rewrite (proj1 Hsh')|].
  intros v d w Hd Hw.
  destruct (shrinks_elem_of _ _ _ _ _ Hsh' Hd Hw) as (d1 & Hd1 & Hw1).
  split; [by eapply Hwords|by eapply Hnc].
Qed.

(** X23. [solve] ends on every puzzle, by returning or by raising: each
    loop of [ac3] ends, and the recursion of [backtrack] is at most one call
    per slot deep. *)
Theorem solve_terminates (cw : Crossword) :
  (run_solve cw).2 ≠ OutOfFuel.
Proof.
  destruct (solve_run cw) as (D1 & D2 & r2 & _ & _ & Hend & ->).
  destruct r2 as [b|e|]; [|done..].
  apply backtrack_ends.
  - rewrite dom_empty_L. apply empty_subseteq.
  - rewrite map_size_empty. lia.
Qed.

(** X24. A puzzle without slots is solved by the empty assignment. *)
Theorem solve_no_slots (cw : Crossword) :
  variables cw = ∅ → run_solve cw = (∅, Ok (Some ∅)).
Proof.
  intros Hv. unfold run_solve, init_domains. rewrite Hv, gset_to_gmap_empty.
  reflexivity.
Qed.

(** ** Errors of the validator *)


(** ** Runs of the examples *)

Lemma backtrack_extends_witness :
  backtrack cross_puzzle 3 cat_across cross_store
  = ((backtrack cross_puzzle 3 cat_across cross_store).1, Ok (Some cross_solution)) ∧
  cat_across ⊆ cross_solution ∧
  size cross_solution = size (backtrack cross_puzzle 3 cat_across cross_store).1 ∧
  shrinks (backtrack cross_puzzle 3 cat_across cross_store).1 cross_store ∧
  (cross_solution = cat_across ∨
   consistent cross_puzzle cross_solution
     (backtrack cross_puzzle 3 cat_across cross_store).1
   = ((backtrack cross_puzzle 3 cat_across cross_store).1, Ok true)).
Proof.
  assert (backtrack cross_puzzle 3 cat_across cross_store
          = ((backtrack cross_puzzle 3 cat_across cross_store).1,
             Ok (Some cross_solution))) as H by (vm_compute; reflexivity).
  split; [exact H|].
  exact (backtrack_extends cross_puzzle 3 cat_across cross_solution cross_store _ H).
Defined.

Lemma backtrack_index_error_witness :
  dom cross_store ⊆ dom crowded_assignment ∧
  size crowded_assignment ≠ size cross_store ∧
  backtrack cross_puzzle 1 crowded_assignment cross_store
  = (cross_store, Raise IndexError).
Proof.
  assert (dom cross_store ⊆ dom crowded_assignment) as Hsub.
  { apply (bool_decide_unpack _). vm_compute. exact I. }
  assert (size crowded_assignment ≠ size cross_store) as Hsize.
  { apply (bool_decide_unpack _). vm_compute. exact I. }
  split_and!; [exact Hsub|exact Hsize|].
  exact (backtrack_index_error cross_puzzle 0 crowded_assignment cross_store
           Hsub Hsize).
Defined.

Lemma solve_checked_witness :
  run_solve cross_puzzle = ((run_solve cross_puzzle).1, Ok (Some cross_solution)) ∧
  dom cross_solution = variables cross_puzzle ∧
  consistent cross_puzzle cross_solution (run_solve cross_puzzle).1
  = ((run_solve cross_puzzle).1, Ok true) ∧
  ∀ v w, cross_solution !! v = Some w →
         w ∈ words cross_puzzle ∧ String.length w = var_length v.
Proof.
  assert (run_solve cross_puzzle
          = ((run_solve cross_puzzle).1, Ok (Some cross_solution))) as H
    by (vm_compute; reflexivity).
  split; [exact H|].
  exact (solve_checked cross_puzzle _ cross_solution H).
Defined.

Lemma solve_no_slots_witness :
  variables no_slots = ∅ ∧ run_solve no_slots = (∅, Ok (Some ∅)).
Proof.
  split; [reflexivity|]. exact (solve_no_slots no_slots eq_refl).
Defined.

